(** * NYC Property Scout: the streaming ingestion pipeline

    A shallow embedding of the three source functions that make up the
    streaming pipeline of the front end:

    - [streamWatsonAnalysis] (frontend/src/services/api.js), module [Api]:
      the read loop of [streamRequest], which turns network fragments into
      callback invocations, and the controller with its cleanup function;
    - the message callback of [triggerWatsonAnalysis]
      (frontend/src/pages/PropertyDetail.jsx), module [PropertyDetail]: it
      classifies a chunk and updates the draft; and the effect that starts
      the requests of a property view;
    - [parseReport] (components/ScoreCard.jsx), module [ScoreCard]: the
      report normalizer.

    The platform functions the source calls (TextDecoder, String.prototype
    methods, JSON.parse, JSON.stringify, RegExp matching, parseInt, parseFloat)
    are modelled first, from ECMA-262 and the WHATWG Encoding Standard.

    JavaScript strings are sequences of UTF-16 code units: [list N].
    Numbers are IEEE 754 binary64 values (see [Json.number]). *)

From Stdlib Require Import List NArith ZArith Bool Ascii String Lia Arith.
From Stdlib Require Import Strings.Byte.
Import ListNotations.

Set Implicit Arguments.
Set Warnings "-register-all,-abstract-large-number".
Close Scope string_scope.
Abbreviation length := Datatypes.length.
Abbreviation concat := List.concat.
Open Scope N_scope.

(* ================================================================== *)
(** * JavaScript strings *)
(* ================================================================== *)

Module JS.

Abbreviation code_unit := N (only parsing).
Definition jsstring := list N.

(** An ASCII literal of the source as a JavaScript string. *)
Definition lit (s : string) : jsstring :=
  map N_of_ascii (list_ascii_of_string s).

Definition bytes_of (s : string) : list byte :=
  map byte_of_ascii (list_ascii_of_string s).

(** A literal in which the apostrophe stands for the quotation mark, for
    writing JSON text. *)
Definition quoted (s : string) : jsstring :=
  map (fun c => if c =? 39 then 34 else c) (lit s).

Definition quoted_bytes (s : string) : list byte :=
  map (fun b => if Byte.eqb b x27 then x22 else b) (bytes_of s).

Fixpoint str_eqb (a b : jsstring) : bool :=
  match a, b with
  | [], [] => true
  | x :: a', y :: b' => N.eqb x y && str_eqb a' b'
  | _, _ => false
  end.

(** [s.startsWith(p)] *)
Fixpoint startsWith (s p : jsstring) : bool :=
  match p, s with
  | [], _ => true
  | x :: p', y :: s' => N.eqb x y && startsWith s' p'
  | _ :: _, [] => false
  end.

(** [s.slice(n)] for [0 <= n]. *)
Definition slice (n : nat) (s : jsstring) : jsstring := skipn n s.

(** [s.includes(m)]: [m] occurs in [s] at some index. *)
Fixpoint includes (s m : jsstring) : bool :=
  startsWith s m ||
  match s with
  | [] => false
  | _ :: s' => includes s' m
  end.

(** WhiteSpace and LineTerminator code units (ECMA-262 12.2, 12.3): the set
    [String.prototype.trim] strips and the regular expression class [\s]
    matches. *)
Definition is_space (c : code_unit) : bool :=
  ((9 <=? c) && (c <=? 13)) || (c =? 32) || (c =? 160) || (c =? 5760)
  || ((8192 <=? c) && (c <=? 8202)) || (c =? 8232) || (c =? 8233)
  || (c =? 8239) || (c =? 8287) || (c =? 12288) || (c =? 65279).

Fixpoint trimStart (s : jsstring) : jsstring :=
  match s with
  | [] => []
  | c :: s' => if is_space c then trimStart s' else s
  end.

Definition trimEnd (s : jsstring) : jsstring := rev (trimStart (rev s)).

(** [s.trim()] *)
Definition trim (s : jsstring) : jsstring := trimEnd (trimStart s).

(** [s.split('\n')]: never the empty array. *)
Fixpoint split_nl (s : jsstring) : list jsstring :=
  match s with
  | [] => [[]]
  | c :: s' =>
      if c =? 10 then [] :: split_nl s'
      else match split_nl s' with
           | l :: ls => (c :: l) :: ls
           | [] => [[c]]
           end
  end.

(** [s.replace(/,/g, '')] *)
Definition remove_commas (s : jsstring) : jsstring :=
  filter (fun c => negb (c =? 44)) s.

End JS.
Import JS.

Declare Scope js_scope.
Delimit Scope js_scope with js.
Notation "'$' s" := (lit s%string) (at level 1, s at level 0, format "'$' s") : js_scope.
Notation "'#' s" := (quoted s%string) (at level 1, s at level 0, format "'#' s") : js_scope.
Open Scope js_scope.

(* ================================================================== *)
(** * TextDecoder: the streaming UTF-8 decoder *)
(* ================================================================== *)

(** [new TextDecoder()] followed by [decoder.decode(value, { stream: true })]
    (WHATWG Encoding Standard, 4.1 and 8.1.1): a byte-at-a-time machine whose
    state survives between calls.  Malformed input yields U+FFFD, a leading
    U+FEFF is dropped, scalar values above U+FFFF become surrogate pairs.
    The source never makes the final flushing call. *)
Module Utf8.

Record state := mk {
  code_point : N;
  bytes_seen : N;
  bytes_needed : N;
  lower : N;
  upper : N;
  bom_seen : bool
}.

Definition init : state := mk 0 0 0 128 191 false.

Definition reset (st : state) : state := mk 0 0 0 128 191 (bom_seen st).

Definition utf16 (cp : N) : jsstring :=
  if cp <? 65536 then [cp]
  else [55296 + N.shiftr (cp - 65536) 10; 56320 + N.land (cp - 65536) 1023].

(** Serializing one scalar value of the output queue. *)
Definition emit (st : state) (cp : N) : state * jsstring :=
  if bom_seen st then (st, utf16 cp)
  else (mk (code_point st) (bytes_seen st) (bytes_needed st) (lower st)
           (upper st) true,
        if cp =? 65279 then [] else utf16 cp).

(** The handler when no continuation byte is pending. *)
Definition lead (st : state) (b : N) : state * jsstring :=
  if b <=? 127 then emit st b
  else if (194 <=? b) && (b <=? 223) then
    (mk (N.land b 31) (bytes_seen st) 1 (lower st) (upper st) (bom_seen st), [])
  else if (224 <=? b) && (b <=? 239) then
    (mk (N.land b 15) (bytes_seen st) 2
        (if b =? 224 then 160 else lower st)
        (if b =? 237 then 159 else upper st) (bom_seen st), [])
  else if (240 <=? b) && (b <=? 244) then
    (mk (N.land b 7) (bytes_seen st) 3
        (if b =? 240 then 144 else lower st)
        (if b =? 244 then 143 else upper st) (bom_seen st), [])
  else emit st 65533.

Definition step (st : state) (byte : byte) : state * jsstring :=
  let b := Byte.to_N byte in
  if bytes_needed st =? 0 then lead st b
  else if (b <? lower st) || (upper st <? b) then
    (* the byte is put back on the queue and U+FFFD is emitted *)
    let (st1, o1) := emit (reset st) 65533 in
    let (st2, o2) := lead st1 b in
    (st2, o1 ++ o2)
  else
    let cp := N.lor (N.shiftl (code_point st) 6) (N.land b 63) in
    let seen := bytes_seen st + 1 in
    if seen =? bytes_needed st then emit (reset st) cp
    else (mk cp seen (bytes_needed st) 128 191 (bom_seen st), []).

(** [decoder.decode(value, { stream: true })] *)
Fixpoint decode (st : state) (value : list byte) : state * jsstring :=
  match value with
  | [] => (st, [])
  | b :: rest =>
      let (st1, o1) := step st b in
      let (st2, o2) := decode st1 rest in
      (st2, o1 ++ o2)
  end.

End Utf8.

(* ================================================================== *)
(** * JavaScript values *)
(* ================================================================== *)

Module Json.

(** Numbers: the IEEE 754 binary64 values of ECMA-262 6.1.6.1.  A finite
    number is [(-1)^neg * m * 2^e] written in one way: a zero has [m = 0]
    and [e = 0]; a normal number has [2^52 <= m < 2^53] and
    [-1074 <= e <= 971]; a subnormal one has [0 < m < 2^52] and
    [e = -1074]. *)
Inductive number :=
| NaN
| Infinity (neg : bool)
| Finite (neg : bool) (m : N) (e : Z).

Inductive value :=
| VUndefined
| VNull
| VBool (b : bool)
| VNum (n : number)
| VStr (s : jsstring)
| VArr (elems : list value)
| VObj (props : list (jsstring * value)).

Definition number_eqb (a b : number) : bool :=
  match a, b with
  | NaN, NaN => true
  | Infinity s, Infinity t => Bool.eqb s t
  | Finite s m e, Finite t n f => Bool.eqb s t && (m =? n) && (e =? f)%Z
  | _, _ => false
  end.

(** Decimal digits, least significant first. *)
Fixpoint digits_rev (fuel : nat) (n : N) : jsstring :=
  match fuel with
  | O => []
  | S f => if n <? 10 then [48 + n] else (48 + n mod 10) :: digits_rev f (n / 10)
  end.

(** Decimal digits, most significant first, as code units. *)
Definition N_digits (n : N) : jsstring :=
  rev (digits_rev (S (N.to_nat (N.size n))) n).

Definition is_digit (c : code_unit) : bool := (48 <=? c) && (c <=? 57).

(** The value of a string of decimal digits. *)
Definition digits_value (ds : jsstring) : N :=
  fold_left (fun acc d => 10 * acc + (d - 48)) ds 0.

Fixpoint leading_zeros (ds : jsstring) : nat :=
  match ds with
  | d :: ds' => if d =? 48 then S (leading_zeros ds') else O
  | [] => O
  end.

Definition p52 : Z := 4503599627370496.        (* 2^52 *)
Definition p53 : Z := 9007199254740992.        (* 2^53 *)
Definition emin : Z := (-1074)%Z.
Definition emax : Z := 971.

(** Rounding to binary64 (6.1.6.1): the nearest value, the one with an even
    significand when two are as near, and an infinity from
    [2^1024 - 2^970] on.  [n / den] is the positive rational to round taken
    [2^1127] times, so that every place of a binary64 value is a whole
    number: [w] is its integer part, whose length gives the binary
    logarithm; [e] is the exponent of the last place kept, 52 below the
    leading one and not below [emin]; [q] is the rational in units of
    [2^e], [r / d] what is left of it. *)
Definition round_scaled (neg : bool) (n den : Z) : number :=
  let w := (n / den)%Z in
  let e := Z.max emin (Z.log2 w - 1179) in
  let d := (den * 2 ^ (e + 1127))%Z in
  let q := (n / d)%Z in
  let r := (n mod d)%Z in
  let m := if ((d <? 2 * r) || ((d =? 2 * r) && Z.odd q))%Z
           then (q + 1)%Z else q in
  if (m =? 0)%Z then Finite neg 0 0
  else if (m =? p53)%Z then
    if (emax <? e + 1)%Z then Infinity neg else Finite neg (Z.to_N p52) (e + 1)
  else if (emax <? e)%Z then Infinity neg
  else Finite neg (Z.to_N m) e.

(** The Number value for the positive rational [num / den]. *)
Definition round_ratio (neg : bool) (num den : Z) : number :=
  round_scaled neg (num * 2 ^ 1127) den.

(** The Number value for the decimal [(-1)^neg * mant * 10^exp].  With [d]
    digits in [mant] the decimal lies from [10^(d+exp-1)] up to
    [10^(d+exp)]: beyond the two bounds below it rounds to an infinity or to
    a zero whatever its digits, which are then not looked at. *)
Definition Dec (neg : bool) (mant : N) (exp : Z) : number :=
  if mant =? 0 then Finite neg 0 0
  else
    let n := (Z.of_nat (length (N_digits mant)) + exp)%Z in
    if (310 <? n)%Z then Infinity neg
    else if (n <? -330)%Z then Finite neg 0 0
    else if (0 <=? exp)%Z then round_ratio neg (Z.of_N mant * 10 ^ exp) 1
    else round_ratio neg (Z.of_N mant) (10 ^ (- exp)).

(** The number [(-1)^neg * digits * 10^exp], trailing zeros moved into the
    exponent. *)
Definition mk_number (neg : bool) (ds : jsstring) (exp : Z) : number :=
  let m := digits_value ds in
  if m =? 0 then Dec neg 0 0
  else
    let z := leading_zeros (rev ds) in
    Dec neg (digits_value (rev (skipn z (rev ds)))) (exp + Z.of_nat z).

Definition zeros (n : nat) : jsstring := repeat 48 n.

(** [s * 10^x] without the factors of ten of [s]. *)
Fixpoint strip10 (fuel : nat) (s : N) (x : Z) : N * Z :=
  match fuel with
  | O => (s, x)
  | S f =>
      if (0 <? s) && (s mod 10 =? 0) then strip10 f (s / 10) (x + 1)
      else (s, x)
  end.

Definition stripped (s : N) (x : Z) : N * Z := strip10 (N.to_nat (N.size s)) s x.

(** [m * 2^e] as [s * 10^x], exactly. *)
Definition exact_decimal (m : N) (e : Z) : N * Z :=
  if (0 <=? e)%Z then (m * 2 ^ Z.to_N e, 0%Z)
  else (m * 5 ^ Z.to_N (- e), e).

(** Whether the Number value for the decimal [s * 10^x] is [m * 2^e]. *)
Definition reads_back (m : N) (e : Z) (c : N * Z) : bool :=
  number_eqb (Dec false (fst c) (snd c)) (Finite false m e).

(** The decimals of [k] digits next to [v = m * 2^e], where
    [10^(n-1) <= v < 10^n]: [lo * 10^(n-k) <= v < (lo + 1) * 10^(n-k)].
    The answer is the one whose Number value is [v]; of two, the nearer,
    and the even one when they are as near (Note 2 of 6.1.6.1.20). *)
Definition candidate (m : N) (e n k : Z) : option (N * Z) :=
  let x := (n - k)%Z in
  let P := (Z.of_N m * 2 ^ Z.max 0 e * 10 ^ Z.max 0 (- x))%Z in
  let Q := (2 ^ Z.max 0 (- e) * 10 ^ Z.max 0 x)%Z in
  let lo := Z.to_N (P / Q) in
  let r := (P mod Q)%Z in
  let below := stripped lo x in
  let above := stripped (lo + 1) x in
  match reads_back m e below, reads_back m e above with
  | true, true =>
      if (2 * r <? Q)%Z then Some below
      else if (Q <? 2 * r)%Z then Some above
      else if N.even lo then Some below else Some above
  | true, false => Some below
  | false, true => Some above
  | false, false => None
  end.

(** The search for the least [k], from [k] on; the exact decimal is the
    candidate of its own number of digits, where the search ends. *)
Fixpoint search (fuel : nat) (m : N) (e n k : Z) (exact : N * Z) : N * Z :=
  match fuel with
  | O => exact
  | S f =>
      match candidate m e n k with
      | Some c => c
      | None => search f m e n (k + 1) exact
      end
  end.

(** Step 5 of Number::toString for [m * 2^e > 0]: [s] and [n - k] with
    [k], the number of digits of [s], as small as possible. *)
Definition shortest (m : N) (e : Z) : N * Z :=
  let (S, X) := exact_decimal m e in
  let d := length (N_digits S) in
  search d m e (Z.of_nat d + X) 1 (stripped S X).

(** The text of the decimal [0.ds * 10^n] (steps 6 to 10). *)
Definition decimal_text (ds : jsstring) (n : Z) : jsstring :=
  let k := Z.of_nat (length ds) in
  if ((k <=? n) && (n <=? 21))%Z then
    ds ++ zeros (Z.to_nat (n - k))
  else if ((0 <? n) && (n <=? 21))%Z then
    firstn (Z.to_nat n) ds ++ $"." ++ skipn (Z.to_nat n) ds
  else if ((-6 <? n) && (n <=? 0))%Z then
    $"0." ++ zeros (Z.to_nat (- n)) ++ ds
  else
    let e1 := (n - 1)%Z in
    let sign := if (e1 <? 0)%Z then $"-" else $"+" in
    let etxt := $"e" ++ sign ++ N_digits (Z.abs_N e1) in
    match ds with
    | [d] => d :: etxt
    | d :: rest => d :: $"." ++ rest ++ etxt
    | [] => etxt
    end.

(** Number::toString (ECMA-262 6.1.6.1.20), radix ten. *)
Definition number_to_string (x : number) : jsstring :=
  match x with
  | NaN => $"NaN"
  | Infinity neg => (if neg then $"-" else []) ++ $"Infinity"
  | Finite neg m e =>
      if m =? 0 then $"0"
      else
        let (s, x) := shortest m e in
        let ds := N_digits s in
        (if neg then $"-" else [])
        ++ decimal_text ds (Z.of_nat (length ds) + x)
  end.

(** ToBoolean *)
Definition truthy (v : value) : bool :=
  match v with
  | VUndefined | VNull => false
  | VBool b => b
  | VNum NaN => false
  | VNum (Infinity _) => true
  | VNum (Finite _ m _) => negb (m =? 0)
  | VStr s => match s with [] => false | _ => true end
  | VArr _ | VObj _ => true
  end.

Definition is_undefined (v : value) : bool :=
  match v with VUndefined => true | _ => false end.

(** [a ?? b] *)
Definition nullish (a b : value) : value :=
  match a with
  | VUndefined | VNull => b
  | _ => a
  end.

(** [a || b] *)
Definition or_else (a b : value) : value := if truthy a then a else b.

Fixpoint join (sep : jsstring) (parts : list jsstring) : jsstring :=
  match parts with
  | [] => []
  | [p] => p
  | p :: ps => p ++ sep ++ join sep ps
  end.

(** *** Own properties, in enumeration order

    An object is its list of own properties in the order
    [OrdinaryOwnPropertyKeys] lists them: array indices ascending, then the
    other keys in creation order. *)

(** A canonical numeric string below [2^32 - 1]. *)
Definition array_index (k : jsstring) : option N :=
  match k with
  | [] => None
  | c :: rest =>
      if forallb is_digit k && (negb (c =? 48) || match rest with [] => true | _ => false end)
         && (Nat.leb (length k) 10) && (digits_value k <? 4294967295)
      then Some (digits_value k) else None
  end.

Fixpoint obj_lookup (props : list (jsstring * value)) (k : jsstring) : option value :=
  match props with
  | [] => None
  | (k', v) :: rest => if str_eqb k' k then Some v else obj_lookup rest k
  end.

(** ToString, as applied to the argument of [JSON.parse] and to the
    substitution of a template literal; [None] is a thrown TypeError.
    Arrays go through [Array.prototype.join]; an ordinary object answers
    [[object Object]] through [Object.prototype.toString], unless it has an
    own [toString] property: a parsed value is never callable, and
    [valueOf] cannot yield a primitive either. *)
Fixpoint ToString (v : value) : option jsstring :=
  match v with
  | VUndefined => Some $"undefined"
  | VNull => Some $"null"
  | VBool true => Some $"true"
  | VBool false => Some $"false"
  | VNum n => Some (number_to_string n)
  | VStr s => Some s
  | VArr elems =>
      (fix parts (l : list value) (acc : list jsstring) : option jsstring :=
         match l with
         | [] => Some (join $"," (rev acc))
         | e :: rest =>
             match match e with
                   | VUndefined | VNull => Some []
                   | _ => ToString e
                   end with
             | Some t => parts rest (t :: acc)
             | None => None
             end
         end) elems []
  | VObj props =>
      match obj_lookup props $"toString" with
      | Some _ => None
      | None => Some $"[object Object]"
      end
  end.

Fixpoint obj_replace (props : list (jsstring * value)) (k : jsstring) (v : value)
  : list (jsstring * value) :=
  match props with
  | [] => []
  | (k', v') :: rest =>
      if str_eqb k' k then (k', v) :: rest else (k', v') :: obj_replace rest k v
  end.

(** The place of a new array-index key [i]. *)
Fixpoint obj_insert_index (props : list (jsstring * value)) (i : N) (k : jsstring)
  (v : value) : list (jsstring * value) :=
  match props with
  | [] => [(k, v)]
  | (k', v') :: rest =>
      match array_index k' with
      | Some j => if j <? i then (k', v') :: obj_insert_index rest i k v
                  else (k, v) :: props
      | None => (k, v) :: props
      end
  end.

(** CreateDataProperty / assignment to an own property. *)
Definition obj_set (props : list (jsstring * value)) (k : jsstring) (v : value)
  : list (jsstring * value) :=
  match obj_lookup props k with
  | Some _ => obj_replace props k v
  | None =>
      match array_index k with
      | Some i => obj_insert_index props i k v
      | None => props ++ [(k, v)]
      end
  end.

(** Property read [v.k] for the keys the source reads ([type], [scores],
    [content], ...): none of them is a property of a primitive wrapper or
    of [Array.prototype] / [Object.prototype], so only own properties of an
    object answer.  Reading a property of [undefined] or [null] throws a
    TypeError: [None]. *)
Definition prop (v : value) (k : jsstring) : value :=
  match v with
  | VObj props => match obj_lookup props k with Some x => x | None => VUndefined end
  | _ => VUndefined
  end.

Definition get (v : value) (k : jsstring) : option value :=
  match v with
  | VUndefined | VNull => None
  | _ => Some (prop v k)
  end.

(** [v?.k] *)
Definition opt_get (v : value) (k : jsstring) : value :=
  match v with
  | VUndefined | VNull => VUndefined
  | _ => prop v k
  end.

(** The own enumerable properties copied by a spread [{...v}]. *)
Fixpoint indexed (i : N) (elems : list value) : list (jsstring * value) :=
  match elems with
  | [] => []
  | e :: rest => (N_digits i, e) :: indexed (i + 1) rest
  end.

Definition spread (v : value) : list (jsstring * value) :=
  match v with
  | VObj props => props
  | VArr elems => indexed 0 elems
  | VStr s => indexed 0 (map (fun c => VStr [c]) s)
  | _ => []
  end.

(** *** JSON.parse (ECMA-262 25.5.1, ECMA-404) *)

Inductive presult (A : Type) :=
| POk (a : A) (rest : jsstring)
| PErr                       (* SyntaxError *)
| PFuel.                     (* the recursion bound was reached *)
Arguments PErr {A}.
Arguments PFuel {A}.

Definition is_json_ws (c : code_unit) : bool :=
  (c =? 9) || (c =? 10) || (c =? 13) || (c =? 32).

(** The rest of [s] after its first code unit, when that is [c]. *)
Definition eat (c : code_unit) (s : jsstring) : option jsstring :=
  match s with
  | x :: rest => if x =? c then Some rest else None
  | [] => None
  end.

(** An optional sign: whether it is a minus, and the rest. *)
Definition eat_sign (plus_too : bool) (s : jsstring) : bool * jsstring :=
  match s with
  | x :: rest =>
      if x =? 45 then (true, rest)
      else if plus_too && (x =? 43) then (false, rest)
      else (false, s)
  | [] => (false, s)
  end.

Fixpoint skip_ws (s : jsstring) : jsstring :=
  match s with
  | c :: s' => if is_json_ws c then skip_ws s' else s
  | [] => []
  end.

Definition hex_value (c : code_unit) : option N :=
  if is_digit c then Some (c - 48)
  else if (97 <=? c) && (c <=? 102) then Some (c - 87)
  else if (65 <=? c) && (c <=? 70) then Some (c - 55)
  else None.

Definition hex4 (a b c d : code_unit) : option code_unit :=
  match hex_value a, hex_value b, hex_value c, hex_value d with
  | Some x, Some y, Some z, Some w => Some (((x * 16 + y) * 16 + z) * 16 + w)
  | _, _, _, _ => None
  end.

(** The character a single-character escape stands for. *)
Definition escape_char (e : code_unit) : option code_unit :=
  if e =? 34 then Some 34          (* quotation mark *)
  else if e =? 92 then Some 92     (* reverse solidus *)
  else if e =? 47 then Some 47     (* solidus *)
  else if e =? 98 then Some 8      (* backspace *)
  else if e =? 102 then Some 12    (* form feed *)
  else if e =? 110 then Some 10    (* line feed *)
  else if e =? 114 then Some 13    (* carriage return *)
  else if e =? 116 then Some 9     (* tab *)
  else None.

(** The characters of a string literal after its opening quote, and what
    follows the closing quote. *)
Fixpoint string_body (s : jsstring) : option (jsstring * jsstring) :=
  match s with
  | [] => None
  | c :: rest =>
      if c =? 34 then Some ([], rest)
      else if c =? 92 then
        match rest with
        | [] => None
        | e :: rest1 =>
            if e =? 117 then
              match rest1 with
              | h1 :: h2 :: h3 :: h4 :: rest2 =>
                  match hex4 h1 h2 h3 h4, string_body rest2 with
                  | Some cu, Some (body, after) => Some (cu :: body, after)
                  | _, _ => None
                  end
              | _ => None
              end
            else
              match escape_char e, string_body rest1 with
              | Some cu, Some (body, after) => Some (cu :: body, after)
              | _, _ => None
              end
        end
      else if c <? 32 then None
      else
        match string_body rest with
        | Some (body, after) => Some (c :: body, after)
        | None => None
        end
  end.

Fixpoint span_digits (s : jsstring) : jsstring * jsstring :=
  match s with
  | c :: s' =>
      if is_digit c then let (ds, r) := span_digits s' in (c :: ds, r)
      else ([], s)
  | [] => ([], [])
  end.

(** A JSON number: an optional minus, an integer part without leading
    zero, an optional fraction and an optional exponent. *)
Definition parse_fraction (s : jsstring) : option (jsstring * jsstring) :=
  match eat 46 s with
  | Some r =>
      let (f, r') := span_digits r in
      match f with
      | [] => None
      | _ => Some (f, r')
      end
  | None => Some ([], s)
  end.

Definition parse_exponent (s : jsstring) : option (Z * jsstring) :=
  match s with
  | e :: r =>
      if (e =? 101) || (e =? 69) then
        let (eneg, r1) := eat_sign true r in
        let (ed, r2) := span_digits r1 in
        match ed with
        | [] => None
        | _ => let x := Z.of_N (digits_value ed) in
               Some ((if eneg then - x else x)%Z, r2)
        end
      else Some (0%Z, s)
  | [] => Some (0%Z, s)
  end.

Definition parse_number (s : jsstring) : option (number * jsstring) :=
  let (neg, s1) := eat_sign false s in
  match s1 with
  | [] => None
  | c :: r =>
      if is_digit c then
        let (int, s2) := if c =? 48 then ([48], r) else span_digits s1 in
        match parse_fraction s2 with
        | None => None
        | Some (f, s3) =>
            match parse_exponent s3 with
            | None => None
            | Some (x, s4) =>
                Some (mk_number neg (int ++ f) (x - Z.of_nat (length f)), s4)
            end
        end
      else None
  end.

Fixpoint parse_value (fuel : nat) (s : jsstring) : presult value :=
  match fuel with
  | O => PFuel
  | S f =>
      match skip_ws s with
      | [] => PErr
      | c :: rest =>
          if c =? 123 then                               (* { *)
            match eat 125 (skip_ws rest) with
            | Some rest' => POk (VObj []) rest'
            | None => parse_members f [] rest
            end
          else if c =? 91 then                           (* [ *)
            match eat 93 (skip_ws rest) with
            | Some rest' => POk (VArr []) rest'
            | None => parse_elements f [] rest
            end
          else if c =? 34 then
            match string_body rest with
            | Some (str, after) => POk (VStr str) after
            | None => PErr
            end
          else if startsWith (c :: rest) $"true" then
            POk (VBool true) (skipn 4 (c :: rest))
          else if startsWith (c :: rest) $"false" then
            POk (VBool false) (skipn 5 (c :: rest))
          else if startsWith (c :: rest) $"null" then
            POk VNull (skipn 4 (c :: rest))
          else
            match parse_number (c :: rest) with
            | Some (n, after) => POk (VNum n) after
            | None => PErr
            end
      end
  end

with parse_elements (fuel : nat) (acc : list value) (s : jsstring)
  : presult value :=
  match fuel with
  | O => PFuel
  | S f =>
      match parse_value f s with
      | POk v rest =>
          match eat 44 (skip_ws rest) with
          | Some rest' => parse_elements f (acc ++ [v]) rest'
          | None =>
              match eat 93 (skip_ws rest) with
              | Some rest' => POk (VArr (acc ++ [v])) rest'
              | None => PErr
              end
          end
      | PErr => PErr
      | PFuel => PFuel
      end
  end

with parse_members (fuel : nat) (acc : list (jsstring * value)) (s : jsstring)
  : presult value :=
  match fuel with
  | O => PFuel
  | S f =>
      match eat 34 (skip_ws s) with
      | Some rest =>
          match string_body rest with
          | Some (key, after) =>
              match eat 58 (skip_ws after) with
              | Some rest1 =>
                  match parse_value f rest1 with
                  | POk v rest2 =>
                      match eat 44 (skip_ws rest2) with
                      | Some rest3 => parse_members f (obj_set acc key v) rest3
                      | None =>
                          match eat 125 (skip_ws rest2) with
                          | Some rest3 => POk (VObj (obj_set acc key v)) rest3
                          | None => PErr
                          end
                      end
                  | PErr => PErr
                  | PFuel => PFuel
                  end
              | None => PErr
              end
          | None => PErr
          end
      | None => PErr
      end
  end.

(** [JSON.parse(text)] for a string [text]: [None] is a thrown SyntaxError.
    The bound is never reached ([JSON_parse_bound_suffices] below). *)
Definition parse_bound (s : jsstring) : nat := 2 * length s + 2.

Definition JSON_parse (text : jsstring) : option value :=
  match parse_value (parse_bound text) text with
  | POk v rest => match skip_ws rest with [] => Some v | _ => None end
  | _ => None
  end.

(** *** JSON.stringify(value, null, 2) (ECMA-262 25.5.2) *)

Definition hex_digit (n : N) : code_unit := if n <? 10 then 48 + n else 87 + n.

(** UnicodeEscape: [\uxxxx], lowercase. *)
Definition unicode_escape (c : code_unit) : jsstring :=
  $"\u" ++ [hex_digit (N.shiftr c 12 mod 16); hex_digit (N.shiftr c 8 mod 16);
            hex_digit (N.shiftr c 4 mod 16); hex_digit (c mod 16)].

Definition is_high_surrogate (c : code_unit) : bool := (55296 <=? c) && (c <=? 56319).
Definition is_low_surrogate (c : code_unit) : bool := (56320 <=? c) && (c <=? 57343).

Definition quote_unit (c : code_unit) : jsstring :=
  if c =? 8 then $"\b"
  else if c =? 9 then $"\t"
  else if c =? 10 then $"\n"
  else if c =? 12 then $"\f"
  else if c =? 13 then $"\r"
  else if c =? 34 then [92; 34]
  else if c =? 92 then [92; 92]
  else if c <? 32 then unicode_escape c
  else [c].

Fixpoint quote_body (s : jsstring) : jsstring :=
  match s with
  | [] => []
  | c :: rest =>
      if is_high_surrogate c then
        match rest with
        | d :: rest' =>
            if is_low_surrogate d then c :: d :: quote_body rest'
            else unicode_escape c ++ quote_body rest
        | [] => unicode_escape c
        end
      else if is_low_surrogate c then unicode_escape c ++ quote_body rest
      else quote_unit c ++ quote_body rest
  end.

(** QuoteJSONString *)
Definition quote (s : jsstring) : jsstring := [34] ++ quote_body s ++ [34].

Definition gap : jsstring := $"  ".

(** SerializeJSONProperty with the gap of two spaces; [None] is [undefined]. *)
Fixpoint serialize (indent : jsstring) (v : value) : option jsstring :=
  match v with
  | VUndefined => None
  | VNull => Some $"null"
  | VBool true => Some $"true"
  | VBool false => Some $"false"
  | VNum NaN | VNum (Infinity _) => Some $"null"
  | VNum n => Some (number_to_string n)
  | VStr s => Some (quote s)
  | VArr elems =>
      let inner := indent ++ gap in
      let partial :=
        map (fun e => match serialize inner e with
                      | Some str => str
                      | None => $"null"
                      end) elems in
      match partial with
      | [] => Some $"[]"
      | _ => Some ($"[" ++ [10] ++ inner ++ join ($"," ++ [10] ++ inner) partial
                   ++ [10] ++ indent ++ $"]")
      end
  | VObj props =>
      let inner := indent ++ gap in
      let partial :=
        flat_map (fun kv => match serialize inner (snd kv) with
                            | Some str => [quote (fst kv) ++ $": " ++ str]
                            | None => []
                            end) props in
      match partial with
      | [] => Some $"{}"
      | _ => Some ($"{" ++ [10] ++ inner ++ join ($"," ++ [10] ++ inner) partial
                   ++ [10] ++ indent ++ $"}")
      end
  end.

(** [JSON.stringify(v, null, 2)] *)
Definition JSON_stringify2 (v : value) : value :=
  match serialize [] v with
  | Some s => VStr s
  | None => VUndefined
  end.

End Json.
Import Json.

(* ================================================================== *)
(** * Regular expressions *)
(* ================================================================== *)

(** The backtracking matcher of ECMA-262 22.2.2 for the constructs the
    patterns of the source use: leftmost match, alternatives in order,
    greedy and lazy repetition (an iteration that consumes nothing is
    rejected), capture groups, lookahead, and the two line anchors without
    the [m] flag. *)
Module RegExp.

Inductive re :=
| Class (p : code_unit -> bool)        (* one code unit of a set *)
| Eps
| Seq (a b : re)
| Alt (a b : re)
| Star (greedy : bool) (a : re)
| Group (i : nat) (a : re)
| Ahead (positive : bool) (a : re)
| Bol
| Eol.

Definition captures := list (nat * jsstring).

Definition set_capture (i : nat) (s : jsstring) (c : captures) : captures :=
  (i, s) :: filter (fun e => negb (Nat.eqb (fst e) i)) c.

Fixpoint capture (c : captures) (i : nat) : option jsstring :=
  match c with
  | [] => None
  | (j, s) :: rest => if Nat.eqb j i then Some s else capture rest i
  end.

Definition cont := nat -> jsstring -> captures -> option (nat * captures).

(** [matcher r pos s caps k]: match [r] at index [pos], where [s] is the
    input from [pos] on, then continue with [k]. *)
Fixpoint matcher (r : re) (pos : nat) (s : jsstring) (caps : captures) (k : cont)
  : option (nat * captures) :=
  match r with
  | Class p =>
      match s with
      | c :: s' => if p c then k (S pos) s' caps else None
      | [] => None
      end
  | Eps => k pos s caps
  | Seq a b => matcher a pos s caps (fun pos' s' caps' => matcher b pos' s' caps' k)
  | Alt a b =>
      match matcher a pos s caps k with
      | Some x => Some x
      | None => matcher b pos s caps k
      end
  | Star greedy a =>
      (fix loop (fuel : nat) (pos : nat) (s : jsstring) (caps : captures)
         : option (nat * captures) :=
         let again :=
           match fuel with
           | O => None
           | S f =>
               matcher a pos s caps
                 (fun pos' s' caps' =>
                    if Nat.ltb pos pos' then loop f pos' s' caps' else None)
           end in
         if greedy then
           match again with
           | Some x => Some x
           | None => k pos s caps
           end
         else
           match k pos s caps with
           | Some x => Some x
           | None => again
           end) (length s) pos s caps
  | Group i a =>
      matcher a pos s caps
        (fun pos' s' caps' => k pos' s' (set_capture i (firstn (pos' - pos) s) caps'))
  | Ahead true a =>
      match matcher a pos s caps (fun pos' _ caps' => Some (pos', caps')) with
      | Some (_, caps') => k pos s caps'
      | None => None
      end
  | Ahead false a =>
      match matcher a pos s caps (fun pos' _ caps' => Some (pos', caps')) with
      | Some _ => None
      | None => k pos s caps
      end
  | Bol => if Nat.eqb pos 0 then k pos s caps else None
  | Eol => match s with [] => k pos s caps | _ => None end
  end.

(** A match: [index], [m[0]] and the groups. *)
Record match_result := mkMatch {
  index : nat;
  whole : jsstring;
  groups : captures
}.

(** [m[i]], [None] when the group took no part in the match. *)
Definition group (m : match_result) (i : nat) : option jsstring :=
  capture (groups m) i.

Fixpoint search_from (r : re) (pos : nat) (s : jsstring) : option match_result :=
  match matcher r pos s [] (fun pos' _ caps => Some (pos', caps)) with
  | Some (e, caps) => Some (mkMatch pos (firstn (e - pos) s) caps)
  | None =>
      match s with
      | [] => None
      | _ :: s' => search_from r (S pos) s'
      end
  end.

(** [s.match(r)] for a pattern without the [g] flag. *)
Definition exec (r : re) (s : jsstring) : option match_result := search_from r 0 s.

(** [s.matchAll(r)] for a pattern with the [g] flag: the successive matches,
    an empty match advancing the index by one. *)
Fixpoint match_all_from (fuel : nat) (r : re) (pos : nat) (s : jsstring)
  : list match_result :=
  match fuel with
  | O => []
  | S f =>
      match search_from r pos s with
      | None => []
      | Some m =>
          let e := (index m + length (whole m))%nat in
          let after := skipn (e - pos) s in
          match whole m, after with
          | [], [] => [m]
          | [], _ :: after' => m :: match_all_from f r (S e) after'
          | _ :: _, _ => m :: match_all_from f r e after
          end
      end
  end.

Definition matchAll (r : re) (s : jsstring) : list match_result :=
  match_all_from (S (length s)) r 0 s.

(** *** Pattern syntax *)

Definition chr (c : code_unit) : re := Class (N.eqb c).

Definition to_lower (c : code_unit) : code_unit :=
  if (65 <=? c) && (c <=? 90) then c + 32 else c.

(** A pattern character under the [i] flag: an ASCII letter matches its
    two cases and nothing else. *)
Definition chr_i (c : code_unit) : re := Class (fun x => to_lower x =? to_lower c).

Fixpoint seq_of (rs : list re) : re :=
  match rs with
  | [] => Eps
  | [r] => r
  | r :: rest => Seq r (seq_of rest)
  end.

Definition str (s : string) : re := seq_of (map chr (lit s)).
Definition str_i (s : string) : re := seq_of (map chr_i (lit s)).

Definition plus (a : re) : re := Seq a (Star true a).
Definition opt (a : re) : re := Alt a Eps.
Definition star (a : re) : re := Star true a.
Definition lazy_star (a : re) : re := Star false a.

Definition digit : re := Class is_digit.                   (* \d *)
Definition space : re := Class is_space.                   (* \s *)
Definition any : re := Class (fun _ => true).               (* [\s\S] *)
Definition one_of (l : list code_unit) : re := Class (fun x => existsb (N.eqb x) l).
Definition none_of (l : list code_unit) : re :=
  Class (fun x => negb (existsb (N.eqb x) l)).
Definition digit_or_comma : re := Class (fun x => is_digit x || (x =? 44)).

End RegExp.

(* ================================================================== *)
(** * services/api.js: streamWatsonAnalysis *)
(* ================================================================== *)

Module Api.

(** What the read loop does to the outside, in order: the callbacks it calls
    and the two console lines of the line handler.  The four callbacks are
    those [triggerWatsonAnalysis] passes: all present, none of them throws. *)
Inductive event :=
| Connected (run_id : value)          (* console.log('Watson stream connected:', _) *)
| Status (status : value)             (* onStatus(parsed.status) *)
| Message (content : value)           (* onMessage(content) *)
| Done (thread_id : value)            (* onComplete(parsed.thread_id) *)
| Error (error : value)               (* onError(_) *)
| ParseErrorLogged (data : jsstring). (* console.error('Error parsing SSE data:', e, data) *)

(** [v === 'literal'] *)
Definition is_string (v : value) (s : jsstring) : bool :=
  match v with
  | VStr t => str_eqb t s
  | _ => false
  end.

(** The [message] branch: the content is parsed and pretty-printed when it
    is JSON, and used as it is when [JSON.parse] throws (also when the
    conversion of its argument to a string throws). *)
Definition message_content (content : value) : value :=
  match ToString content with
  | None => content
  | Some text =>
      match JSON_parse text with
      | Some contentObj => JSON_stringify2 contentObj
      | None => content
      end
  end.

(** The body of the outer [try] for one parsed payload.  Reading [type] of
    [null] throws, and the [catch] logs it like a parse failure. *)
Definition dispatch (data : jsstring) (parsed : value) : list event :=
  match get parsed $"type" with
  | None => [ParseErrorLogged data]
  | Some type =>
      if is_string type $"connected" then [Connected (prop parsed $"run_id")]
      else if is_string type $"status" then [Status (prop parsed $"status")]
      else if is_string type $"message" then
        [Message (message_content (prop parsed $"content"))]
      else if is_string type $"done" then [Done (prop parsed $"thread_id")]
      else if is_string type $"error" then [Error (prop parsed $"error")]
      else []
  end.

(** The body of [for (const line of lines)]. *)
Definition process_line (line : jsstring) : list event :=
  if startsWith line $"data: " then
    let data := trim (slice 6 line) in
    match data with
    | [] => []                                     (* continue *)
    | _ =>
        match JSON_parse data with
        | Some parsed => dispatch data parsed
        | None => [ParseErrorLogged data]
        end
    end
  else [].

Record reader := mkReader {
  decoder : Utf8.state;
  buffer : jsstring
}.

Definition start : reader := mkReader Utf8.init [].

(** One turn of [while (true)] with [done] false: the fragment [value] is
    decoded and appended, the buffer is split, the last piece stays in the
    buffer and the others are handled in order. *)
Definition on_read (st : reader) (value : list byte) : reader * list event :=
  let (d, text) := Utf8.decode (decoder st) value in
  let buf := buffer st ++ text in
  let lines := split_nl buf in
  (mkReader d (last lines []), flat_map process_line (removelast lines)).

(** The loop over the fragments [reader.read()] delivers before [done]. *)
Fixpoint read_loop (st : reader) (reads : list (list byte)) : list event :=
  match reads with
  | [] => []
  | value :: rest =>
      let (st', out) := on_read st value in
      out ++ read_loop st' rest
  end.

(** How the body ends: [done], a rejected read, or an abort. *)
Inductive ending :=
| Closed
| Failed (message : jsstring)
| Aborted.

Record response := mkResponse {
  ok : bool;
  status : N;
  reads : list (list byte);
  closing : ending
}.

(** [streamRequest]: everything the request does once [fetch] resolved. *)
Definition streamRequest (r : response) : list event :=
  if ok r then
    read_loop start (reads r) ++
    match closing r with
    | Closed => []
    | Failed message => [Error (VStr message)]
    | Aborted => []                               (* console.log('Stream aborted') *)
    end
  else [Error (VStr ($"HTTP error! status: " ++ N_digits (status r)))].

(** The events of a body that arrives in the fragments [reads] and closes. *)
Definition decode_stream (reads : list (list byte)) : list event :=
  read_loop start reads.

(** The text the decoder has produced once the bytes [bytes] have arrived,
    however they were cut. *)
Definition decoded_text (bytes : list byte) : jsstring :=
  snd (Utf8.decode Utf8.init bytes).

(** The complete lines of a text, and the unfinished piece after the last
    line feed. *)
Definition complete_lines (text : jsstring) : list jsstring :=
  removelast (split_nl text).

Definition pending (text : jsstring) : jsstring := last (split_nl text) [].

(** The events of the complete lines of a text. *)
Definition events_of_text (text : jsstring) : list event :=
  flat_map process_line (complete_lines text).

(** A text that ends at a line boundary. *)
Definition at_line_boundary (text : jsstring) : Prop :=
  text = [] \/ exists t, text = t ++ [10].

(** *** The controller

    Every call of [streamWatsonAnalysis] creates an [AbortController] and
    starts [streamRequest]; the function it returns aborts that controller.
    The streams created so far are kept in a list, a cleanup function is
    the index of its stream. *)

Record stream := mkStream {
  message : jsstring;          (* the request body *)
  aborted : bool;              (* controller.abort() was called *)
  ended : bool                 (* reader.read() reported done, or failed *)
}.

Definition cleanup := nat.

Definition update_stream (f : stream -> stream) (k : nat) (streams : list stream)
  : list stream :=
  map (fun p => if Nat.eqb (fst p) k then f (snd p) else snd p)
      (combine (seq 0 (length streams)) streams).

(** Calling the cleanup function: [controller.abort()]. *)
Definition abort (k : cleanup) (streams : list stream) : list stream :=
  update_stream (fun s => mkStream (message s) true (ended s)) k streams.

(** The body of stream [k] ends. *)
Definition close (k : nat) (streams : list stream) : list stream :=
  update_stream (fun s => mkStream (message s) (aborted s) true) k streams.

(** [streamWatsonAnalysis(message, ...)]: a new controller with its request
    running, and the cleanup function as the result. *)
Definition streamWatsonAnalysis (msg : jsstring) (streams : list stream)
  : list stream * cleanup :=
  (streams ++ [mkStream msg false false], length streams).

(** The callback invocations among the events. *)
Definition is_callback (e : event) : bool :=
  match e with
  | Status _ | Message _ | Done _ | Error _ => true
  | Connected _ | ParseErrorLogged _ => false
  end.

(** The five stream events of the wire format. *)
Definition is_stream_event (e : event) : bool :=
  match e with
  | ParseErrorLogged _ => false
  | _ => true
  end.

(** *** The listing requests

    What an [axios] request settles with: the parsed body of the response,
    or an error with its [message]. *)
Inductive settled :=
| Fulfilled (data : value)
| Failed_with (message : value).

(** What a function throws: an error with a message of the caller's, or
    the TypeError of the engine (its text is the engine's own). *)
Inductive thrown :=
| Thrown (message : value)
| TypeError.

(** [getProperties(params)] once the request settled: the [properties] of
    the body, or the empty array; an error is logged and thrown again. *)
Definition getProperties (response : settled) : value + thrown :=
  match response with
  | Fulfilled data =>
      match get data $"properties" with
      | Some properties => inl (or_else properties (VArr []))
      | None => inr TypeError
      end
  | Failed_with message => inr (Thrown message)
  end.

(** [getPropertyById(id)]: the body as it is. *)
Definition getPropertyById (response : settled) : value + thrown :=
  match response with
  | Fulfilled data => inl data
  | Failed_with message => inr (Thrown message)
  end.

End Api.

(* ================================================================== *)
(** * pages/PropertyDetail.jsx: the message callback *)
(* ================================================================== *)

Module PropertyDetail.

(** What one call of the message callback does to [watsonResponse]. *)
Inductive action :=
| Replace (message : jsstring)   (* setWatsonResponse(message); return *)
| Ignore                         (* partial data: return *)
| Append (message : jsstring).   (* setWatsonResponse(prev => ...) *)

(** The callback up to its state update.  [JSON.parse] throwing, and
    reading [scores] of a parsed [null], both land in the [catch] and fall
    through to the append. *)
Definition onMessage_action (message : jsstring) : action :=
  match JSON_parse message with
  | None => Append message
  | Some parsed =>
      match get parsed $"scores" with
      | None => Append message
      | Some scores =>
          if truthy scores &&
             (negb (is_undefined (prop scores $"overall_transparency_grade"))
              || negb (is_undefined (prop scores $"overall_grade")))
          then Replace message
          else if truthy (prop parsed $"property") || truthy scores then Ignore
          else Append message
      end
  end.

(** The updater [(prev) => prev.includes(message) ? prev : prev + message]. *)
Definition appendIncremental (prev message : jsstring) : jsstring :=
  if includes prev message then prev else prev ++ message.

(** The draft [watsonResponse] after one message. *)
Definition onMessage (prev message : jsstring) : jsstring :=
  match onMessage_action message with
  | Replace m => m
  | Ignore => prev
  | Append m => appendIncremental prev m
  end.

(** The draft after the messages of one request, starting from the
    [setWatsonResponse('')] of [triggerWatsonAnalysis]. *)
Definition draft_after (messages : list jsstring) : jsstring :=
  fold_left onMessage messages [].

(** The three classes of the chunk classifier. *)
Inductive chunk_class := Final | Partial | Incremental.

Definition classify (message : jsstring) : chunk_class :=
  match onMessage_action message with
  | Replace _ => Final
  | Ignore => Partial
  | Append _ => Incremental
  end.

(** ** The streams of one property view *)

Record view := mkView {
  mounted : bool;
  streams : list Api.stream        (* in order of creation *)
}.

(** [triggerWatsonAnalysis(address)] returns the cleanup function; [None]
    when the template literal throws. *)
Definition triggerWatsonAnalysis (address : value) (v : view)
  : option (view * Api.cleanup) :=
  match ToString address with
  | Some text =>
      let (streams', cleanup) :=
        Api.streamWatsonAnalysis ($"Analyze property at " ++ text) (streams v) in
      Some (mkView (mounted v) streams', cleanup)
  | None => None
  end.

(** [fetchProperty] after [getPropertyById] resolved with [data]: the result
    of [triggerWatsonAnalysis] is dropped (an exception goes to the [catch],
    which only sets the error text). *)
Definition fetchProperty_loaded (data : value) (v : view) : view :=
  if truthy data && truthy (opt_get data $"address")
  then match triggerWatsonAnalysis (prop data $"address") v with
       | Some (v', _) => v'
       | None => v
       end
  else v.

(** What happens to the view.  The effect [() => { fetchProperty(); }] has
    no return value, so React has no cleanup to run when [id] changes or
    when the component unmounts. *)
Inductive view_event :=
| PropertyLoaded (data : value)   (* the fetch of the effect resolved *)
| RouteChanged                    (* [id] changed: the effect runs again *)
| Unmounted                       (* navigating away *)
| StreamEnded (k : nat).          (* the body of stream [k] closed *)

Definition view_step (v : view) (e : view_event) : view :=
  match e with
  | PropertyLoaded data => fetchProperty_loaded data v
  | RouteChanged => v
  | Unmounted => mkView false (streams v)
  | StreamEnded k => mkView (mounted v) (Api.close k (streams v))
  end.

Definition initial_view : view := mkView true [].

Definition run_view (events : list view_event) : view :=
  fold_left view_step events initial_view.

(** The read loops still running. *)
Definition running (v : view) : list Api.stream :=
  filter (fun s => negb (Api.aborted s) && negb (Api.ended s)) (streams v).

End PropertyDetail.

(* ================================================================== *)
(** * components/ScoreCard.jsx: parseReport *)
(* ================================================================== *)

Module ScoreCard.
Import RegExp.

(** The length of the longest prefix of hexadecimal digits. *)
Fixpoint span_hex (s : jsstring) : nat :=
  match s with
  | c :: s' =>
      match hex_value c with
      | Some _ => S (span_hex s')
      | None => O
      end
  | [] => O
  end.

Definition hex_digits_value (ds : jsstring) : N :=
  fold_left (fun acc d => 16 * acc + match hex_value d with Some x => x | None => 0 end)
            ds 0.

(** [parseInt(s)]: leading white space, a sign, a [0x] prefix, then the
    longest run of digits; [NaN] without digits. *)
Definition parseInt (s : jsstring) : number :=
  let (neg, s2) := eat_sign true (trimStart s) in
  let decimal :=
    match fst (span_digits s2) with
    | [] => NaN
    | ds => mk_number neg ds 0
    end in
  match s2 with
  | z :: x :: r =>
      if (z =? 48) && ((x =? 120) || (x =? 88)) then
        match span_hex r with
        | O => NaN
        | n => mk_number neg (N_digits (hex_digits_value (firstn n r))) 0
        end
      else decimal
  | _ => decimal
  end.

(** [parseFloat(s)]: leading white space, a sign, then the longest prefix
    that is a decimal literal, [Infinity] being one; [NaN] without one. *)
Definition parseFloat (s : jsstring) : number :=
  let (neg, s2) := eat_sign true (trimStart s) in
  if startsWith s2 $"Infinity" then Infinity neg
  else
    let (int, r1) := span_digits s2 in
    let (frac, r2) := match eat 46 r1 with
                      | Some r => span_digits r
                      | None => ([], r1)
                      end in
    match int ++ frac with
    | [] => NaN
    | ds =>
        let ex :=
          match parse_exponent r2 with
          | Some (x, _) => x
          | None => 0%Z
          end in
        mk_number neg ds (ex - Z.of_nat (length frac))
    end.

(** *** The patterns, in the order of the source *)

Definition stars : re := Seq (opt (chr 42)) (opt (chr 42)).            (* \*?\*? *)
Definition dash : re := one_of [45; 8211].                             (* [-–] *)

(** [/```json\n([\s\S]*?)\n```/] *)
Definition re_fence : re :=
  seq_of [str "```json"; chr 10; Group 1 (lazy_star any); chr 10; str "```"].

(** [/Overall Grade:\s*\*?\*?(\d+(?:\.\d+)?)\%/i] *)
Definition re_overall : re :=
  seq_of [str_i "Overall Grade:"; star space; stars;
          Group 1 (Seq (plus digit) (opt (Seq (chr 46) (plus digit)))); chr 37].

(** [/Quality Score:\s*\*?\*?(\d+)\/100/i] *)
Definition re_quality : re :=
  seq_of [str_i "Quality Score:"; star space; stars; Group 1 (plus digit); str "/100"].

(** [/Financial Score:\s*\*?\*?(\d+)\/100/i] *)
Definition re_financial : re :=
  seq_of [str_i "Financial Score:"; star space; stars; Group 1 (plus digit); str "/100"].

(** [/City Market Value:\s*\*?\*?\$?([\d,]+)/i] *)
Definition re_market_value : re :=
  seq_of [str_i "City Market Value:"; star space; stars; opt (chr 36);
          Group 1 (plus digit_or_comma)].

(** [/(?:Est\.|Estimated) Annual Tax:\s*\*?\*?\$?([\d,]+)/i] *)
Definition re_tax : re :=
  seq_of [Alt (str_i "Est.") (str_i "Estimated"); str_i " Annual Tax:"; star space;
          stars; opt (chr 36); Group 1 (plus digit_or_comma)].

(** The lookahead [(?=###|\*\*Final|$)] that closes a section. *)
Definition section_end : re :=
  Ahead true (Alt (str "###") (Alt (str_i "**Final") Eol)).

(** [/### 1\. Building Quality Audit[\s\S]*?(?=###|\*\*Final|$)/i] *)
Definition re_quality_section : re :=
  seq_of [str_i "### 1. Building Quality Audit"; lazy_star any; section_end].

(** [/[-–]\s*([^\n(]+)(?:\s*\(([^)]+)\))?/g] *)
Definition re_issue : re :=
  seq_of [dash; star space; Group 1 (plus (none_of [10; 40]));
          opt (seq_of [star space; chr 40; Group 2 (plus (none_of [41])); chr 41])].

(** [/Scout's Note:\*?\*?\s*( [^\n]+ (?: \n(?![-–\*#])[^\n]+ )* )/i], the group
    spaced out here for legibility. *)
Definition re_scout : re :=
  seq_of [str_i "Scout's Note:"; stars; star space;
          Group 1 (Seq (plus (none_of [10]))
                       (star (seq_of [chr 10; Ahead false (one_of [45; 8211; 42; 35]);
                                      plus (none_of [10])])))].

(** [/### 2\. Financial & Tax Audit[\s\S]*?(?=###|\*\*Final|$)/i] *)
Definition re_financial_section : re :=
  seq_of [str_i "### 2. Financial & Tax Audit"; lazy_star any; section_end].

(** [/[-–]\s*([^\n]+)/g] *)
Definition re_risk : re :=
  seq_of [dash; star space; Group 1 (plus (none_of [10]))].

(** [/^\d+/] *)
Definition re_leading_digits : re := Seq Bol (plus digit).

(** [/\*\*Final Recommendation:\*\*\s*\*?\*?([^–\-\n]+)(?:[–\-]\s*([^\n]+))?/i] *)
Definition re_recommendation : re :=
  seq_of [str_i "**Final Recommendation:**"; star space; stars;
          Group 1 (plus (none_of [8211; 45; 10]));
          opt (seq_of [dash; star space; Group 2 (plus (none_of [10]))])].

(** *** Object updates *)

Definition props_of (o : value) : list (jsstring * value) :=
  match o with
  | VObj ps => ps
  | _ => []
  end.

(** [o.k = v] *)
Definition assign (o : value) (k : jsstring) (v : value) : value :=
  VObj (obj_set (props_of o) k v).

(** [o.k1.k2 = v] *)
Definition assign_in (o : value) (k1 k2 : jsstring) (v : value) : value :=
  assign o k1 (assign (prop o k1) k2 v).

(** [o.k1.k2.push(v)] *)
Definition push_in (o : value) (k1 k2 : jsstring) (v : value) : value :=
  match prop (prop o k1) k2 with
  | VArr l => assign_in o k1 k2 (VArr (l ++ [v]))
  | _ => o
  end.

Definition group_text (m : match_result) (i : nat) : jsstring :=
  match group m i with
  | Some t => t
  | None => []
  end.

(** *** The three stages of parseReport *)

(** The [scores] of the normalized report: each score under its canonical
    key, taken from the first alias that is neither [undefined] nor [null]. *)
Definition normalize_scores (parsed scores : value) : value :=
  let financial_audit := prop parsed $"financial_audit" in
  let financialScore :=
    nullish (prop scores $"financial_score")
      (nullish (prop scores $"financial")
         (nullish (opt_get financial_audit $"score")
            (opt_get financial_audit $"financial_score"))) in
  VObj [($"overall",
         nullish (prop scores $"overall_transparency_grade")
           (nullish (prop scores $"overall_grade") (prop scores $"overall")));
        ($"quality", nullish (prop scores $"quality_score") (prop scores $"quality"));
        ($"financial", financialScore)].

(** [overall !== undefined || quality !== undefined || financial !== undefined] *)
Definition has_score_value (normalized_scores : value) : bool :=
  negb (is_undefined (prop normalized_scores $"overall"))
  || negb (is_undefined (prop normalized_scores $"quality"))
  || negb (is_undefined (prop normalized_scores $"financial")).

(** The inner [try]: the whole response as JSON.  [Some r] is a [return r];
    [None] is the [catch] ([JSON.parse] threw, or [scores] was read of a
    parsed [null]), after which the markdown stage runs. *)
Definition bare_json (response : jsstring) : option value :=
  match JSON_parse response with
  | None => None
  | Some parsed =>
      match get parsed $"scores" with
      | None => None
      | Some scores =>
          if truthy scores && has_score_value (normalize_scores parsed scores)
          then Some (VObj (obj_set (spread parsed) $"scores"
                             (normalize_scores parsed scores)))
          else if truthy (prop parsed $"property") && negb (truthy scores)
          then Some VNull
          else Some (VObj (obj_set (spread parsed) $"full_text" (VStr response)))
      end
  end.

Definition empty_report : value :=
  VObj [($"property", VObj []);
        ($"scores", VObj []);
        ($"quality_audit", VObj [($"recent_issues", VArr [])]);
        ($"financial_audit", VObj [($"risk_factors", VArr [])]);
        ($"recommendation", VObj [])].

Definition with_match (r : re) (s : jsstring) (f : match_result -> value -> value)
  (report : value) : value :=
  match exec r s with
  | Some m => f m report
  | None => report
  end.

(** The markdown stage: label by label, then the full text. *)
Definition markdown (response : jsstring) : value :=
  let report := empty_report in
  let report :=
    with_match re_overall response
      (fun m rep => assign_in rep $"scores" $"overall" (VNum (parseFloat (group_text m 1))))
      report in
  let report :=
    with_match re_quality response
      (fun m rep =>
         let n := VNum (parseInt (group_text m 1)) in
         assign_in (assign_in rep $"scores" $"quality" n) $"quality_audit" $"score" n)
      report in
  let report :=
    with_match re_financial response
      (fun m rep =>
         let n := VNum (parseInt (group_text m 1)) in
         assign_in (assign_in rep $"scores" $"financial" n) $"financial_audit" $"score" n)
      report in
  let report :=
    with_match re_market_value response
      (fun m rep =>
         assign_in rep $"financial_audit" $"city_market_value"
           (VNum (parseInt (remove_commas (group_text m 1)))))
      report in
  let report :=
    with_match re_tax response
      (fun m rep =>
         assign_in rep $"financial_audit" $"annual_tax"
           (VNum (parseInt (remove_commas (group_text m 1)))))
      report in
  let report :=
    with_match re_quality_section response
      (fun section rep =>
         let rep :=
           fold_left
             (fun rep m =>
                push_in rep $"quality_audit" $"recent_issues"
                  (VObj [($"type", VStr (trim (group_text m 1)));
                         ($"details", or_else (match group m 2 with
                                               | Some t => VStr t
                                               | None => VUndefined
                                               end) (VStr []))]))
             (matchAll re_issue (whole section)) rep in
         with_match re_scout (whole section)
           (fun m rep => assign_in rep $"quality_audit" $"scouts_note"
                           (VStr (trim (group_text m 1))))
           rep)
      report in
  let report :=
    with_match re_financial_section response
      (fun section rep =>
         fold_left
           (fun rep m =>
              let risk := trim (group_text m 1) in
              match risk, exec re_leading_digits risk with
              | _ :: _, None => push_in rep $"financial_audit" $"risk_factors" (VStr risk)
              | _, _ => rep
              end)
           (matchAll re_risk (whole section)) rep)
      report in
  let report :=
    with_match re_recommendation response
      (fun m rep =>
         assign_in
           (assign_in rep $"recommendation" $"level" (VStr (trim (group_text m 1))))
           $"recommendation" $"reason"
           (or_else (match group m 2 with
                     | Some t => VStr (trim t)
                     | None => VUndefined
                     end) (VStr [])))
      report in
  assign report $"full_text" (VStr response).

(** [parseReport(response)] for a string [response]. *)
Definition parseReport (response : jsstring) : value :=
  match response with
  | [] => VNull                                        (* if (!response) return null *)
  | _ =>
      match exec re_fence response with
      | Some jsonMatch =>
          match JSON_parse (group_text jsonMatch 1) with
          | Some report => report
          | None => VObj [($"full_text", VStr response)]      (* the outer catch *)
          end
      | None =>
          match bare_json response with
          | Some result => result
          | None => markdown response
          end
      end
  end.

End ScoreCard.


(* ================================================================== *)
(** * context/PropertyContext.jsx: the listing and its pages *)
(* ================================================================== *)

Module PropertyContext.

(** The [filters] state.  [skip] and [limit] start as the numbers 0 and 20
    and are only added, subtracted and compared.  They are modelled as
    integers, with exact sums and differences: this is what the code
    computes in binary64 as long as the integers and their sums stay within
    [2^53] in absolute value, and the model stands for the code on these
    states only.  The four filters are whatever the caller passes. *)
Record filters := mkFilters {
  skip : Z;
  limit : Z;
  minPrice : value;
  maxPrice : value;
  beds : value;
  borough : value
}.

(** An object literal with some of the keys of [filters]: the argument
    [newFilters]. *)
Record patch := mkPatch {
  new_skip : option Z;
  new_limit : option Z;
  new_minPrice : option value;
  new_maxPrice : option value;
  new_beds : option value;
  new_borough : option value
}.

Definition override {A : Type} (old : A) (new : option A) : A :=
  match new with
  | Some x => x
  | None => old
  end.

(** [{ ...f, ...p }] *)
Definition merge (f : filters) (p : patch) : filters :=
  mkFilters (override (skip f) (new_skip p)) (override (limit f) (new_limit p))
            (override (minPrice f) (new_minPrice p))
            (override (maxPrice f) (new_maxPrice p))
            (override (beds f) (new_beds p))
            (override (borough f) (new_borough p)).

(** [{}], the default argument of [fetchProperties]. *)
Definition no_change : patch := mkPatch None None None None None None.

(** [{ skip: n }] *)
Definition only_skip (n : Z) : patch := mkPatch (Some n) None None None None None.

(** An object with all the keys. *)
Definition all_of (f : filters) : patch :=
  mkPatch (Some (skip f)) (Some (limit f)) (Some (minPrice f)) (Some (maxPrice f))
          (Some (beds f)) (Some (borough f)).

Definition defaultFilters : filters := mkFilters 0 20 VNull VNull VNull VNull.

(** The [error] state: a message, or the text of the engine's TypeError. *)
Inductive error_text :=
| Message (text : value)
| EngineMessage.

Record state := mkState {
  properties : value;
  loading : bool;
  error : option error_text;
  current : filters;                 (* the [filters] state *)
  in_flight : list filters           (* [queryParams] of the requests not yet settled *)
}.

Definition initial : state := mkState (VArr []) false None defaultFilters [].

(** [fetchProperties(newFilters)] up to its [await]. *)
Definition fetchProperties (newFilters : patch) (st : state) : state :=
  mkState (properties st) true None (current st)
          (in_flight st ++ [merge (current st) newFilters]).

Definition is_array (v : value) : bool :=
  match v with
  | VArr _ => true
  | _ => false
  end.

(** [fetchProperties] after its [await], for the request that asked for
    [queryParams]. *)
Definition settle (queryParams : filters) (response : Api.settled) (st : state)
  : state :=
  match Api.getProperties response with
  | inl data =>
      mkState (if is_array data then data else VArr []) false (error st)
              queryParams (in_flight st)
  | inr (Api.Thrown message) =>
      mkState (VArr []) false
              (Some (Message (or_else message (VStr $"Failed to fetch properties"))))
              (current st) (in_flight st)
  | inr Api.TypeError =>
      mkState (VArr []) false (Some EngineMessage) (current st) (in_flight st)
  end.

(** [updateFilters(newFilters)] *)
Definition updateFilters (newFilters : patch) (st : state) : state :=
  let f := merge (current st) newFilters in
  fetchProperties
    (all_of (mkFilters 0 (limit f) (minPrice f) (maxPrice f) (beds f) (borough f)))
    st.

Definition nextPage (st : state) : state :=
  fetchProperties (only_skip (skip (current st) + limit (current st))) st.

Definition prevPage (st : state) : state :=
  if (0 <? skip (current st))%Z
  then fetchProperties
         (only_skip (Z.max 0 (skip (current st) - limit (current st)))) st
  else st.

Definition resetFilters (st : state) : state :=
  fetchProperties (all_of defaultFilters) st.

(** What happens to the provider: the calls of its functions, and the
    requests settling, in any order. *)
Inductive event :=
| Mounted                                   (* the effect: fetchProperties() *)
| FetchProperties (newFilters : patch)
| UpdateFilters (newFilters : patch)
| NextPage
| PrevPage
| ResetFilters
| Settled (k : nat) (response : Api.settled).   (* the [k]-th request in flight *)

Definition remove_nth {A : Type} (k : nat) (l : list A) : list A :=
  firstn k l ++ skipn (S k) l.

Definition step (st : state) (e : event) : state :=
  match e with
  | Mounted => fetchProperties no_change st
  | FetchProperties p => fetchProperties p st
  | UpdateFilters p => updateFilters p st
  | NextPage => nextPage st
  | PrevPage => prevPage st
  | ResetFilters => resetFilters st
  | Settled k response =>
      match nth_error (in_flight st) k with
      | Some queryParams =>
          settle queryParams response
            (mkState (properties st) (loading st) (error st) (current st)
                     (remove_nth k (in_flight st)))
      | None => st
      end
  end.

Definition run (events : list event) : state := fold_left step events initial.

(** The derived values of the context.  [currentPage] is
    [Math.floor(skip / limit) + 1]: [None] stands for the division by zero. *)
Definition currentPage (st : state) : option Z :=
  if (limit (current st) =? 0)%Z then None
  else Some (skip (current st) / limit (current st) + 1)%Z.

Definition hasNextPage (st : state) : bool :=
  match properties st with
  | VArr l => (Z.of_nat (length l) =? limit (current st))%Z
  | _ => false
  end.

Definition hasPrevPage (st : state) : bool := (0 <? skip (current st))%Z.

End PropertyContext.

(* ================================================================== *)
(** * pages/PropertyList.jsx: the filter form *)
(* ================================================================== *)

Module PropertyList.

(** [localFilters]: the text of the four inputs. *)
Record localFilters := mkLocal {
  minPrice : jsstring;
  maxPrice : jsstring;
  beds : jsstring;
  borough : jsstring
}.

(** [text ? parseInt(text) : null] *)
Definition number_or_null (text : jsstring) : value :=
  match text with
  | [] => VNull
  | _ => VNum (ScoreCard.parseInt text)
  end.

(** The argument [applyFilters] passes to [updateFilters]. *)
Definition applied (l : localFilters) : PropertyContext.patch :=
  PropertyContext.mkPatch None None
    (Some (number_or_null (minPrice l)))
    (Some (number_or_null (maxPrice l)))
    (Some (number_or_null (beds l)))
    (Some (match borough l with [] => VNull | text => VStr text end)).

(** What the page does with the context. *)
Inductive action :=
| ApplyFilters (l : localFilters)
| Next
| Previous
| HandleReset.

Definition event_of (a : action) : PropertyContext.event :=
  match a with
  | ApplyFilters l => PropertyContext.UpdateFilters (applied l)
  | Next => PropertyContext.NextPage
  | Previous => PropertyContext.PrevPage
  | HandleReset => PropertyContext.ResetFilters
  end.

End PropertyList.

(* ================================================================== *)
(** * components/WatsonChat.jsx: sendMessage *)
(* ================================================================== *)

Module WatsonChat.
Import RegExp.

Definition is_line_terminator (c : code_unit) : bool :=
  (c =? 10) || (c =? 13) || (c =? 8232) || (c =? 8233).

(** [/^\s*[\{\}]\s*$/gm] between its two anchors.  With the [m] flag the
    closing anchor holds at the end of the input and before a line
    terminator: the lookahead here; the opening anchor holds at the start
    and after a line terminator: the flag [line_start] below. *)
Definition re_stray_brace : re :=
  seq_of [star space; one_of [123; 125]; star space;
          Ahead true (Alt Eol (Class is_line_terminator))].

(** [s.replace(/^\s*[\{\}]\s*$/gm, '')]: from left to right, a match is
    left out and the search goes on behind it; elsewhere one code unit is
    kept. *)
Fixpoint remove_stray_braces (fuel : nat) (line_start : bool) (s : jsstring)
  : jsstring :=
  match fuel with
  | O => s
  | S f =>
      match (if line_start
             then matcher re_stray_brace 0 s [] (fun e _ caps => Some (e, caps))
             else None) with
      | Some (S e, _) =>
          remove_stray_braces f (is_line_terminator (nth e s 0)) (skipn (S e) s)
      | _ =>
          match s with
          | [] => []
          | c :: s' => c :: remove_stray_braces f (is_line_terminator c) s'
          end
      end
  end.

(** [content.replace(/^\s*[\{\}]\s*$/gm, '').trim()] *)
Definition clean (content : jsstring) : jsstring :=
  trim (remove_stray_braces (S (length content)) true content).

Inductive role := User | Assistant.

Record message := mkMessage {
  sender : role;                 (* the [role] field *)
  content : jsstring
}.

(** What one message event adds to the reply. *)
Inductive outcome :=
| Skip                           (* continue, or an exception the outer catch ignores *)
| Add (text : jsstring).         (* assistantMessage += content *)

(** The first four characters of the summary, as the source file has them. *)
Definition chart_icon : jsstring := [240; 376; 8220; 352].

(** The template literal of the summary; [None] when a substitution throws. *)
Definition summary (scores : value) : option jsstring :=
  match ToString (or_else (prop scores $"overall_transparency_grade")
                          (prop scores $"overall_grade")),
        ToString (prop scores $"quality_score"),
        ToString (prop scores $"financial_score") with
  | Some overall, Some quality, Some financial =>
      Some (chart_icon ++ $" Analysis updated: Overall " ++ overall
            ++ $"%, Quality " ++ quality ++ $"%, Financial " ++ financial ++ $"%")
  | _, _, _ => None
  end.

(** The inner [catch]: the content without stray braces.  A content that is
    not a string has no [replace]: the TypeError goes to the outer [catch]. *)
Definition cleaned (content : value) : outcome :=
  match content with
  | VStr text =>
      match clean text with
      | [] => Skip
      | t => Add t
      end
  | _ => Skip
  end.

(** The [message] branch for the value of [parsed.content]. *)
Definition message_outcome (content : value) : outcome :=
  match ToString content with
  | None => cleaned content
  | Some text =>
      match JSON_parse text with
      | None => cleaned content
      | Some jsonContent =>
          match get jsonContent $"scores" with
          | None => cleaned content
          | Some scores =>
              if truthy scores then
                match summary scores with
                | Some t => Add t
                | None => cleaned content
                end
              else if truthy (prop jsonContent $"property") then Skip
              else Add text
          end
      end
  end.

(** The updater of [setMessages]: the last message takes the reply when it
    is the assistant's, otherwise a new message is pushed. *)
Definition set_reply (reply : jsstring) (messages : list message) : list message :=
  match rev messages with
  | last :: before =>
      match sender last with
      | Assistant => rev before ++ [mkMessage Assistant reply]
      | User => messages ++ [mkMessage Assistant reply]
      end
  | [] => [mkMessage Assistant reply]
  end.

(** The state of one [sendMessage]: the reply so far, the message list (as
    it is once the updaters queued so far have run) and the calls of
    [onThreadId]. *)
Record chat := mkChat {
  assistantMessage : jsstring;
  messages : list message;
  thread_ids : list value
}.

(** The body of [for (const line of lines)]. *)
Definition on_line (st : chat) (line : jsstring) : chat :=
  if startsWith line $"data: " then
    let data := slice 6 line in
    if str_eqb data $"[DONE]" then st
    else
      match JSON_parse data with
      | None => st
      | Some parsed =>
          match get parsed $"type" with
          | None => st
          | Some type =>
              if Api.is_string type $"thread_id" then
                mkChat (assistantMessage st) (messages st)
                       (thread_ids st ++ [prop parsed $"thread_id"])
              else if Api.is_string type $"message" then
                match message_outcome (prop parsed $"content") with
                | Skip => st
                | Add text =>
                    let reply := assistantMessage st ++ text in
                    mkChat reply (set_reply reply (messages st)) (thread_ids st)
                end
              else st
          end
      end
  else st.

(** One turn of [while (true)]: the decoded chunk is split and every piece
    is handled; nothing is kept for the next turn. *)
Definition on_read (st : Utf8.state * chat) (value : list byte)
  : Utf8.state * chat :=
  let (d, chunk) := Utf8.decode (fst st) value in
  (d, fold_left on_line (split_nl chunk) (snd st)).

Definition read_loop (st : Utf8.state * chat) (reads : list (list byte))
  : Utf8.state * chat :=
  fold_left on_read reads st.

(** [sendMessage] up to its [fetch]: nothing happens for an empty input or
    while a reply is loading; otherwise the trimmed input is pushed. *)
Definition ask (input : jsstring) (isLoading : bool) (messages : list message)
  : option (list message) :=
  match trim input with
  | [] => None
  | userMessage =>
      if isLoading then None
      else Some (messages ++ [mkMessage User userMessage])
  end.

(** The loop of [sendMessage] over the reads of the body. *)
Definition reply_to (messages : list message) (reads : list (list byte)) : chat :=
  snd (read_loop (Utf8.init, mkChat [] messages []) reads).

(** The end of [sendMessage].  When [fetch] or a read throws, the outer
    [catch] pushes the apology. *)
Definition finish (threw : bool) (st : chat) : list message :=
  if threw
  then messages st
       ++ [mkMessage Assistant $"Sorry, I encountered an error. Please try again."]
  else messages st.

(** [sendMessage] as a whole, for the reads the body delivers; [threw]
    tells whether [fetch] or a read threw after them. *)
Definition sendMessage (input : jsstring) (isLoading : bool)
  (messages : list message) (reads : list (list byte)) (threw : bool)
  : list message :=
  match ask input isLoading messages with
  | None => messages
  | Some asked => finish threw (reply_to asked reads)
  end.

(** *** [renderMarkdown] *)

(** [.] without the [s] flag: any code unit but a line terminator. *)
Definition dot : re := Class (fun c => negb (is_line_terminator c)).

(** [/\*\*(.+?)\*\*/] *)
Definition re_bold : re :=
  seq_of [chr 42; chr 42; Group 1 (Seq dot (lazy_star dot)); chr 42; chr 42].

(** The elements pushed to [parts]: a [span], or a [strong] with
    [boldMatch[1]] ([None]: undefined). *)
Inductive part :=
| Span (text : jsstring)
| Strong (text : option jsstring).

(** The [while (remaining.length > 0)] loop.  A turn with a match goes on
    behind the match; a turn without one pushes the rest and breaks. *)
Fixpoint inline (fuel : nat) (remaining : jsstring) : list part :=
  match fuel with
  | O => []
  | S f =>
      match remaining with
      | [] => []
      | _ :: _ =>
          match exec re_bold remaining with
          | Some boldMatch =>
              let beforeBold := firstn (index boldMatch) remaining in
              (match beforeBold with [] => [] | _ :: _ => [Span beforeBold] end)
              ++ Strong (group boldMatch 1)
                 :: inline f (slice (index boldMatch + length (whole boldMatch))
                                    remaining)
          | None => [Span remaining]
          end
      end
  end.

Definition isBullet (line : jsstring) : bool := startsWith (trim line) $"- ".

(** [content]: a bullet loses the white space around it and its marker. *)
Definition line_content (line : jsstring) : jsstring :=
  if isBullet line then slice 2 (trim line) else line.

(** What [lines.map] returns for a line: the bullet row, or the [div] with
    the parts, which holds one space when there are none. *)
Inductive row :=
| Bullet (parts : list part)
| Plain (parts : list part)
| Blank.

Definition render_line (line : jsstring) : row :=
  let content := line_content line in
  let parts := inline (length content) content in
  if isBullet line then Bullet parts
  else match parts with [] => Blank | _ :: _ => Plain parts end.

(** [renderMarkdown(text)]; [None] is [null]. *)
Definition renderMarkdown (text : jsstring) : option (list row) :=
  match text with
  | [] => None
  | _ :: _ => Some (map render_line (split_nl text))
  end.

End WatsonChat.
(* ================================================================== *)
(** * Vocabulary of the statements *)
(* ================================================================== *)

(** Predicates the properties are stated with, and the sample inputs they
    are evaluated on. *)

Unset Implicit Arguments.

(** A text without line feed. *)
Definition nl_free (s : jsstring) : Prop := ~ In 10 s.

(** The bytes of an ASCII line with its line feed. *)
Definition line_bytes (s : string) : list byte := quoted_bytes s ++ [x0a].

Ltac nl_free_tac :=
  let H := fresh in
  intros H; cbn in H;
  repeat (destruct H as [H | H]; [discriminate H|]); exact H.

(** A status line, a malformed line cut in two by the network, a done line. *)
Definition malformed_sample : list (list byte) :=
  [line_bytes "data: {'type':'status','status':'thinking'}" ++
   quoted_bytes "data: {not";
   line_bytes " json" ++
   line_bytes "data: {'type':'done','thread_id':'abc123'}"].

(** The two terminal events of a stream. *)
Definition terminal (e : Api.event) : bool :=
  match e with
  | Api.Done _ | Api.Error _ => true
  | _ => false
  end.

(** "Decoding stops at the terminal event": nothing follows it. *)
Definition stops_at_terminal (events : list Api.event) : Prop :=
  forall before e after,
    events = before ++ e :: after -> terminal e = true -> after = [].

(** A message after the done event, and after the sentinel line. *)
Definition late_message_sample : list (list byte) :=
  [line_bytes "data: {'type':'done','thread_id':'abc123'}" ++
   line_bytes "data: {'type':'message','content':'late'}"].

Definition done_sentinel_sample : list (list byte) :=
  [line_bytes "data: [DONE]" ++
   line_bytes "data: {'type':'message','content':'late'}"].

(** [M] occurs in [P]. *)
Definition substring (M P : jsstring) : Prop := exists l r, P = l ++ M ++ r.

(** "Finalization is a latch": after a final chunk no message changes the
    draft. *)
Definition finalization_latch : Prop :=
  forall prev final later,
    PropertyDetail.classify final = PropertyDetail.Final ->
    PropertyDetail.onMessage (PropertyDetail.onMessage prev final) later =
    PropertyDetail.onMessage prev final.

(** A complete report whose grade is under the alias [overall]. *)
Definition overall_only_report : jsstring := #"{'scores':{'overall':80}}".

Definition overall_only_stream : list (list byte) :=
  [line_bytes "data: {'type':'message','content':'{\'scores\':{\'overall\':80}}'}"].

(** A document inside a markdown fence tagged json. *)
Definition fenced (json : jsstring) : jsstring :=
  $"```json" ++ [10] ++ json ++ [10] ++ $"```".

(** A report in the format of the service. *)
Definition watson_report : jsstring := #"{'scores':{'overall_grade':72}}".

(** The response is JSON that holds a truthy [property] and no truthy
    [scores]: the case parseReport answers with [null]. *)
Definition property_only (response : jsstring) : bool :=
  match JSON_parse response with
  | Some parsed =>
      match get parsed $"scores" with
      | Some scores => truthy (prop parsed $"property") && negb (truthy scores)
      | None => false
      end
  | None => false
  end.

(** The response as a whole is JSON from which no score is resolved. *)
Definition bare_json_without_scores (response : jsstring) : Prop :=
  forall parsed scores,
    JSON_parse response = Some parsed ->
    get parsed $"scores" = Some scores ->
    truthy scores && ScoreCard.has_score_value (ScoreCard.normalize_scores parsed scores)
    = false.

(** No stage resolves a score: no fenced block, no scores in the response
    as JSON, none of the three score labels. *)
Definition no_score_resolved (response : jsstring) : Prop :=
  RegExp.exec ScoreCard.re_fence response = None
  /\ bare_json_without_scores response
  /\ RegExp.exec ScoreCard.re_overall response = None
  /\ RegExp.exec ScoreCard.re_quality response = None
  /\ RegExp.exec ScoreCard.re_financial response = None.

(** "Without scores the result carries the response as [full_text]". *)
Definition falls_back_to_full_text : Prop :=
  forall response,
    response <> [] ->
    no_score_resolved response ->
    exists props,
      ScoreCard.parseReport response = VObj props
      /\ obj_lookup props $"full_text" = Some (VStr response).

Definition property_only_response : jsstring := #"{'property':{'address':'1 Main St'}}".

(** A property as [getPropertyById] resolves it. *)
Definition property_at (address : string) : value :=
  VObj [($"address", VStr (lit address))].

(** The string contents of the message events, in order. *)
Definition string_messages (events : list Api.event) : list jsstring :=
  flat_map (fun e => match e with
                     | Api.Message (VStr s) => [s]
                     | _ => []
                     end) events.

(** The scenario of a property message, the scored report and the end. *)
Definition scenario_stream : list byte :=
  line_bytes "data: {'type':'message','content':'{\'property\':{\'address\':\'1 Main St\'}}'}"
  ++ line_bytes "data: {'type':'message','content':'{\'scores\':{\'overall_transparency_grade\':80,\'quality_score\':90,\'financial_score\':70}}'}"
  ++ line_bytes "data: {'type':'done','thread_id':'abc123'}".

(** A message with a two-byte character, for cutting inside it. *)
Definition accent_stream : list byte :=
  quoted_bytes "data: {'type':'message','content':'caf" ++ [xc3; xa9]
  ++ line_bytes "'}".

(** ** Vocabulary of the further properties *)

(** The decoder states from which pending bytes cannot come out as an ASCII
    character: every state the decoder reaches. *)
Definition pending_above_ascii (st : Utf8.state) : Prop :=
  128 <= Utf8.lower st /\ Utf8.upper st <= 191 /\
  (Utf8.bytes_needed st = 0 -> Utf8.bytes_seen st = 0) /\
  (Utf8.bytes_needed st <> 0 ->
   Utf8.bytes_seen st < Utf8.bytes_needed st /\
   (Utf8.code_point st <> 0 \/
    (144 <= Utf8.lower st /\ Utf8.bytes_seen st + 2 <= Utf8.bytes_needed st))).

(** The classes as tests. *)
Definition is_partial (message : jsstring) : bool :=
  match PropertyDetail.classify message with
  | PropertyDetail.Partial => true
  | _ => false
  end.

Definition is_final (message : jsstring) : bool :=
  match PropertyDetail.classify message with
  | PropertyDetail.Final => true
  | _ => false
  end.

(** Neither [undefined] nor [null]. *)
Definition present (v : value) : Prop := v <> VUndefined /\ v <> VNull.

(** The entries of the two lists. *)
Definition issue_shaped (v : value) : Prop :=
  exists type details, v = VObj [($"type", VStr type); ($"details", VStr details)].

Definition risk_shaped (v : value) : Prop :=
  exists text, v = VStr text /\ text <> []
               /\ RegExp.exec ScoreCard.re_leading_digits text = None.

Definition list_of (P : value -> Prop) (v : value) : Prop :=
  match v with
  | VArr l => Forall P l
  | _ => False
  end.

(** The report carries its two lists. *)
Definition carries_lists (report : value) : Prop :=
  list_of issue_shaped (prop (prop report $"quality_audit") $"recent_issues")
  /\ list_of risk_shaped (prop (prop report $"financial_audit") $"risk_factors").

(** A report in markdown with one issue and two bullet lines of risks. *)
Definition audit_text : jsstring :=
  $"### 1. Building Quality Audit" ++ [10] ++ $"- Heat complaints (3 in 2023)" ++ [10]
  ++ $"### 2. Financial & Tax Audit" ++ [10] ++ $"- High tax burden" ++ [10]
  ++ $"- 3 liens" ++ [10].

(** The filters the page can reach: the page size is twenty and [skip] is
    a whole number of pages. *)
Definition on_a_page (f : PropertyContext.filters) : Prop :=
  PropertyContext.limit f = 20%Z
  /\ exists n, (0 <= n)%Z /\ PropertyContext.skip f = (20 * n)%Z.

(** The events of the page: its actions, the mount, and requests settling. *)
Definition page_event (e : PropertyContext.event) : Prop :=
  e = PropertyContext.Mounted
  \/ (exists a, e = PropertyList.event_of a)
  \/ (exists k r, e = PropertyContext.Settled k r).

(** The filters and every request in flight are on a page. *)
Definition paged (st : PropertyContext.state) : Prop :=
  on_a_page (PropertyContext.current st)
  /\ Forall on_a_page (PropertyContext.in_flight st).

Ltac filters_cbn :=
  cbv [PropertyContext.merge PropertyContext.only_skip PropertyContext.all_of
       PropertyContext.override PropertyContext.no_change PropertyContext.defaultFilters
       PropertyContext.skip PropertyContext.limit PropertyContext.minPrice
       PropertyContext.maxPrice PropertyContext.beds PropertyContext.borough
       PropertyContext.new_skip PropertyContext.new_limit PropertyContext.new_minPrice
       PropertyContext.new_maxPrice PropertyContext.new_beds PropertyContext.new_borough
       PropertyList.applied] in *.

(** The filters the model stands for the code on: [skip] and [limit] whole
    numbers, not negative, whose sum is at most [2^53], so that the
    additions and subtractions of [nextPage] and [prevPage], which the
    code makes in binary64, are exact. *)
Definition exact_range (f : PropertyContext.filters) : Prop :=
  (0 <= PropertyContext.skip f)%Z
  /\ (0 <= PropertyContext.limit f)%Z
  /\ (PropertyContext.skip f + PropertyContext.limit f <= 9007199254740992)%Z.

(** A body with [n] properties. *)
Definition listing_of (n : nat) : Api.settled :=
  Api.Fulfilled (VObj [($"properties", VArr (repeat (VObj []) n))]).

(** A response [getProperties] accepts. *)
Definition accepted (r : Api.settled) : Prop :=
  exists data, Api.getProperties r = inl data.

(** A read that ends with a line feed. *)
Definition ends_line (value : list byte) : Prop := exists bytes, value = bytes ++ [x0a].

Definition reply_of (text : jsstring) : list WatsonChat.message :=
  match text with
  | [] => []
  | _ => [WatsonChat.mkMessage WatsonChat.Assistant text]
  end.

(** The message list is the list before the request with the reply so far. *)
Definition one_reply (before : list WatsonChat.message) (st : WatsonChat.chat) : Prop :=
  WatsonChat.messages st = before ++ reply_of (WatsonChat.assistantMessage st).

Definition brace_free (s : jsstring) : Prop := Forall (fun c => c <> 123 /\ c <> 125) s.

(** A text between two pairs of asterisks: not empty, on one line. *)
Definition bold_text (g : jsstring) : Prop :=
  g <> [] /\ forallb (fun c => negb (WatsonChat.is_line_terminator c)) g = true.

(** The source text of a part: a [strong] stands for its text between two
    pairs of asterisks. *)
Definition markup (p : WatsonChat.part) : jsstring :=
  match p with
  | WatsonChat.Span text => text
  | WatsonChat.Strong (Some text) => $"**" ++ text ++ $"**"
  | WatsonChat.Strong None => $"****"
  end.

(** No empty element: a [span] holds text, a [strong] a text on one line. *)
Definition shown (p : WatsonChat.part) : Prop :=
  match p with
  | WatsonChat.Span text => text <> []
  | WatsonChat.Strong (Some text) => bold_text text
  | WatsonChat.Strong None => False
  end.

Definition parts_of (r : WatsonChat.row) : list WatsonChat.part :=
  match r with
  | WatsonChat.Bullet parts | WatsonChat.Plain parts => parts
  | WatsonChat.Blank => []
  end.

(** ** Numbers, texts and parsed values *)

(** Quotients and remainders as unknowns, for [lia]. *)
Ltac div_atoms :=
  repeat match goal with
    | |- context [N.div ?a ?b] =>
        let q := fresh "q" in set (q := N.div a b) in *; clearbody q
    | |- context [N.modulo ?a ?b] =>
        let r := fresh "r" in set (r := N.modulo a b) in *; clearbody r
    | H : context [N.div ?a ?b] |- _ =>
        let q := fresh "q" in set (q := N.div a b) in *; clearbody q
    | H : context [N.modulo ?a ?b] |- _ =>
        let r := fresh "r" in set (r := N.modulo a b) in *; clearbody r
    | |- context [Z.div ?a ?b] =>
        let q := fresh "q" in set (q := Z.div a b) in *; clearbody q
    | |- context [Z.modulo ?a ?b] =>
        let r := fresh "r" in set (r := Z.modulo a b) in *; clearbody r
    | H : context [Z.div ?a ?b] |- _ =>
        let q := fresh "q" in set (q := Z.div a b) in *; clearbody q
    | H : context [Z.modulo ?a ?b] |- _ =>
        let r := fresh "r" in set (r := Z.modulo a b) in *; clearbody r
    end.

Ltac dlia := div_atoms; lia.

(** A numeral without leading zero is the numeral of its value. *)
Definition canonical (k : jsstring) : Prop :=
  forallb is_digit k = true /\ (k = [48] \/ exists c r, k = c :: r /\ c <> 48).

(** A finite number that is not zero, written in its one way. *)
Definition finite64 (m : N) (e : Z) : Prop :=
  ((p52 <= Z.of_N m < p53)%Z /\ (emin <= e <= emax)%Z)
  \/ ((0 < Z.of_N m < p52)%Z /\ e = emin).

(** The numbers [JSON.parse] makes. *)
Definition binary64 (x : number) : Prop :=
  match x with
  | NaN => False
  | Infinity _ => True
  | Finite _ m e => (m = 0 /\ e = 0%Z) \/ finite64 m e
  end.

(** The decimal [s * 10^x] is the number [m * 2^e] (both taken [2^1127]
    and [10^1074] times, to stay in whole numbers). *)
Definition same_value (s : N) (x : Z) (m : N) (e : Z) : Prop :=
  (Z.of_N s * 10 ^ (x + 1074) * 2 ^ 1127 = Z.of_N m * 2 ^ (e + 1127) * 10 ^ 1074)%Z.

(** What the search answers: digits without factor ten whose Number value
    is the number. *)
Definition shortest_of (m : N) (e : Z) (c : N * Z) : Prop :=
  fst c <> 0 /\ fst c mod 10 <> 0 /\ Dec false (fst c) (snd c) = Finite false m e.

(** What may follow a number: nothing that goes on with it. *)
Definition number_end (rest : jsstring) : Prop :=
  match rest with
  | [] => True
  | c :: _ => is_digit c = false /\ c <> 46 /\ c <> 101 /\ c <> 69
  end.

Ltac same_exponent :=
  match goal with
  | |- Some (Dec _ _ ?a, _) = Some (Dec _ _ ?b, _) =>
      replace a with b by lia; reflexivity
  end.

Ltac same_list :=
  repeat (change ($",") with [44] || cbn [app] || rewrite <- app_assoc);
  reflexivity.

(** The argument of [f] in the goal, written as [new]. *)
Ltac reshape f new :=
  match goal with
  | |- context [f ?t] => replace t with new by same_list
  end.

(** What [JSON.stringify] writes of a number and [JSON.parse] reads again:
    a zero without its sign. *)
Definition printed_number (x : number) : number :=
  match x with
  | Finite _ 0 _ => Finite false 0 0
  | _ => x
  end.

(** [k'] may come after [k]: an array index after a smaller one, any other
    key after any key but before no array index. *)
Definition may_follow (k k' : jsstring) : Prop :=
  match array_index k, array_index k' with
  | Some i, Some j => i < j
  | Some _, None => True
  | None, Some _ => False
  | None, None => True
  end.

(** Keys as OrdinaryOwnPropertyKeys lists them, each once. *)
Fixpoint keys_ordered (ks : list jsstring) : Prop :=
  match ks with
  | [] => True
  | k :: rest => ~ In k rest /\ Forall (may_follow k) rest /\ keys_ordered rest
  end.

Definition ordered (props : list (jsstring * value)) : Prop :=
  keys_ordered (map fst props).

Inductive json : value -> Prop :=
| json_null : json VNull
| json_bool (b : bool) : json (VBool b)
| json_num (n : number) : binary64 n -> json (VNum n)
| json_str (s : jsstring) : json (VStr s)
| json_arr (elems : list value) : Forall json elems -> json (VArr elems)
| json_obj (props : list (jsstring * value)) :
    ordered props -> Forall (fun kv => json (snd kv)) props -> json (VObj props).

(** What is left of a value once written and read again: an infinity became
    [null], a zero lost its sign. *)
Fixpoint written (v : value) : value :=
  match v with
  | VNum NaN | VNum (Infinity _) => VNull
  | VNum n => VNum (printed_number n)
  | VArr elems => VArr (map written elems)
  | VObj props => VObj (map (fun kv => (fst kv, written (snd kv))) props)
  | _ => v
  end.

(** Fuel that is enough to read a value. *)
Fixpoint weight (v : value) : nat :=
  match v with
  | VArr elems => S (list_sum (map (fun e => S (weight e)) elems))
  | VObj props => S (list_sum (map (fun kv => S (weight (snd kv))) props))
  | _ => 1
  end.

Definition text_of (indent : jsstring) (v : value) : jsstring :=
  match serialize indent v with
  | Some str => str
  | None => $"null"
  end.

Definition blank (w : jsstring) : Prop := forallb is_json_ws w = true.

(** The first code unit of a value's text. *)
Definition opens (c : code_unit) : Prop :=
  is_json_ws c = false /\ c <> 93 /\ c <> 125 /\ c <> 44.

(** What follows a value in a text: the end, a comma or a line feed. *)
Definition closes (rest : jsstring) : Prop :=
  match rest with
  | [] => True
  | c :: _ => c = 44 \/ c = 10
  end.

(** The statement for one value. *)
Definition reads_again (v : value) : Prop :=
  forall (indent w rest : jsstring) (fuel : nat),
    blank indent -> blank w -> closes rest -> (weight v <= fuel)%nat ->
    parse_value fuel (w ++ text_of indent v ++ rest) = POk (written v) rest.

(** A message line whose content is a report with escapes in a string, a
    number of twenty digits, a negative zero, a number beyond the largest
    finite one, and keys that are array indices; the content; and the text
    the decoder delivers for it. *)
Definition report_content : jsstring :=
  #"{'s':'a\'b\\c\n','n':[12345678901234567890,-0,1e400,0.1],'2':true,'1':null}".

Definition report_line : jsstring :=
  #"data: {'type':'message','content':'{\'s\':\'a\\\'b\\\\c\\n\',\'n\':[12345678901234567890,-0,1e400,0.1],\'2\':true,\'1\':null}'}".

Definition printed_report : jsstring :=
  $"{" ++ [10]
  ++ #"  '1': null," ++ [10]
  ++ #"  '2': true," ++ [10]
  ++ #"  's': 'a\'b\\c\n'," ++ [10]
  ++ #"  'n': [" ++ [10]
  ++ $"    12345678901234567000," ++ [10]
  ++ $"    0," ++ [10]
  ++ $"    null," ++ [10]
  ++ $"    0.1" ++ [10]
  ++ $"  ]" ++ [10]
  ++ $"}".

(* ================================================================== *)
(** * Properties *)
(* ================================================================== *)

(** ** Facts about the string primitives *)

Lemma str_eqb_spec (a b : jsstring) : str_eqb a b = true <-> a = b.
Proof.
  revert b; induction a as [|x a IH]; destruct b as [|y b]; cbn [str_eqb];
    try (split; [discriminate | congruence]); [tauto|].
  rewrite andb_true_iff, N.eqb_eq, IH. split.
  - intros [-> ->]; reflexivity.
  - intros H; injection H; auto.
Qed.

Lemma str_eqb_refl (a : jsstring) : str_eqb a a = true.
Proof. apply str_eqb_spec; reflexivity. Qed.

Lemma startsWith_spec (s p : jsstring) :
  startsWith s p = true <-> exists r, s = p ++ r.
Proof.
  revert s; induction p as [|x p IH]; intros s; cbn [startsWith].
  - split; [intros _; exists s; reflexivity | intros _; destruct s; reflexivity].
  - destruct s as [|y s]; cbn [startsWith].
    + split; [discriminate | intros [r Hr]; discriminate].
    + rewrite andb_true_iff, N.eqb_eq, IH. split.
      * intros [-> [r ->]]. exists r; reflexivity.
      * intros [r Hr]. injection Hr as -> ->. split; [reflexivity | eauto].
Qed.

Lemma startsWith_app (p r : jsstring) : startsWith (p ++ r) p = true.
Proof. apply startsWith_spec; eauto. Qed.

Lemma includes_spec (s m : jsstring) :
  includes s m = true <-> exists l r, s = l ++ m ++ r.
Proof.
  induction s as [|c s IH].
  - cbn [includes]. rewrite orb_false_r, startsWith_spec. split.
    + intros [r Hr]. exists [], r. exact Hr.
    + intros [l [r H]]. destruct l; [eauto | discriminate].
  - cbn [includes]. rewrite orb_true_iff, startsWith_spec, IH. split.
    + intros [[r Hr] | [l [r Hr]]].
      * exists [], r. exact Hr.
      * exists (c :: l), r. rewrite Hr. reflexivity.
    + intros [l [r H]]. destruct l as [|c' l].
      * left. exists r. exact H.
      * right. injection H as _ H. eauto.
Qed.

Lemma split_nl_nonempty (s : jsstring) : split_nl s <> [].
Proof.
  destruct s as [|c s]; cbn [split_nl]; [discriminate|].
  destruct (c =? 10); [discriminate|].
  destruct (split_nl s); discriminate.
Qed.

(** ** JSON.parse is total *)

Lemma skip_ws_length (s : jsstring) : (length (skip_ws s) <= length s)%nat.
Proof.
  induction s as [|c s IH]; cbn [skip_ws]; [lia|].
  destruct (is_json_ws c); cbn [length]; lia.
Qed.

Lemma eat_length (c : N) (s rest : jsstring) :
  eat c s = Some rest -> length s = S (length rest).
Proof.
  destruct s as [|x r]; cbn [eat]; [discriminate|].
  destruct (x =? c); [|discriminate]. intros H. injection H as <-. reflexivity.
Qed.

Lemma eat_sign_length (b : bool) (s : jsstring) :
  (length (snd (eat_sign b s)) <= length s)%nat.
Proof.
  destruct s as [|x r]; cbn [eat_sign]; [cbn; lia|].
  destruct (x =? 45); [cbn; lia|].
  destruct (b && (x =? 43)); cbn; lia.
Qed.

Lemma span_digits_length (s : jsstring) :
  (length (snd (span_digits s)) <= length s)%nat.
Proof.
  induction s as [|c s IH]; cbn [span_digits]; [cbn; lia|].
  destruct (is_digit c); [|cbn; lia].
  destruct (span_digits s) as [ds r]. cbn [snd length] in *. lia.
Qed.

Lemma string_body_length (s body after : jsstring) :
  string_body s = Some (body, after) -> (length after < length s)%nat.
Proof.
  remember (length s) as n eqn:Hn. revert s body after Hn.
  induction n as [n IH] using lt_wf_ind. intros s body after Hn.
  destruct s as [|c rest]; cbn [string_body]; [discriminate|].
  destruct (c =? 34).
  { intros H. injection H as _ <-. subst n. cbn [length]. lia. }
  destruct (c =? 92).
  - destruct rest as [|e rest1]; [discriminate|].
    destruct (e =? 117).
    + destruct rest1 as [|h1 [|h2 [|h3 [|h4 rest2]]]]; try discriminate.
      destruct (hex4 h1 h2 h3 h4); [|discriminate].
      destruct (string_body rest2) as [[b a]|] eqn:E; [|discriminate].
      intros H. injection H as _ <-.
      specialize (IH (length rest2)). subst n. cbn [length] in *.
      specialize (IH ltac:(lia) rest2 b a eq_refl E). lia.
    + destruct (escape_char e); [|discriminate].
      destruct (string_body rest1) as [[b a]|] eqn:E; [|discriminate].
      intros H. injection H as _ <-.
      specialize (IH (length rest1)). subst n. cbn [length] in *.
      specialize (IH ltac:(lia) rest1 b a eq_refl E). lia.
  - destruct (c <? 32); [discriminate|].
    destruct (string_body rest) as [[b a]|] eqn:E; [|discriminate].
    intros H. injection H as _ <-.
    specialize (IH (length rest)). subst n. cbn [length] in *.
    specialize (IH ltac:(lia) rest b a eq_refl E). lia.
Qed.

Lemma parse_fraction_length (s f rest : jsstring) :
  parse_fraction s = Some (f, rest) -> (length rest <= length s)%nat.
Proof.
  unfold parse_fraction. destruct (eat 46 s) as [r|] eqn:E.
  - pose proof (span_digits_length r) as H. apply eat_length in E.
    destruct (span_digits r) as [ds r']. cbn [snd] in H.
    destruct ds; [discriminate|]. intros H1. injection H1 as _ <-. lia.
  - intros H. injection H as _ <-. lia.
Qed.

Lemma parse_exponent_length (s rest : jsstring) (x : Z) :
  parse_exponent s = Some (x, rest) -> (length rest <= length s)%nat.
Proof.
  unfold parse_exponent. destruct s as [|e r].
  - intros H. injection H as _ <-. lia.
  - destruct ((e =? 101) || (e =? 69)).
    + pose proof (eat_sign_length true r) as H1.
      destruct (eat_sign true r) as [eneg r1]. cbn [snd] in H1.
      pose proof (span_digits_length r1) as H2.
      destruct (span_digits r1) as [ed r2]. cbn [snd] in H2.
      destruct ed; [discriminate|]. intros H. injection H as _ <-.
      cbn [length]. lia.
    + intros H. injection H as _ <-. lia.
Qed.

Lemma parse_number_length (s after : jsstring) (n : number) :
  parse_number s = Some (n, after) -> (length after < length s)%nat.
Proof.
  unfold parse_number.
  pose proof (eat_sign_length false s) as H1.
  destruct (eat_sign false s) as [neg s1]. cbn [snd] in H1.
  destruct s1 as [|c r]; [discriminate|].
  destruct (is_digit c) eqn:Hc; [|discriminate].
  assert (H2 : (length (snd (if (c =? 48)%N then ([48%N], r) else span_digits (c :: r)))
                < length (c :: r))%nat).
  { destruct (c =? 48); [cbn; lia|].
    cbn [span_digits]. rewrite Hc.
    pose proof (span_digits_length r) as H.
    destruct (span_digits r) as [ds r']. cbn [snd length] in *. lia. }
  destruct (if c =? 48 then ([48], r) else span_digits (c :: r)) as [int s2].
  cbn [snd] in H2.
  destruct (parse_fraction s2) as [[f s3]|] eqn:E3; [|discriminate].
  apply parse_fraction_length in E3.
  destruct (parse_exponent s3) as [[x s4]|] eqn:E4; [|discriminate].
  apply parse_exponent_length in E4.
  intros H. injection H as _ <-. lia.
Qed.

Lemma skipn_length_lt (n : nat) (s : jsstring) :
  (0 < n)%nat -> s <> [] -> (length (skipn n s) < length s)%nat.
Proof.
  intros Hn Hs. rewrite length_skipn. destruct s; [congruence|]. cbn [length]. lia.
Qed.

(** Every successful parse consumes input. *)
Lemma parse_consumes (fuel : nat) :
  (forall s v rest, parse_value fuel s = POk v rest -> (length rest < length s)%nat)
  /\ (forall acc s v rest,
        parse_elements fuel acc s = POk v rest -> (length rest < length s)%nat)
  /\ (forall acc s v rest,
        parse_members fuel acc s = POk v rest -> (length rest < length s)%nat).
Proof.
  induction fuel as [|f (IHv & IHe & IHm)].
  - repeat split; intros; discriminate.
  - split; [|split].
    + intros s v rest. cbn [parse_value].
      pose proof (skip_ws_length s) as Hs.
      destruct (skip_ws s) as [|c r]; [discriminate|]. cbn [length] in Hs.
      destruct (c =? 123).
      { pose proof (skip_ws_length r) as Hr.
        destruct (eat 125 (skip_ws r)) as [r'|] eqn:E.
        - apply eat_length in E. intros H. injection H as _ <-. lia.
        - intros H. apply IHm in H. lia. }
      destruct (c =? 91).
      { pose proof (skip_ws_length r) as Hr.
        destruct (eat 93 (skip_ws r)) as [r'|] eqn:E.
        - apply eat_length in E. intros H. injection H as _ <-. lia.
        - intros H. apply IHe in H. lia. }
      destruct (c =? 34).
      { destruct (string_body r) as [[str after]|] eqn:E; [|discriminate].
        apply string_body_length in E. intros H. injection H as _ <-. lia. }
      pose proof (length_skipn 4 (c :: r)) as H4.
      pose proof (length_skipn 5 (c :: r)) as H5.
      remember (skipn 4 (c :: r)) as k4. remember (skipn 5 (c :: r)) as k5.
      cbn [length] in H4, H5.
      destruct (startsWith (c :: r) $"true").
      { intros H. injection H as _ <-. lia. }
      destruct (startsWith (c :: r) $"false").
      { intros H. injection H as _ <-. lia. }
      destruct (startsWith (c :: r) $"null").
      { intros H. injection H as _ <-. lia. }
      destruct (parse_number (c :: r)) as [[n after]|] eqn:E; [|discriminate].
      apply parse_number_length in E. cbn [length] in E.
      intros H. injection H as _ <-. lia.
    + intros acc s v rest. cbn [parse_elements].
      destruct (parse_value f s) as [v1 r1| |] eqn:E; try discriminate.
      apply IHv in E. pose proof (skip_ws_length r1) as Hr.
      destruct (eat 44 (skip_ws r1)) as [r'|] eqn:E1.
      * apply eat_length in E1. intros H. apply IHe in H. lia.
      * destruct (eat 93 (skip_ws r1)) as [r'|] eqn:E2; [|discriminate].
        apply eat_length in E2. intros H. injection H as _ <-. lia.
    + intros acc s v rest. cbn [parse_members].
      pose proof (skip_ws_length s) as Hs.
      destruct (eat 34 (skip_ws s)) as [r|] eqn:E0; [|discriminate].
      apply eat_length in E0.
      destruct (string_body r) as [[key after]|] eqn:E1; [|discriminate].
      apply string_body_length in E1.
      pose proof (skip_ws_length after) as Ha.
      destruct (eat 58 (skip_ws after)) as [r1|] eqn:E2; [|discriminate].
      apply eat_length in E2.
      destruct (parse_value f r1) as [v1 r2| |] eqn:E3; try discriminate.
      apply IHv in E3. pose proof (skip_ws_length r2) as Hr.
      destruct (eat 44 (skip_ws r2)) as [r3|] eqn:E4.
      * apply eat_length in E4. intros H. apply IHm in H. lia.
      * destruct (eat 125 (skip_ws r2)) as [r3|] eqn:E5; [|discriminate].
        apply eat_length in E5. intros H. injection H as _ <-. lia.
Qed.

(** The recursion bound is never what stops the parser. *)
Lemma parse_fuel (fuel : nat) :
  (forall s, (2 * length s + 1 <= fuel)%nat -> parse_value fuel s <> PFuel)
  /\ (forall acc s, (2 * length s + 2 <= fuel)%nat -> parse_elements fuel acc s <> PFuel)
  /\ (forall acc s, (2 * length s + 2 <= fuel)%nat -> parse_members fuel acc s <> PFuel).
Proof.
  induction fuel as [|f (IHv & IHe & IHm)].
  - repeat split; intros; lia.
  - split; [|split].
    + intros s Hf. cbn [parse_value].
      pose proof (skip_ws_length s) as Hs.
      destruct (skip_ws s) as [|c r]; [discriminate|]. cbn [length] in Hs.
      destruct (c =? 123).
      { destruct (eat 125 (skip_ws r)); [discriminate|]. apply IHm. lia. }
      destruct (c =? 91).
      { destruct (eat 93 (skip_ws r)); [discriminate|]. apply IHe. lia. }
      destruct (c =? 34).
      { destruct (string_body r) as [[? ?]|]; discriminate. }
      destruct (startsWith (c :: r) $"true"); [discriminate|].
      destruct (startsWith (c :: r) $"false"); [discriminate|].
      destruct (startsWith (c :: r) $"null"); [discriminate|].
      destruct (parse_number (c :: r)) as [[? ?]|]; discriminate.
    + intros acc s Hf. cbn [parse_elements].
      destruct (parse_value f s) as [v1 r1| |] eqn:E.
      * apply (proj1 (parse_consumes f)) in E.
        pose proof (skip_ws_length r1) as Hr.
        destruct (eat 44 (skip_ws r1)) as [r'|] eqn:E1.
        -- apply eat_length in E1. apply IHe. lia.
        -- destruct (eat 93 (skip_ws r1)); discriminate.
      * discriminate.
      * exfalso. revert E. apply IHv. lia.
    + intros acc s Hf. cbn [parse_members].
      pose proof (skip_ws_length s) as Hs.
      destruct (eat 34 (skip_ws s)) as [r|] eqn:E0; [|discriminate].
      apply eat_length in E0.
      destruct (string_body r) as [[key after]|] eqn:E1; [|discriminate].
      apply string_body_length in E1.
      pose proof (skip_ws_length after) as Ha.
      destruct (eat 58 (skip_ws after)) as [r1|] eqn:E2; [|discriminate].
      apply eat_length in E2.
      destruct (parse_value f r1) as [v1 r2| |] eqn:E3.
      * apply (proj1 (parse_consumes f)) in E3.
        pose proof (skip_ws_length r2) as Hr.
        destruct (eat 44 (skip_ws r2)) as [r3|] eqn:E4.
        -- apply eat_length in E4. apply IHm. lia.
        -- destruct (eat 125 (skip_ws r2)); discriminate.
      * discriminate.
      * exfalso. revert E3. apply IHv. lia.
Qed.

Lemma JSON_parse_bound_suffices (text : jsstring) :
  parse_value (parse_bound text) text <> PFuel.
Proof. apply (proj1 (parse_fuel _)). unfold parse_bound. lia. Qed.

(** ** Parsed values print as strings *)

Lemma parse_defined (fuel : nat) :
  (forall s v rest, parse_value fuel s = POk v rest -> v <> VUndefined)
  /\ (forall acc s v rest, parse_elements fuel acc s = POk v rest -> v <> VUndefined)
  /\ (forall acc s v rest, parse_members fuel acc s = POk v rest -> v <> VUndefined).
Proof.
  induction fuel as [|f (IHv & IHe & IHm)].
  - repeat split; intros; discriminate.
  - split; [|split].
    + intros s v rest. cbn [parse_value].
      destruct (skip_ws s) as [|c r]; [discriminate|].
      destruct (c =? 123).
      { destruct (eat 125 (skip_ws r)).
        - intros H. injection H as <- _. discriminate.
        - apply IHm. }
      destruct (c =? 91).
      { destruct (eat 93 (skip_ws r)).
        - intros H. injection H as <- _. discriminate.
        - apply IHe. }
      destruct (c =? 34).
      { destruct (string_body r) as [[str after]|]; [|discriminate].
        intros H. injection H as <- _. discriminate. }
      destruct (startsWith (c :: r) $"true").
      { intros H. injection H as <- _. discriminate. }
      destruct (startsWith (c :: r) $"false").
      { intros H. injection H as <- _. discriminate. }
      destruct (startsWith (c :: r) $"null").
      { intros H. injection H as <- _. discriminate. }
      destruct (parse_number (c :: r)) as [[n after]|]; [|discriminate].
      intros H. injection H as <- _. discriminate.
    + intros acc s v rest. cbn [parse_elements].
      destruct (parse_value f s) as [v1 r1| |]; try discriminate.
      destruct (eat 44 (skip_ws r1)); [apply IHe|].
      destruct (eat 93 (skip_ws r1)); [|discriminate].
      intros H. injection H as <- _. discriminate.
    + intros acc s v rest. cbn [parse_members].
      destruct (eat 34 (skip_ws s)) as [r|]; [|discriminate].
      destruct (string_body r) as [[key after]|]; [|discriminate].
      destruct (eat 58 (skip_ws after)) as [r1|]; [|discriminate].
      destruct (parse_value f r1) as [v1 r2| |]; try discriminate.
      destruct (eat 44 (skip_ws r2)); [apply IHm|].
      destruct (eat 125 (skip_ws r2)); [|discriminate].
      intros H. injection H as <- _. discriminate.
Qed.

Lemma JSON_parse_defined (text : jsstring) (v : value) :
  JSON_parse text = Some v -> v <> VUndefined.
Proof.
  unfold JSON_parse.
  destruct (parse_value (parse_bound text) text) as [v1 rest| |] eqn:E;
    try discriminate.
  destruct (skip_ws rest); [|discriminate]. intros H. injection H as <-.
  exact (proj1 (parse_defined _) _ _ _ E).
Qed.

Lemma serialize_defined (indent : jsstring) (v : value) :
  v <> VUndefined -> exists s, serialize indent v = Some s.
Proof.
  destruct v as [| |[|]|[|neg|neg m e]|s|elems|props]; intros H; cbn [serialize];
    try (eexists; reflexivity); [congruence| |].
  - destruct (map _ elems); eexists; reflexivity.
  - destruct (flat_map _ props); eexists; reflexivity.
Qed.

(** [JSON.stringify] of a parsed document is a string. *)
Lemma stringify_of_parsed (text : jsstring) (v : value) :
  JSON_parse text = Some v -> exists s, JSON_stringify2 v = VStr s.
Proof.
  intros H. apply JSON_parse_defined in H.
  destruct (serialize_defined [] v H) as [s E].
  exists s. unfold JSON_stringify2. rewrite E. reflexivity.
Qed.

(** ** The streaming decoder composes over concatenation *)

Lemma decode_app (st : Utf8.state) (a b : list byte) :
  Utf8.decode st (a ++ b) =
  let (st1, o1) := Utf8.decode st a in
  let (st2, o2) := Utf8.decode st1 b in
  (st2, o1 ++ o2).
Proof.
  revert st; induction a as [|x a IH]; intros st; cbn [Utf8.decode app].
  - destruct (Utf8.decode st b); reflexivity.
  - destruct (Utf8.step st x) as [st1 o1]. rewrite IH.
    destruct (Utf8.decode st1 a) as [st2 o2].
    destruct (Utf8.decode st2 b) as [st3 o3].
    rewrite app_assoc. reflexivity.
Qed.

Lemma decode_app_text (st : Utf8.state) (a b : list byte) :
  snd (Utf8.decode st (a ++ b)) =
  snd (Utf8.decode st a) ++ snd (Utf8.decode (fst (Utf8.decode st a)) b).
Proof.
  rewrite decode_app. destruct (Utf8.decode st a) as [st1 o1]; cbn [fst snd].
  destruct (Utf8.decode st1 b); reflexivity.
Qed.

(** ** Lines of a text *)

Lemma split_nl_nl_free (s : jsstring) : nl_free s -> split_nl s = [s].
Proof.
  induction s as [|c s IH]; intros H; cbn [split_nl]; [reflexivity|].
  destruct (N.eqb_spec c 10) as [->|_].
  - exfalso. apply H. left; reflexivity.
  - rewrite IH; [reflexivity|]. intros Hin. apply H. right; exact Hin.
Qed.

Lemma split_nl_line (l r : jsstring) :
  nl_free l -> split_nl (l ++ 10 :: r) = l :: split_nl r.
Proof.
  induction l as [|c l IH]; intros H; cbn [split_nl app].
  - reflexivity.
  - destruct (N.eqb_spec c 10) as [->|_].
    + exfalso. apply H. left; reflexivity.
    + rewrite IH; [reflexivity|]. intros Hin. apply H. right; exact Hin.
Qed.

Lemma first_line (s : jsstring) :
  nl_free s \/ exists l r, nl_free l /\ s = l ++ 10 :: r.
Proof.
  induction s as [|c s IH].
  - left. intros [].
  - destruct (N.eqb_spec c 10) as [->|Hc].
    + right. exists [], s. split; [intros [] | reflexivity].
    + destruct IH as [H | (l & r & H & ->)].
      * left. intros [E | Hin]; [congruence | exact (H Hin)].
      * right. exists (c :: l), r. split; [|reflexivity].
        intros [E | Hin]; [congruence | exact (H Hin)].
Qed.

Lemma complete_lines_nl_free (s : jsstring) :
  nl_free s -> Api.complete_lines s = [].
Proof. intros H. unfold Api.complete_lines. rewrite split_nl_nl_free; auto. Qed.

Lemma pending_nl_free (s : jsstring) : nl_free s -> Api.pending s = s.
Proof. intros H. unfold Api.pending. rewrite split_nl_nl_free; auto. Qed.

Lemma complete_lines_line (l r : jsstring) :
  nl_free l -> Api.complete_lines (l ++ 10 :: r) = l :: Api.complete_lines r.
Proof.
  intros H. unfold Api.complete_lines. rewrite split_nl_line by exact H.
  pose proof (split_nl_nonempty r) as Hne.
  destruct (split_nl r); [contradiction | reflexivity].
Qed.

Lemma pending_line (l r : jsstring) :
  nl_free l -> Api.pending (l ++ 10 :: r) = Api.pending r.
Proof.
  intros H. unfold Api.pending. rewrite split_nl_line by exact H.
  pose proof (split_nl_nonempty r) as Hne.
  destruct (split_nl r); [contradiction | reflexivity].
Qed.

(** Appending text to a buffer: the lines already complete stay, and the
    rest only depends on the unfinished piece. *)
Lemma lines_app (a b : jsstring) :
  Api.complete_lines (a ++ b) =
    Api.complete_lines a ++ Api.complete_lines (Api.pending a ++ b)
  /\ Api.pending (a ++ b) = Api.pending (Api.pending a ++ b).
Proof.
  remember (length a) as n eqn:Hn. revert a Hn.
  induction n as [n IH] using lt_wf_ind. intros a Hn.
  destruct (first_line a) as [H | (l & r & H & ->)].
  - rewrite (complete_lines_nl_free _ H), (pending_nl_free _ H). split; reflexivity.
  - rewrite <- app_assoc. cbn [app].
    rewrite !complete_lines_line, !pending_line by exact H.
    destruct (IH (length r)) with (a := r) as [E1 E2]; [|reflexivity|].
    + subst n. rewrite length_app. simpl. lia.
    + rewrite E1, E2. split; reflexivity.
Qed.

Lemma events_of_text_app (a b : jsstring) :
  Api.events_of_text (a ++ b) =
  Api.events_of_text a ++ Api.events_of_text (Api.pending a ++ b).
Proof.
  unfold Api.events_of_text. rewrite (proj1 (lines_app a b)).
  apply flat_map_app.
Qed.

Lemma pending_at_line_boundary (a : jsstring) :
  Api.at_line_boundary a -> Api.pending a = [].
Proof.
  intros [-> | [t ->]]; [reflexivity|].
  remember (length t) as n eqn:Hn. revert t Hn.
  induction n as [n IH] using lt_wf_ind. intros t Hn.
  destruct (first_line t) as [H | (l & r & H & ->)].
  - change (t ++ [10]) with (t ++ 10 :: []). rewrite pending_line by exact H.
    reflexivity.
  - rewrite <- app_assoc. cbn [app]. rewrite pending_line by exact H.
    apply (IH (length r)); [|reflexivity].
    subst n. rewrite length_app. simpl. lia.
Qed.

Lemma pending_is_nl_free (s : jsstring) : nl_free (Api.pending s).
Proof.
  remember (length s) as n eqn:Hn. revert s Hn.
  induction n as [n IH] using lt_wf_ind. intros s Hn.
  destruct (first_line s) as [H | (l & r & H & ->)].
  - rewrite (pending_nl_free _ H). exact H.
  - rewrite pending_line by exact H. apply (IH (length r)); [|reflexivity].
    subst n. rewrite length_app. simpl. lia.
Qed.

(** ** The read loop against the whole text *)

Lemma read_loop_events (st : Api.reader) (reads : list (list byte)) :
  nl_free (Api.buffer st) ->
  Api.read_loop st reads =
  Api.events_of_text
    (Api.buffer st ++ snd (Utf8.decode (Api.decoder st) (concat reads))).
Proof.
  revert st; induction reads as [|value rest IH]; intros st Hbuf.
  - cbn [Api.read_loop concat Utf8.decode snd]. rewrite app_nil_r.
    unfold Api.events_of_text. rewrite (complete_lines_nl_free _ Hbuf). reflexivity.
  - cbn [Api.read_loop concat]. unfold Api.on_read.
    rewrite decode_app_text.
    destruct (Utf8.decode (Api.decoder st) value) as [d text] eqn:Hd.
    cbn [fst snd].
    rewrite IH by (cbn [Api.buffer]; apply pending_is_nl_free).
    cbn [Api.buffer Api.decoder].
    rewrite app_assoc.
    rewrite (events_of_text_app (Api.buffer st ++ text)).
    reflexivity.
Qed.

Lemma decode_stream_events (reads : list (list byte)) :
  Api.decode_stream reads = Api.events_of_text (Api.decoded_text (concat reads)).
Proof.
  unfold Api.decode_stream. rewrite read_loop_events by (intros []).
  reflexivity.
Qed.

(** C1. Fragmentation invariance: however the bytes of a stream are cut into
    network reads (also inside a line, or inside a multi-byte character), the
    read loop produces the same events, in the same order, as for the stream
    delivered in a single read. *)
Theorem fragmentation_invariance (reads : list (list byte)) :
  Api.decode_stream reads = Api.decode_stream [concat reads].
Proof.
  rewrite !decode_stream_events. cbn [concat]. rewrite app_nil_r. reflexivity.
Qed.

(** The same for the whole request, whatever its closing. *)
Corollary streamRequest_fragmentation (ok : bool) (status : N)
  (reads : list (list byte)) (closing : Api.ending) :
  Api.streamRequest (Api.mkResponse ok status reads closing) =
  Api.streamRequest (Api.mkResponse ok status [concat reads] closing).
Proof.
  unfold Api.streamRequest. cbn [Api.ok Api.reads Api.closing].
  destruct ok; [|reflexivity].
  change (Api.read_loop Api.start reads) with (Api.decode_stream reads).
  change (Api.read_loop Api.start [concat reads])
    with (Api.decode_stream [concat reads]).
  rewrite decode_stream_events, (decode_stream_events [concat reads]).
  cbn [concat]. rewrite app_nil_r. reflexivity.
Qed.

(** A cut inside a line and inside a two-byte character. *)
Example fragmentation_inside_character :
  Api.decode_stream [firstn 39 accent_stream; skipn 39 accent_stream] =
    [Api.Message (VStr ($"caf" ++ [233]))]
  /\ Api.decode_stream [accent_stream] = [Api.Message (VStr ($"caf" ++ [233]))]
  /\ last (firstn 39 accent_stream) x00 = xc3
  /\ hd x00 (skipn 39 accent_stream) = xa9.
Proof. repeat split; vm_compute; reflexivity. Qed.

(** Two fragmentations of the same bytes give the same events. *)
Corollary same_bytes_same_events (reads1 reads2 : list (list byte)) :
  concat reads1 = concat reads2 ->
  Api.decode_stream reads1 = Api.decode_stream reads2.
Proof. intros H. rewrite !decode_stream_events, H. reflexivity. Qed.

(** ** Sample streams *)

(** ** One line of the stream *)

Lemma events_of_line (line post : jsstring) :
  nl_free line ->
  Api.events_of_text (line ++ 10 :: post) =
  Api.process_line line ++ Api.events_of_text post.
Proof.
  intros H. unfold Api.events_of_text. rewrite complete_lines_line by exact H.
  reflexivity.
Qed.

Lemma events_after_boundary (pre post : jsstring) :
  Api.at_line_boundary pre ->
  Api.events_of_text (pre ++ post) =
  Api.events_of_text pre ++ Api.events_of_text post.
Proof.
  intros H. rewrite events_of_text_app, (pending_at_line_boundary _ H). reflexivity.
Qed.

Lemma JSON_parse_empty : JSON_parse [] = None.
Proof. reflexivity. Qed.

(** C7. A [data: ] line whose payload is not JSON is dropped: the events of
    the stream are those of the text before the line, then at most the
    console line of the parse failure (no callback, so no error event),
    then those of the text after it. *)
Theorem malformed_line_is_dropped
  (reads : list (list byte)) (pre line post : jsstring) :
  Api.decoded_text (concat reads) = pre ++ line ++ 10 :: post ->
  Api.at_line_boundary pre ->
  nl_free line ->
  startsWith line $"data: " = true ->
  JSON_parse (trim (slice 6 line)) = None ->
  exists log,
    (log = [] \/ log = [Api.ParseErrorLogged (trim (slice 6 line))]) /\
    Api.decode_stream reads =
    Api.events_of_text pre ++ log ++ Api.events_of_text post.
Proof.
  intros Htext Hpre Hline Hdata Hparse.
  rewrite decode_stream_events, Htext.
  rewrite (events_after_boundary _ _ Hpre), (events_of_line _ _ Hline).
  unfold Api.process_line. rewrite Hdata.
  destruct (trim (slice 6 line)) as [|c data] eqn:E.
  - exists []. split; [left; reflexivity | reflexivity].
  - rewrite Hparse. eexists. split; [right; reflexivity | reflexivity].
Qed.

Lemma malformed_line_is_dropped_witness :
  exists log,
    (log = [] \/ log = [Api.ParseErrorLogged $"{not json"]) /\
    Api.decode_stream malformed_sample =
    [Api.Status (VStr $"thinking")] ++ log ++ [Api.Done (VStr $"abc123")].
Proof.
  apply (malformed_line_is_dropped malformed_sample
           (#"data: {'type':'status','status':'thinking'}" ++ [10])
           $"data: {not json"
           (#"data: {'type':'done','thread_id':'abc123'}" ++ [10])).
  - vm_compute. reflexivity.
  - right. eexists. reflexivity.
  - nl_free_tac.
  - vm_compute. reflexivity.
  - vm_compute. reflexivity.
Defined.

(** ** The terminal events *)

(** C5, as stated, fails: a message that follows a [done] event, or the line
    [data: [DONE]], is still delivered. *)
Lemma events_follow_terminal :
  ~ stops_at_terminal (Api.decode_stream late_message_sample)
  /\ Api.decode_stream done_sentinel_sample =
     [Api.ParseErrorLogged $"[DONE]"; Api.Message (VStr $"late")].
Proof.
  split.
  - intros H.
    specialize (H [] (Api.Done (VStr $"abc123")) [Api.Message (VStr $"late")]).
    assert (E : [Api.Message (VStr $"late")] = []) by (apply H; vm_compute; reflexivity).
    discriminate E.
  - vm_compute. reflexivity.
Qed.

(** C5, amended. The loop has no exit but the end of the body: the events of
    a text are those of any prefix of complete lines followed by those of
    the rest, whatever the prefix contained, and the line [data: [DONE]] is
    a parse failure that is logged and dropped. *)
Theorem decoding_continues_to_end_of_body
  (reads : list (list byte)) (pre post : jsstring) :
  Api.decoded_text (concat reads) = pre ++ post ->
  Api.at_line_boundary pre ->
  Api.decode_stream reads = Api.events_of_text pre ++ Api.events_of_text post
  /\ Api.process_line $"data: [DONE]" = [Api.ParseErrorLogged $"[DONE]"].
Proof.
  intros Htext Hpre. split.
  - rewrite decode_stream_events, Htext. apply events_after_boundary, Hpre.
  - vm_compute. reflexivity.
Qed.

Lemma decoding_continues_to_end_of_body_witness :
  Api.decode_stream late_message_sample =
    Api.events_of_text (#"data: {'type':'done','thread_id':'abc123'}" ++ [10])
    ++ Api.events_of_text (#"data: {'type':'message','content':'late'}" ++ [10])
  /\ Api.process_line $"data: [DONE]" = [Api.ParseErrorLogged $"[DONE]"].
Proof.
  apply (decoding_continues_to_end_of_body late_message_sample).
  - vm_compute. reflexivity.
  - right. eexists. reflexivity.
Defined.

(* ------------------------------------------------------------------ *)
(** * JSON.stringify and JSON.parse, one after the other *)
(* ------------------------------------------------------------------ *)

(** ** Decimal digits *)

Lemma digits_rev_fuel (f : nat) : forall (n : N) (g : nat),
  n < 2 ^ N.of_nat f -> (f <= g)%nat -> digits_rev (S g) n = digits_rev (S f) n.
Proof.
  induction f as [|f IH]; intros n g Hn Hg.
  - cbn in Hn. assert (n = 0) by lia. subst n. reflexivity.
  - destruct g as [|g]; [lia|].
    cbn [digits_rev]. destruct (n <? 10) eqn:E; [reflexivity|].
    apply N.ltb_ge in E. f_equal.
    change (digits_rev (S g) (n / 10) = digits_rev (S f) (n / 10)).
    apply IH; [|lia].
    rewrite Nat2N.inj_succ, N.pow_succ_r' in Hn.
    apply N.Div0.div_lt_upper_bound. lia.
Qed.

Lemma N_digits_eq (n : N) :
  N_digits n = if n <? 10 then [48 + n] else N_digits (n / 10) ++ [48 + n mod 10].
Proof.
  unfold N_digits. cbn [digits_rev]. destruct (n <? 10) eqn:E; [reflexivity|].
  apply N.ltb_ge in E. cbn [rev]. f_equal.
  destruct (N.to_nat (N.size n)) as [|f] eqn:Ef.
  - pose proof (N.size_gt n) as H. assert (N.size n = 0) by lia.
    rewrite H0 in H. cbn in H. lia.
  - f_equal. apply digits_rev_fuel.
    + pose proof (N.size_gt (n / 10)) as H. rewrite N2Nat.id. exact H.
    + assert (N.size (n / 10) < N.size n); [|lia].
      assert (Hn : n <> 0) by lia.
      assert (Hq : n / 10 <> 0).
      { assert (1 <= n / 10) by (apply N.div_le_lower_bound; lia). lia. }
      rewrite (N.size_log2 _ Hn), (N.size_log2 _ Hq).
      apply -> N.succ_lt_mono.
      assert (Hq0 : 0 < n / 10) by (apply N.neq_0_lt_0; exact Hq).
      apply (proj1 (N.log2_lt_pow2 (n / 10) (N.log2 n) Hq0)).
      assert (2 ^ N.log2 n <= n) by (apply N.log2_spec; lia).
      apply N.Div0.div_lt_upper_bound.
      assert (n < 2 ^ N.succ (N.log2 n)) by (apply N.log2_spec; lia).
      rewrite N.pow_succ_r' in H0. lia.
Qed.

(** Induction along the digits of a number. *)
Lemma digits_ind (P : N -> Prop) :
  (forall n, (10 <= n -> P (n / 10)) -> P n) -> forall n, P n.
Proof.
  intros Hstep.
  assert (G : forall (f : nat) (n : N), n < 2 ^ N.of_nat f -> P n).
  { induction f as [|f IH]; intros n Hn.
    - apply Hstep. cbn in Hn. lia.
    - apply Hstep. intros H10. apply IH.
      rewrite Nat2N.inj_succ, N.pow_succ_r' in Hn.
      apply N.Div0.div_lt_upper_bound. lia. }
  intros n. apply (G (N.to_nat (N.size n))). rewrite N2Nat.id. apply N.size_gt.
Qed.

Lemma digits_value_app (a b : jsstring) :
  digits_value (a ++ b) = fold_left (fun acc d => 10 * acc + (d - 48)) b (digits_value a).
Proof. unfold digits_value. apply fold_left_app. Qed.

Lemma digits_value_snoc (a : jsstring) (d : code_unit) :
  digits_value (a ++ [d]) = 10 * digits_value a + (d - 48).
Proof. rewrite digits_value_app. reflexivity. Qed.

Lemma digits_value_N_digits (n : N) : digits_value (N_digits n) = n.
Proof.
  induction n as [n IH] using digits_ind. rewrite N_digits_eq.
  destruct (n <? 10) eqn:E.
  - unfold digits_value. cbn [fold_left]. lia.
  - apply N.ltb_ge in E. rewrite digits_value_snoc, (IH E).
    pose proof (N.Div0.div_mod n 10). clear IH. dlia.
Qed.

Lemma N_digits_are_digits (n : N) : forallb is_digit (N_digits n) = true.
Proof.
  induction n as [n IH] using digits_ind. rewrite N_digits_eq.
  destruct (n <? 10) eqn:E.
  - apply N.ltb_lt in E. cbn [forallb]. unfold is_digit.
    rewrite andb_true_r. apply andb_true_intro. split; apply N.leb_le; lia.
  - apply N.ltb_ge in E. rewrite forallb_app, (IH E). cbn [forallb].
    unfold is_digit. rewrite andb_true_r. cbn [andb].
    pose proof (N.mod_lt n 10 ltac:(lia)).
    apply andb_true_intro. split; apply N.leb_le; dlia.
Qed.

(** No leading zero: the first digit is [0] for zero only. *)
Lemma N_digits_head (n : N) :
  exists d rest, N_digits n = d :: rest /\ (d = 48 -> n = 0 /\ rest = []).
Proof.
  induction n as [n IH] using digits_ind. rewrite N_digits_eq.
  destruct (n <? 10) eqn:E.
  - exists (48 + n), []. split; [reflexivity|]. intros H. split; [lia | reflexivity].
  - apply N.ltb_ge in E. destruct (IH E) as (d & rest & Hd & Hz).
    rewrite Hd. exists d, (rest ++ [48 + n mod 10]). split; [reflexivity|].
    intros H. destruct (Hz H) as [H0 _].
    assert (1 <= n / 10) by (apply N.div_le_lower_bound; lia). lia.
Qed.

Lemma N_digits_last (n : N) :
  exists front, N_digits n = front ++ [48 + n mod 10].
Proof.
  rewrite N_digits_eq. destruct (n <? 10) eqn:E.
  - apply N.ltb_lt in E. exists []. rewrite N.mod_small by lia. reflexivity.
  - eexists. reflexivity.
Qed.

Lemma N_digits_bound (n : N) : n < 10 ^ N.of_nat (length (N_digits n)).
Proof.
  induction n as [n IH] using digits_ind. rewrite N_digits_eq.
  destruct (n <? 10) eqn:E.
  - apply N.ltb_lt in E. cbn. lia.
  - apply N.ltb_ge in E. specialize (IH E).
    rewrite length_app. cbn [length]. rewrite Nat.add_1_r, Nat2N.inj_succ, N.pow_succ_r'.
    pose proof (N.Div0.div_mod n 10). pose proof (N.mod_lt n 10 ltac:(lia)). dlia.
Qed.

Lemma span_digits_app (ds rest : jsstring) :
  forallb is_digit ds = true ->
  match rest with [] => True | c :: _ => is_digit c = false end ->
  span_digits (ds ++ rest) = (ds, rest).
Proof.
  intros Hd Hr. induction ds as [|d ds IH]; cbn [app span_digits].
  - destruct rest as [|c rest]; [reflexivity|]. cbn [span_digits]. rewrite Hr. reflexivity.
  - cbn [forallb] in Hd. apply andb_prop in Hd. destruct Hd as [H1 H2].
    rewrite H1, (IH H2). reflexivity.
Qed.

Lemma digits_value_zero_head (l : jsstring) : digits_value (48 :: l) = digits_value l.
Proof. reflexivity. Qed.

Lemma digits_value_zeros (j : nat) (l : jsstring) :
  digits_value (zeros j ++ l) = digits_value l.
Proof. induction j as [|j IH]; [reflexivity|]. cbn [zeros repeat app]. exact IH. Qed.

Lemma digits_value_pos (k : jsstring) (c : code_unit) (r : jsstring) :
  forallb is_digit k = true -> k = c :: r -> c <> 48 -> 0 < digits_value k.
Proof.
  intros Hd -> Hc. revert Hd. induction r as [|x r IH] using rev_ind; intros Hd.
  - cbn in Hd. unfold is_digit in Hd. rewrite andb_true_r in Hd.
    apply andb_prop in Hd. destruct Hd as [H1 _]. apply N.leb_le in H1. cbn. lia.
  - rewrite app_comm_cons, digits_value_snoc.
    rewrite app_comm_cons, forallb_app in Hd. apply andb_prop in Hd.
    specialize (IH (proj1 Hd)). lia.
Qed.

Lemma canonical_N_digits (k : jsstring) : canonical k -> N_digits (digits_value k) = k.
Proof.
  intros [Hd Hc]. destruct Hc as [-> | (c & r & -> & Hc)]; [reflexivity|].
  revert Hd. induction r as [|x r IH] using rev_ind; intros Hd.
  - cbn in Hd. unfold is_digit in Hd. rewrite andb_true_r in Hd.
    apply andb_prop in Hd. destruct Hd as [H1 H2].
    apply N.leb_le in H1, H2. rewrite N_digits_eq.
    assert (E : digits_value [c] = c - 48) by (cbn; lia). rewrite E.
    assert (E2 : (c - 48 <? 10) = true) by (apply N.ltb_lt; lia). rewrite E2.
    f_equal. lia.
  - rewrite app_comm_cons, forallb_app in Hd. apply andb_prop in Hd.
    destruct Hd as [Hd Hx]. cbn [forallb] in Hx. rewrite andb_true_r in Hx.
    unfold is_digit in Hx. apply andb_prop in Hx. destruct Hx as [H1 H2].
    apply N.leb_le in H1, H2.
    pose proof (digits_value_pos (c :: r) c r Hd eq_refl Hc) as Hpos.
    rewrite app_comm_cons, digits_value_snoc, N_digits_eq.
    assert (E2 : (10 * digits_value (c :: r) + (x - 48) <? 10) = false)
      by (apply N.ltb_ge; lia).
    rewrite E2.
    assert (Eq : (10 * digits_value (c :: r) + (x - 48)) / 10 = digits_value (c :: r)).
    { symmetry. apply N.div_unique with (r := x - 48); lia. }
    assert (Em : (10 * digits_value (c :: r) + (x - 48)) mod 10 = x - 48).
    { symmetry. apply N.mod_unique with (q := digits_value (c :: r)); lia. }
    rewrite Eq, Em, (IH Hd). f_equal. f_equal. lia.
Qed.

(** ** Rounding *)

Lemma p52_pow : p52 = (2 ^ 52)%Z.
Proof. reflexivity. Qed.

Lemma p53_pow : p53 = (2 ^ 53)%Z.
Proof. reflexivity. Qed.

Lemma round_scaled_binary64 (neg : bool) (n den : Z) :
  (0 <= n)%Z -> (0 < den)%Z -> binary64 (round_scaled neg n den).
Proof.
  intros Hn Hden. unfold round_scaled.
  set (w := (n / den)%Z).
  set (e := Z.max emin (Z.log2 w - 1179)).
  set (d := (den * 2 ^ (e + 1127))%Z).
  set (q := (n / d)%Z). set (r := (n mod d)%Z).
  assert (He : (emin <= e)%Z) by apply Z.le_max_l.
  assert (HeL : (Z.log2 w - 1179 <= e)%Z) by apply Z.le_max_r.
  assert (He0 : (0 <= e + 1127)%Z) by (unfold emin in He; lia).
  assert (Hp : (0 < 2 ^ (e + 1127))%Z) by (apply Z.pow_pos_nonneg; lia).
  assert (Hd : (0 < d)%Z) by (unfold d; apply Z.mul_pos_pos; assumption).
  assert (Hw0 : (0 <= w)%Z) by (apply Z.div_pos; assumption).
  assert (Hq0 : (0 <= q)%Z) by (apply Z.div_pos; assumption).
  assert (Hr : (0 <= r < d)%Z) by (apply Z.mod_pos_bound; exact Hd).
  (* n < den * 2^(log2 w + 1) *)
  assert (Hw1 : (w < 2 ^ (Z.log2 w + 1))%Z).
  { destruct (Z.eq_dec w 0) as [E|E].
    - rewrite E. reflexivity.
    - apply Z.log2_spec. lia. }
  assert (Hn1 : (n < den * 2 ^ (Z.log2 w + 1))%Z).
  { pose proof (Z.mul_succ_div_gt n den Hden) as H. fold w in H.
    eapply Z.lt_le_trans; [exact H|].
    apply Z.mul_le_mono_nonneg_l; lia. }
  assert (HL : (0 <= Z.log2 w)%Z) by apply Z.log2_nonneg.
  (* q < 2^53 *)
  assert (Hq53 : (q < p53)%Z).
  { apply Z.div_lt_upper_bound; [exact Hd|].
    unfold d. rewrite p53_pow, <- Z.mul_assoc, <- Z.pow_add_r by lia.
    eapply Z.lt_le_trans; [exact Hn1|].
    apply Z.mul_le_mono_nonneg_l; [lia|].
    apply Z.pow_le_mono_r; lia. }
  (* above emin the leading place is kept *)
  assert (Hq52 : (emin < e -> p52 <= q)%Z).
  { intros Hlt. assert (Ee : e = (Z.log2 w - 1179)%Z) by (unfold e in *; lia).
    assert (Hwpos : (0 < w)%Z).
    { destruct (Z.eq_dec w 0) as [E|E]; [|lia].
      rewrite E in Ee. cbn in Ee. unfold emin in Hlt. lia. }
    apply Z.div_le_lower_bound; [exact Hd|].
    assert (Epow : (2 ^ Z.log2 w = 2 ^ 52 * 2 ^ (e + 1127))%Z)
      by (rewrite <- Z.pow_add_r by lia; f_equal; lia).
    assert (Eg : (d * p52 = den * 2 ^ Z.log2 w)%Z)
      by (unfold d; rewrite p52_pow, Epow; ring).
    rewrite Eg.
    assert (H2 : (2 ^ Z.log2 w <= w)%Z) by (apply Z.log2_spec; exact Hwpos).
    assert (H3 : (den * w <= n)%Z) by (apply Z.mul_div_le; exact Hden).
    eapply Z.le_trans; [|exact H3].
    apply Z.mul_le_mono_nonneg_l; lia. }
  set (m := if ((d <? 2 * r) || ((d =? 2 * r) && Z.odd q))%Z then (q + 1)%Z else q).
  assert (Hm : (q <= m <= q + 1)%Z).
  { unfold m. destruct ((d <? 2 * r) || ((d =? 2 * r) && Z.odd q))%Z; lia. }
  destruct (m =? 0)%Z eqn:E0; [left; split; reflexivity|].
  apply Z.eqb_neq in E0.
  destruct (m =? p53)%Z eqn:E53.
  - destruct (emax <? e + 1)%Z eqn:Ex; [exact I|].
    apply Z.ltb_ge in Ex. right. unfold finite64. left.
    rewrite Z2N.id by (unfold p52; lia).
    unfold p52, p53, emin, emax in *. lia.
  - apply Z.eqb_neq in E53.
    destruct (emax <? e)%Z eqn:Ex; [exact I|].
    apply Z.ltb_ge in Ex. right. unfold finite64. rewrite Z2N.id by lia.
    destruct (Z.eq_dec e emin) as [Ee|Ee].
    + destruct (Z_lt_le_dec m p52) as [Hlt|Hge].
      * right. split; [lia | exact Ee].
      * left. split; [lia|]. unfold emin, emax in *. lia.
    + left. split; [|lia]. specialize (Hq52 ltac:(lia)). lia.
Qed.

(** A binary64 value rounds to itself. *)
Lemma round_scaled_exact (neg : bool) (n den : Z) (m : N) (e : Z) :
  finite64 m e -> (0 < den)%Z ->
  n = (Z.of_N m * 2 ^ (e + 1127) * den)%Z ->
  round_scaled neg n den = Finite neg m e.
Proof.
  intros Hf Hden ->. unfold round_scaled.
  assert (Hm : (0 < Z.of_N m < p53)%Z /\ (emin <= e <= emax)%Z).
  { destruct Hf as [[H1 H2]|[H1 H2]]; unfold p52, p53, emin, emax in *; lia. }
  destruct Hm as [Hm He].
  assert (He0 : (0 <= e + 1127)%Z) by (unfold emin in He; lia).
  assert (Hp : (0 < 2 ^ (e + 1127))%Z) by (apply Z.pow_pos_nonneg; lia).
  rewrite Z.div_mul by lia.
  rewrite Z.log2_mul_pow2 by lia.
  assert (Ee : Z.max emin (e + 1127 + Z.log2 (Z.of_N m) - 1179) = e).
  { destruct Hf as [[H1 H2]|[H1 H2]].
    - assert (Z.log2 (Z.of_N m) = 52%Z).
      { apply Z.log2_unique; [lia|]. rewrite <- p52_pow.
        change (2 ^ Z.succ 52)%Z with p53. exact H1. }
      lia.
    - assert (Z.log2 (Z.of_N m) < 52)%Z.
      { apply Z.log2_lt_pow2; [lia|]. rewrite <- p52_pow. lia. }
      subst e. lia. }
  rewrite Ee.
  replace (Z.of_N m * 2 ^ (e + 1127) * den)%Z
    with (Z.of_N m * (den * 2 ^ (e + 1127)))%Z by ring.
  assert (Hd : (den * 2 ^ (e + 1127) <> 0)%Z) by (apply Z.neq_mul_0; lia).
  rewrite Z.div_mul by exact Hd. rewrite Z.mod_mul by exact Hd.
  assert (Hd0 : (0 < den * 2 ^ (e + 1127))%Z) by (apply Z.mul_pos_pos; lia).
  assert (E1 : (den * 2 ^ (e + 1127) <? 2 * 0)%Z = false) by (apply Z.ltb_ge; lia).
  assert (E2 : (den * 2 ^ (e + 1127) =? 2 * 0)%Z = false) by (apply Z.eqb_neq; lia).
  rewrite E1, E2. cbn [orb andb].
  assert (E3 : (Z.of_N m =? 0)%Z = false) by (apply Z.eqb_neq; lia).
  assert (E4 : (Z.of_N m =? p53)%Z = false) by (apply Z.eqb_neq; lia).
  assert (E5 : (emax <? e)%Z = false) by (apply Z.ltb_ge; lia).
  rewrite E3, E4, E5, N2Z.id. reflexivity.
Qed.

Lemma round_scaled_sign (neg : bool) (n den : Z) :
  round_scaled neg n den =
  match round_scaled false n den with
  | Finite _ m e => Finite neg m e
  | Infinity _ => Infinity neg
  | NaN => NaN
  end.
Proof.
  unfold round_scaled.
  repeat match goal with
         | |- context [if ?c then _ else _] => destruct c
         end; reflexivity.
Qed.

Lemma Dec_sign (neg : bool) (s : N) (x : Z) :
  Dec neg s x =
  match Dec false s x with
  | Finite _ m e => Finite neg m e
  | Infinity _ => Infinity neg
  | NaN => NaN
  end.
Proof.
  unfold Dec, round_ratio.
  destruct (s =? 0); [reflexivity|].
  destruct (310 <? _)%Z; [reflexivity|].
  destruct (_ <? -330)%Z; [reflexivity|].
  destruct (0 <=? x)%Z; apply round_scaled_sign.
Qed.

Lemma Dec_binary64 (neg : bool) (s : N) (x : Z) : binary64 (Dec neg s x).
Proof.
  unfold Dec, round_ratio.
  destruct (s =? 0); [left; split; reflexivity|].
  destruct (310 <? _)%Z; [exact I|].
  destruct (_ <? -330)%Z; [left; split; reflexivity|].
  destruct (0 <=? x)%Z eqn:E.
  - apply round_scaled_binary64; [|lia].
    apply Z.mul_nonneg_nonneg; [|apply Z.pow_nonneg; lia].
    apply Z.mul_nonneg_nonneg; [lia|]. apply Z.pow_nonneg. lia.
  - apply round_scaled_binary64.
    + apply Z.mul_nonneg_nonneg; [lia|]. apply Z.pow_nonneg. lia.
    + apply Z.pow_pos_nonneg; [lia|]. apply Z.leb_gt in E. lia.
Qed.

(** ** The shortest decimal of a number *)

Lemma N_digits_lower (n : N) :
  n <> 0 -> 10 ^ N.of_nat (pred (length (N_digits n))) <= n.
Proof.
  induction n as [n IH] using digits_ind. intros Hn. rewrite N_digits_eq.
  destruct (n <? 10) eqn:E.
  - cbn. lia.
  - apply N.ltb_ge in E.
    assert (Hq : 1 <= n / 10) by (apply N.div_le_lower_bound; lia).
    specialize (IH E ltac:(lia)).
    rewrite length_app. cbn [length]. rewrite Nat.add_1_r. cbn [pred].
    destruct (N_digits_head (n / 10)) as (d & rest & Hd & _).
    rewrite Hd in *. cbn [length pred] in *.
    rewrite Nat2N.inj_succ, N.pow_succ_r'.
    pose proof (N.Div0.div_mod n 10). dlia.
Qed.

Lemma strip10_spec (f : nat) : forall (s : N) (x : Z),
  s < 2 ^ N.of_nat f ->
  (x <= snd (strip10 f s x))%Z
  /\ (Z.of_N (fst (strip10 f s x)) * 10 ^ (snd (strip10 f s x) - x) = Z.of_N s)%Z
  /\ (0 <? fst (strip10 f s x)) && (fst (strip10 f s x) mod 10 =? 0) = false.
Proof.
  induction f as [|f IH]; intros s x Hs.
  - cbn in Hs. assert (s = 0) by lia. subst s. cbn [strip10 fst snd].
    rewrite Z.sub_diag. repeat split; try reflexivity; try lia.
  - cbn [strip10]. destruct ((0 <? s) && (s mod 10 =? 0)) eqn:E.
    + apply andb_prop in E. destruct E as [E1 E2].
      apply N.ltb_lt in E1. apply N.eqb_eq in E2.
      assert (Hq : s / 10 < 2 ^ N.of_nat f).
      { rewrite Nat2N.inj_succ, N.pow_succ_r' in Hs.
        apply N.Div0.div_lt_upper_bound. lia. }
      destruct (IH (s / 10) (x + 1)%Z Hq) as (H1 & H2 & H3).
      split; [lia|]. split; [|exact H3].
      replace (snd (strip10 f (s / 10) (x + 1)) - x)%Z
        with (Z.succ (snd (strip10 f (s / 10) (x + 1)) - (x + 1)))%Z by lia.
      rewrite Z.pow_succ_r by lia.
      pose proof (N.Div0.div_mod s 10) as Hdm. rewrite E2, N.add_0_r in Hdm.
      apply (f_equal Z.of_N) in Hdm. rewrite N2Z.inj_mul in Hdm.
      change (Z.of_N 10) with 10%Z in Hdm.
      rewrite Hdm, <- H2. ring.
    + cbn [fst snd]. rewrite Z.sub_diag, E. split; [lia|]. split; [|reflexivity].
      cbn. lia.
Qed.

Lemma stripped_spec (s : N) (x : Z) :
  (x <= snd (stripped s x))%Z
  /\ (Z.of_N (fst (stripped s x)) * 10 ^ (snd (stripped s x) - x) = Z.of_N s)%Z
  /\ (fst (stripped s x) <> 0 -> fst (stripped s x) mod 10 <> 0).
Proof.
  unfold stripped.
  destruct (strip10_spec (N.to_nat (N.size s)) s x) as (H1 & H2 & H3).
  { rewrite N2Nat.id. apply N.size_gt. }
  split; [exact H1|]. split; [exact H2|].
  intros Hne E. rewrite E, N.eqb_refl, andb_true_r in H3.
  apply N.ltb_ge in H3. lia.
Qed.

Lemma number_eqb_eq (a b : number) : number_eqb a b = true -> a = b.
Proof.
  destruct a as [|s|s m e], b as [|t|t n f]; cbn [number_eqb]; try discriminate.
  - reflexivity.
  - intros H. apply Bool.eqb_prop in H. congruence.
  - intros H. apply andb_prop in H. destruct H as [H H3].
    apply andb_prop in H. destruct H as [H1 H2].
    apply Bool.eqb_prop in H1. apply N.eqb_eq in H2. apply Z.eqb_eq in H3.
    congruence.
Qed.

(** Two bounds on the finite numbers: below [10^309], above [10^-324]. *)
Lemma above_any_finite : (2 ^ 2151 * 10 ^ 1074 <= 10 ^ 1384 * 2 ^ 1127)%Z.
Proof. vm_compute. discriminate. Qed.

Lemma below_any_finite : (10 ^ 744 * 2 ^ 1127 <= 2 ^ 53 * 10 ^ 1074)%Z.
Proof. vm_compute. discriminate. Qed.

Lemma finite64_bounds (m : N) (e : Z) :
  finite64 m e -> (0 < Z.of_N m < p53)%Z /\ (emin <= e <= emax)%Z.
Proof.
  intros [[H1 H2]|[H1 H2]]; unfold p52, p53, emin, emax in *; lia.
Qed.

Lemma Dec_exact (neg : bool) (s : N) (x : Z) (m : N) (e : Z) :
  finite64 m e -> (-1074 <= x)%Z -> same_value s x m e ->
  Dec neg s x = Finite neg m e.
Proof.
  intros Hf Hx Hv. destruct (finite64_bounds m e Hf) as [Hm He].
  unfold same_value in Hv.
  set (A := (2 ^ 1127)%Z) in *. set (B := (10 ^ 1074)%Z) in *.
  assert (HA : (0 < A)%Z) by (apply Z.pow_pos_nonneg; lia).
  assert (HB : (0 < B)%Z) by (apply Z.pow_pos_nonneg; lia).
  assert (HT : (0 < 10 ^ (x + 1074))%Z) by (apply Z.pow_pos_nonneg; lia).
  assert (HE : (0 < 2 ^ (e + 1127))%Z)
    by (apply Z.pow_pos_nonneg; unfold emin in He; lia).
  assert (Hs : s <> 0).
  { intros ->. change (Z.of_N 0) with 0%Z in Hv. rewrite !Z.mul_0_l in Hv.
    symmetry in Hv. apply Z.eq_mul_0 in Hv. destruct Hv as [Hv|Hv]; [|lia].
    apply Z.eq_mul_0 in Hv. lia. }
  unfold Dec. apply N.eqb_neq in Hs. rewrite Hs. apply N.eqb_neq in Hs.
  set (len := length (N_digits s)).
  pose proof (N_digits_bound s) as Hup. fold len in Hup.
  pose proof (N_digits_lower s Hs) as Hlo. fold len in Hlo.
  assert (Hlen : (1 <= len)%nat).
  { unfold len. destruct (N_digits_head s) as (d & rest & Hd & _). rewrite Hd.
    cbn [length]. lia. }
  apply N2Z.inj_lt in Hup. apply N2Z.inj_le in Hlo.
  rewrite N2Z.inj_pow in Hup, Hlo. change (Z.of_N 10) with 10%Z in Hup, Hlo.
  rewrite nat_N_Z in Hup, Hlo.
  (* the two bounds do not apply *)
  assert (G1 : (310 <? Z.of_nat len + x)%Z = false).
  { apply Z.ltb_ge. apply Z.nlt_ge. intros Hbig.
    assert (H1 : (10 ^ 1384 * A <= Z.of_N s * 10 ^ (x + 1074) * A)%Z).
    { apply Z.mul_le_mono_nonneg_r; [lia|].
      eapply Z.le_trans.
      2:{ apply Z.mul_le_mono_nonneg_r; [lia | exact Hlo]. }
      rewrite <- Z.pow_add_r by lia.
      apply Z.pow_le_mono_r; lia. }
    assert (H2 : (Z.of_N m * 2 ^ (e + 1127) * B < 2 ^ 2151 * B)%Z).
    { apply Z.mul_lt_mono_pos_r; [exact HB|].
      change (2 ^ 2151)%Z with (p53 * 2 ^ 2098)%Z.
      apply Z.lt_le_trans with (p53 * 2 ^ (e + 1127))%Z.
      - apply Z.mul_lt_mono_pos_r; lia.
      - apply Z.mul_le_mono_nonneg_l; [unfold p53; lia|].
        apply Z.pow_le_mono_r; unfold emin, emax in He; lia. }
    pose proof above_any_finite as H3. fold A B in H3. lia. }
  assert (G2 : (Z.of_nat len + x <? -330)%Z = false).
  { apply Z.ltb_ge. apply Z.nlt_ge. intros Hsmall.
    assert (H1 : (Z.of_N s * 10 ^ (x + 1074) * A < 10 ^ 744 * A)%Z).
    { apply Z.mul_lt_mono_pos_r; [exact HA|].
      apply Z.lt_le_trans with (10 ^ Z.of_nat len * 10 ^ (x + 1074))%Z.
      - apply Z.mul_lt_mono_pos_r; lia.
      - rewrite <- Z.pow_add_r by lia. apply Z.pow_le_mono_r; lia. }
    assert (H2 : (2 ^ 53 * B <= Z.of_N m * 2 ^ (e + 1127) * B)%Z).
    { apply Z.mul_le_mono_nonneg_r; [lia|].
      apply Z.le_trans with (1 * 2 ^ (e + 1127))%Z.
      - rewrite Z.mul_1_l. apply Z.pow_le_mono_r; unfold emin in He; lia.
      - apply Z.mul_le_mono_nonneg_r; lia. }
    pose proof below_any_finite as H3. fold A B in H3. lia. }
  fold len. rewrite G1, G2. unfold round_ratio. fold A.
  destruct (0 <=? x)%Z eqn:E0.
  - apply Z.leb_le in E0. apply round_scaled_exact; [exact Hf | lia|].
    rewrite Z.mul_1_r.
    rewrite Z.pow_add_r in Hv by lia. fold B in Hv.
    apply (Z.mul_reg_r _ _ B); [lia|]. rewrite <- Hv. ring.
  - apply Z.leb_gt in E0. apply round_scaled_exact; [exact Hf | |].
    + apply Z.pow_pos_nonneg; lia.
    + assert (EB : B = (10 ^ (x + 1074) * 10 ^ (- x))%Z).
      { unfold B. rewrite <- Z.pow_add_r by lia. f_equal. lia. }
      rewrite EB in Hv.
      apply (Z.mul_reg_r _ _ (10 ^ (x + 1074))%Z); [lia|].
      transitivity (Z.of_N s * 10 ^ (x + 1074) * A)%Z; [ring|].
      rewrite Hv. ring.
Qed.

Lemma exact_decimal_spec (m : N) (e : Z) :
  (emin <= e)%Z ->
  (-1074 <= snd (exact_decimal m e))%Z
  /\ same_value (fst (exact_decimal m e)) (snd (exact_decimal m e)) m e.
Proof.
  intros He. unfold exact_decimal, same_value, emin in *.
  destruct (0 <=? e)%Z eqn:E; cbn [fst snd].
  - apply Z.leb_le in E. split; [lia|].
    rewrite N2Z.inj_mul, N2Z.inj_pow, Z2N.id by lia. change (Z.of_N 2) with 2%Z.
    rewrite (Z.pow_add_r 2 e 1127) by lia. change (0 + 1074)%Z with 1074%Z.
    set (A := (2 ^ 1127)%Z). set (B := (10 ^ 1074)%Z). ring.
  - apply Z.leb_gt in E. split; [lia|].
    rewrite N2Z.inj_mul, N2Z.inj_pow, Z2N.id by lia. change (Z.of_N 5) with 5%Z.
    assert (EB : (10 ^ 1074 = 10 ^ (e + 1074) * (2 ^ (- e) * 5 ^ (- e)))%Z).
    { rewrite <- Z.pow_mul_l. change (2 * 5)%Z with 10%Z.
      rewrite <- Z.pow_add_r by lia. f_equal. lia. }
    assert (EA : (2 ^ 1127 = 2 ^ (e + 1127) * 2 ^ (- e))%Z).
    { rewrite <- Z.pow_add_r by lia. f_equal. lia. }
    rewrite EB, EA. ring.
Qed.

Lemma same_value_stripped (s : N) (x : Z) (m : N) (e : Z) :
  (-1074 <= x)%Z -> same_value s x m e ->
  same_value (fst (stripped s x)) (snd (stripped s x)) m e.
Proof.
  intros Hx Hv. destruct (stripped_spec s x) as (H1 & H2 & _).
  unfold same_value in *. rewrite <- Hv, <- H2.
  replace (snd (stripped s x) + 1074)%Z
    with ((snd (stripped s x) - x) + (x + 1074))%Z by lia.
  rewrite Z.pow_add_r by lia. ring.
Qed.

Lemma reads_back_spec (m : N) (e : Z) (t : N) (x : Z) :
  m <> 0 -> reads_back m e (stripped t x) = true -> shortest_of m e (stripped t x).
Proof.
  intros Hm Hok. unfold reads_back in Hok. apply number_eqb_eq in Hok.
  assert (Hs : fst (stripped t x) <> 0).
  { intros E. rewrite E in Hok. unfold Dec in Hok. cbn in Hok. congruence. }
  split; [exact Hs|]. split; [|exact Hok].
  apply (proj2 (proj2 (stripped_spec t x))). exact Hs.
Qed.

Lemma candidate_spec (m : N) (e n k : Z) (c : N * Z) :
  m <> 0 -> candidate m e n k = Some c -> shortest_of m e c.
Proof.
  intros Hm. unfold candidate.
  set (x := (n - k)%Z). set (P := (_ * _ * _)%Z). set (Q := (_ * _)%Z).
  set (lo := Z.to_N (P / Q)).
  destruct (reads_back m e (stripped lo x)) eqn:Elo;
    destruct (reads_back m e (stripped (lo + 1) x)) eqn:Ehi.
  - destruct (2 * (P mod Q) <? Q)%Z;
      [intros H; injection H as <-; apply reads_back_spec; assumption|].
    destruct (Q <? 2 * (P mod Q))%Z;
      [intros H; injection H as <-; apply reads_back_spec; assumption|].
    destruct (N.even lo); intros H; injection H as <-;
      apply reads_back_spec; assumption.
  - intros H; injection H as <-; apply reads_back_spec; assumption.
  - intros H; injection H as <-; apply reads_back_spec; assumption.
  - discriminate.
Qed.

Lemma search_spec (fuel : nat) (m : N) (e n : Z) (exact : N * Z) :
  m <> 0 -> shortest_of m e exact ->
  forall k, shortest_of m e (search fuel m e n k exact).
Proof.
  intros Hm Hex. induction fuel as [|f IH]; intros k; cbn [search]; [exact Hex|].
  destruct (candidate m e n k) as [c|] eqn:E; [|apply IH].
  eapply candidate_spec; eassumption.
Qed.

Lemma shortest_spec (m : N) (e : Z) :
  finite64 m e -> shortest_of m e (shortest m e).
Proof.
  intros Hf. destruct (finite64_bounds m e Hf) as [Hm He].
  unfold shortest.
  destruct (exact_decimal_spec m e (proj1 He)) as [Hx Hv].
  destruct (exact_decimal m e) as [S X]. cbn [fst snd] in *.
  apply search_spec; [lia|].
  pose proof (same_value_stripped S X m e Hx Hv) as Hv'.
  destruct (stripped_spec S X) as (H1 & H2 & H3).
  assert (Hd : Dec false (fst (stripped S X)) (snd (stripped S X)) = Finite false m e)
    by (apply Dec_exact; [exact Hf | lia | exact Hv']).
  assert (Hs : fst (stripped S X) <> 0).
  { intros E. rewrite E in Hd. unfold Dec in Hd. cbn in Hd. injection Hd as Hd _.
    lia. }
  split; [exact Hs|]. split; [apply H3, Hs | exact Hd].
Qed.

(** ** The text of a number *)

Lemma number_end_digit (rest : jsstring) :
  number_end rest -> match rest with [] => True | c :: _ => is_digit c = false end.
Proof. destruct rest; [trivial|]. intros H. apply H. Qed.

Lemma parse_fraction_none (rest : jsstring) :
  number_end rest -> parse_fraction rest = Some ([], rest).
Proof.
  destruct rest as [|c r]; [reflexivity|]. intros (_ & H & _).
  unfold parse_fraction. cbn [eat]. apply N.eqb_neq in H. rewrite H. reflexivity.
Qed.

Lemma parse_fraction_some (frac rest : jsstring) :
  frac <> [] -> forallb is_digit frac = true ->
  match rest with [] => True | c :: _ => is_digit c = false end ->
  parse_fraction (46 :: frac ++ rest) = Some (frac, rest).
Proof.
  intros Hne Hd Hr. unfold parse_fraction. cbn [eat]. rewrite N.eqb_refl.
  rewrite (span_digits_app _ _ Hd Hr). destruct frac; [congruence | reflexivity].
Qed.

Lemma parse_exponent_none (rest : jsstring) :
  number_end rest -> parse_exponent rest = Some (0%Z, rest).
Proof.
  destruct rest as [|c r]; [reflexivity|]. intros (_ & _ & H1 & H2).
  unfold parse_exponent. apply N.eqb_neq in H1, H2. rewrite H1, H2. reflexivity.
Qed.

Lemma N_digits_nonempty (n : N) : N_digits n <> [].
Proof. destruct (N_digits_head n) as (d & r & H & _). rewrite H. discriminate. Qed.

Lemma parse_exponent_some (x : Z) (rest : jsstring) :
  number_end rest ->
  parse_exponent ($"e" ++ (if (x <? 0)%Z then $"-" else $"+")
                  ++ N_digits (Z.abs_N x) ++ rest) = Some (x, rest).
Proof.
  intros Hr. apply number_end_digit in Hr.
  change ($"e") with [101]. cbn [app]. unfold parse_exponent.
  cbn [N.eqb Pos.eqb orb].
  destruct (x <? 0)%Z eqn:E.
  - change ($"-") with [45]. cbn [app eat_sign N.eqb Pos.eqb].
    rewrite (span_digits_app _ _ (N_digits_are_digits _) Hr).
    pose proof (N_digits_nonempty (Z.abs_N x)) as Hne.
    destruct (N_digits (Z.abs_N x)) eqn:Ed; [congruence|]. rewrite <- Ed.
    rewrite digits_value_N_digits. apply Z.ltb_lt in E.
    rewrite N2Z.inj_abs_N. do 2 f_equal. lia.
  - change ($"+") with [43]. cbn [app eat_sign N.eqb Pos.eqb andb].
    rewrite (span_digits_app _ _ (N_digits_are_digits _) Hr).
    pose proof (N_digits_nonempty (Z.abs_N x)) as Hne.
    destruct (N_digits (Z.abs_N x)) eqn:Ed; [congruence|]. rewrite <- Ed.
    rewrite digits_value_N_digits. apply Z.ltb_ge in E.
    rewrite N2Z.inj_abs_N. do 2 f_equal. lia.
Qed.

Lemma digits_value_app_zeros (l : jsstring) (j : nat) :
  digits_value (l ++ zeros j) = digits_value l * 10 ^ N.of_nat j.
Proof.
  induction j as [|j IH].
  - cbn [zeros repeat]. rewrite app_nil_r. cbn. lia.
  - replace (zeros (S j)) with (zeros j ++ [48]).
    2:{ unfold zeros. symmetry. apply repeat_cons. }
    rewrite app_assoc, digits_value_snoc, IH, Nat2N.inj_succ, N.pow_succ_r'. lia.
Qed.

Lemma leading_zeros_zeros (j : nat) (d : code_unit) (l : jsstring) :
  d <> 48 -> leading_zeros (zeros j ++ d :: l) = j.
Proof.
  intros Hd. induction j as [|j IH]; cbn [zeros repeat app leading_zeros].
  - apply N.eqb_neq in Hd. rewrite Hd. reflexivity.
  - rewrite N.eqb_refl. f_equal. exact IH.
Qed.

Lemma rev_zeros (j : nat) : rev (zeros j) = zeros j.
Proof.
  unfold zeros. induction j as [|j IH]; [reflexivity|].
  cbn [repeat rev]. rewrite IH. symmetry. apply repeat_cons.
Qed.

Lemma skipn_zeros (j : nat) (l : jsstring) : skipn j (zeros j ++ l) = l.
Proof. induction j as [|j IH]; [reflexivity|]. exact IH. Qed.

(** Zeros around the digits of a decimal go into its exponent. *)
Lemma mk_number_digits (neg : bool) (s : N) (i j : nat) (x : Z) :
  s <> 0 -> s mod 10 <> 0 ->
  mk_number neg (zeros i ++ N_digits s ++ zeros j) x = Dec neg s (x + Z.of_nat j).
Proof.
  intros Hs Hm. unfold mk_number.
  assert (Ev : digits_value (zeros i ++ N_digits s ++ zeros j) = s * 10 ^ N.of_nat j).
  { rewrite digits_value_zeros, digits_value_app_zeros, digits_value_N_digits.
    reflexivity. }
  rewrite Ev.
  assert (E0 : (s * 10 ^ N.of_nat j =? 0) = false).
  { apply N.eqb_neq. intros H. apply N.eq_mul_0 in H. destruct H as [H|H]; [lia|].
    apply N.pow_nonzero in H; [exact H | lia]. }
  rewrite E0.
  destruct (N_digits_last s) as [front Hf].
  rewrite !rev_app_distr, rev_zeros, rev_zeros, Hf, rev_app_distr.
  cbn [rev app]. rewrite <- app_assoc. cbn [app].
  rewrite leading_zeros_zeros by lia.
  rewrite skipn_zeros.
  change ((48 + s mod 10) :: rev front ++ zeros i)
    with (((48 + s mod 10) :: rev front) ++ zeros i).
  rewrite rev_app_distr, rev_zeros. cbn [rev]. rewrite rev_involutive, <- Hf.
  rewrite digits_value_zeros, digits_value_N_digits. reflexivity.
Qed.

Lemma forallb_firstn (n : nat) (l : jsstring) :
  forallb is_digit l = true -> forallb is_digit (firstn n l) = true.
Proof.
  revert n. induction l as [|c l IH]; intros [|n] H; cbn [firstn forallb] in *;
    try reflexivity.
  apply andb_prop in H. destruct H as [H1 H2]. rewrite H1, (IH n H2). reflexivity.
Qed.

Lemma forallb_skipn (n : nat) (l : jsstring) :
  forallb is_digit l = true -> forallb is_digit (skipn n l) = true.
Proof.
  revert n. induction l as [|c l IH]; intros [|n] H; cbn [skipn forallb] in *;
    try reflexivity; try exact H.
  apply andb_prop in H. apply IH, H.
Qed.

Lemma forallb_zeros (j : nat) : forallb is_digit (zeros j) = true.
Proof. induction j as [|j IH]; [reflexivity|]. exact IH. Qed.

Lemma parse_number_digit (neg : bool) (d0 : code_unit) (body : jsstring) :
  is_digit d0 = true ->
  parse_number ((if neg then $"-" else []) ++ d0 :: body)
  = let (int, s2) := if d0 =? 48 then ([48], body) else span_digits (d0 :: body) in
    match parse_fraction s2 with
    | None => None
    | Some (f, s3) =>
        match parse_exponent s3 with
        | None => None
        | Some (ex, s4) =>
            Some (mk_number neg (int ++ f) (ex - Z.of_nat (length f)), s4)
        end
    end.
Proof.
  intros Hdig.
  assert (H45 : (d0 =? 45) = false).
  { apply N.eqb_neq. intros ->. discriminate Hdig. }
  unfold parse_number. destruct neg.
  - change ($"-") with [45]. cbn [app eat_sign N.eqb Pos.eqb]. rewrite Hdig.
    reflexivity.
  - cbn [app eat_sign andb]. rewrite H45, Hdig. reflexivity.
Qed.

Lemma mk_number_plain (neg : bool) (s : N) (x : Z) :
  s <> 0 -> s mod 10 <> 0 -> mk_number neg (N_digits s) x = Dec neg s x.
Proof.
  intros Hs Hm.
  pose proof (mk_number_digits neg s 0 0 x Hs Hm) as H.
  cbn [zeros repeat app] in H. rewrite app_nil_r, Z.add_0_r in H. exact H.
Qed.

(** A decimal text reads as its decimal. *)
Lemma decimal_text_parses (neg : bool) (s : N) (x : Z) (rest : jsstring) :
  s <> 0 -> s mod 10 <> 0 -> number_end rest ->
  parse_number ((if neg then $"-" else [])
                ++ decimal_text (N_digits s) (Z.of_nat (length (N_digits s)) + x)
                ++ rest)
  = Some (Dec neg s x, rest).
Proof.
  intros Hs Hm Hr.
  pose proof (N_digits_are_digits s) as Hd.
  destruct (N_digits_head s) as (d0 & ds' & Hds & Hz).
  assert (Hd0 : d0 <> 48) by (intros E; destruct (Hz E); contradiction).
  assert (Hdig0 : is_digit d0 = true).
  { rewrite Hds in Hd. cbn [forallb] in Hd. apply andb_prop in Hd. apply Hd. }
  assert (Hdig' : forallb is_digit ds' = true).
  { rewrite Hds in Hd. cbn [forallb] in Hd. apply andb_prop in Hd. apply Hd. }
  pose proof (number_end_digit _ Hr) as Hrd.
  assert (E48 : (d0 =? 48) = false) by (apply N.eqb_neq; exact Hd0).
  set (k := Z.of_nat (length (N_digits s))).
  set (n := (k + x)%Z).
  assert (Hk : k = Z.of_nat (S (length ds'))) by (unfold k; rewrite Hds; reflexivity).
  unfold decimal_text. fold k.
  destruct ((k <=? n) && (n <=? 21))%Z eqn:B1.
  { (* digits, then zeros *)
    apply andb_prop in B1. destruct B1 as [B1 _]. apply Z.leb_le in B1.
    rewrite Hds.
    reshape parse_number
      ((if neg then $"-" else [])
       ++ d0 :: (ds' ++ zeros (Z.to_nat (n - k))) ++ rest).
    rewrite (parse_number_digit _ _ _ Hdig0), E48.
    reshape span_digits ((d0 :: ds' ++ zeros (Z.to_nat (n - k))) ++ rest).
    rewrite span_digits_app; [| |exact Hrd].
    2:{ rewrite app_comm_cons, forallb_app, forallb_zeros. cbn [forallb].
        rewrite Hdig0, Hdig'. reflexivity. }
    rewrite (parse_fraction_none _ Hr), (parse_exponent_none _ Hr).
    rewrite app_nil_r, app_comm_cons, <- Hds.
    pose proof (mk_number_digits neg s 0 (Z.to_nat (n - k)) (0 - Z.of_nat (length (@nil N)))
                  Hs Hm) as H.
    cbn [zeros repeat app] in H. fold (zeros (Z.to_nat (n - k))) in H. rewrite H.
    unfold n in *. cbn [length]. same_exponent. }
  destruct ((0 <? n) && (n <=? 21))%Z eqn:B2.
  { (* a point inside the digits *)
    apply andb_prop in B2. destruct B2 as [B2 B2']. apply Z.ltb_lt in B2.
    apply Z.leb_le in B2'.
    assert (Hnk : (n < k)%Z).
    { apply andb_false_iff in B1. destruct B1 as [B1|B1].
      - apply Z.leb_gt in B1. exact B1.
      - apply Z.leb_gt in B1. lia. }
    destruct (Z.to_nat n) as [|n'] eqn:En; [lia|].
    change ($".") with [46].
    assert (Hlen : (n' < length ds')%nat) by lia.
    assert (Hsk : skipn (S n') (N_digits s) = skipn n' ds')
      by (rewrite Hds; reflexivity).
    assert (Hfi : firstn (S n') (N_digits s) = d0 :: firstn n' ds')
      by (rewrite Hds; reflexivity).
    rewrite Hsk, Hfi.
    reshape parse_number
      ((if neg then $"-" else [])
       ++ d0 :: firstn n' ds' ++ 46 :: skipn n' ds' ++ rest).
    rewrite (parse_number_digit _ _ _ Hdig0), E48.
    reshape span_digits ((d0 :: firstn n' ds') ++ 46 :: skipn n' ds' ++ rest).
    rewrite span_digits_app; [| |reflexivity].
    2:{ cbn [forallb]. rewrite Hdig0. apply forallb_firstn, Hdig'. }
    rewrite parse_fraction_some; [| |apply forallb_skipn, Hdig' | exact Hrd].
    2:{ intros E. apply (f_equal (@length _)) in E. rewrite length_skipn in E.
        cbn [length] in E. lia. }
    rewrite (parse_exponent_none _ Hr).
    replace ((d0 :: firstn n' ds') ++ skipn n' ds') with (N_digits s)
      by (rewrite Hds; cbn [app]; rewrite firstn_skipn; reflexivity).
    rewrite (mk_number_plain neg s _ Hs Hm).
    rewrite length_skipn. unfold n in *. same_exponent. }
  destruct ((-6 <? n) && (n <=? 0))%Z eqn:B3.
  { (* zeros after the point *)
    apply andb_prop in B3. destruct B3 as [_ B3]. apply Z.leb_le in B3.
    change ($"0.") with [48; 46].
    reshape parse_number
      ((if neg then $"-" else [])
       ++ 48 :: 46 :: (zeros (Z.to_nat (- n)) ++ N_digits s) ++ rest).
    rewrite (parse_number_digit neg 48 _ eq_refl). rewrite N.eqb_refl.
    rewrite parse_fraction_some; [| | |exact Hrd].
    2:{ rewrite Hds. destruct (zeros (Z.to_nat (- n))); discriminate. }
    2:{ rewrite forallb_app, forallb_zeros, Hd. reflexivity. }
    rewrite (parse_exponent_none _ Hr).
    pose proof (mk_number_digits neg s (S (Z.to_nat (- n))) 0
                  (0 - Z.of_nat (length (zeros (Z.to_nat (- n)) ++ N_digits s)))
                  Hs Hm) as H.
    cbn [zeros repeat app] in H. fold (zeros (Z.to_nat (- n))) in H.
    rewrite app_nil_r in H. cbn [app]. rewrite H.
    rewrite length_app. unfold zeros at 1. rewrite repeat_length.
    unfold n, k in *. same_exponent. }
  (* the exponent form *)
  rewrite Hds.
  destruct ds' as [|d1 ds''].
  - reshape parse_number
      ((if neg then $"-" else [])
       ++ d0 :: $"e" ++ (if (n - 1 <? 0)%Z then $"-" else $"+")
                     ++ N_digits (Z.abs_N (n - 1)) ++ rest).
    rewrite (parse_number_digit _ _ _ Hdig0), E48.
    reshape span_digits
      ([d0] ++ $"e" ++ (if (n - 1 <? 0)%Z then $"-" else $"+")
                    ++ N_digits (Z.abs_N (n - 1)) ++ rest).
    rewrite span_digits_app; [| |reflexivity].
    2:{ cbn [forallb]. rewrite Hdig0. reflexivity. }
    assert (Hpf : forall t, parse_fraction ($"e" ++ t) = Some ([], $"e" ++ t))
      by reflexivity.
    rewrite Hpf, (parse_exponent_some (n - 1) rest Hr).
    rewrite app_nil_r, <- Hds, (mk_number_plain neg s _ Hs Hm).
    unfold n in *. cbn [length] in *. same_exponent.
  - change ($".") with [46].
    reshape parse_number
      ((if neg then $"-" else [])
       ++ d0 :: 46 :: (d1 :: ds'')
                      ++ $"e" ++ (if (n - 1 <? 0)%Z then $"-" else $"+")
                      ++ N_digits (Z.abs_N (n - 1)) ++ rest).
    rewrite (parse_number_digit _ _ _ Hdig0), E48.
    reshape span_digits
      ([d0] ++ 46 :: (d1 :: ds'')
                     ++ $"e" ++ (if (n - 1 <? 0)%Z then $"-" else $"+")
                     ++ N_digits (Z.abs_N (n - 1)) ++ rest).
    rewrite span_digits_app; [| |reflexivity].
    2:{ cbn [forallb]. rewrite Hdig0. reflexivity. }
    rewrite parse_fraction_some; [|discriminate|exact Hdig'|reflexivity].
    rewrite (parse_exponent_some (n - 1) rest Hr).
    change ([d0] ++ d1 :: ds'') with (d0 :: d1 :: ds''). rewrite <- Hds.
    rewrite (mk_number_plain neg s _ Hs Hm).
    unfold n in *. cbn [length] in *. same_exponent.
Qed.

Lemma number_text_parses (neg : bool) (m : N) (e : Z) (rest : jsstring) :
  binary64 (Finite neg m e) -> number_end rest ->
  parse_number (number_to_string (Finite neg m e) ++ rest)
  = Some (printed_number (Finite neg m e), rest).
Proof.
  intros Hb Hr. cbn [number_to_string].
  destruct (m =? 0) eqn:E0.
  - apply N.eqb_eq in E0. subst m. cbn [printed_number].
    pose proof (parse_number_digit false 48 rest eq_refl) as H. cbn [app] in H.
    change ($"0" ++ rest) with (48 :: rest). rewrite H, N.eqb_refl.
    rewrite (parse_fraction_none _ Hr), (parse_exponent_none _ Hr). reflexivity.
  - apply N.eqb_neq in E0.
    assert (Hf : finite64 m e) by (destruct Hb as [[H _]|H]; [contradiction | exact H]).
    destruct (shortest_spec m e Hf) as (Hs & Hm & Hd).
    destruct (shortest m e) as [s x]. cbn [fst snd] in *.
    rewrite <- app_assoc, (decimal_text_parses neg s x rest Hs Hm Hr).
    rewrite Dec_sign, Hd. destruct m; [contradiction | reflexivity].
Qed.

(** ** The text of a string *)

Lemma hex_value_digit (n : N) : n < 16 -> hex_value (hex_digit n) = Some n.
Proof.
  intros H. unfold hex_digit, hex_value, is_digit.
  destruct (n <? 10) eqn:E.
  - apply N.ltb_lt in E.
    assert (E1 : (48 <=? 48 + n) = true) by (apply N.leb_le; lia).
    assert (E2 : (48 + n <=? 57) = true) by (apply N.leb_le; lia).
    rewrite E1, E2. cbn [andb]. f_equal. lia.
  - apply N.ltb_ge in E.
    assert (E1 : (87 + n <=? 57) = false) by (apply N.leb_gt; lia).
    assert (E2 : (97 <=? 87 + n) = true) by (apply N.leb_le; lia).
    assert (E3 : (87 + n <=? 102) = true) by (apply N.leb_le; lia).
    rewrite E1, andb_false_r, E2, E3. cbn [andb]. f_equal. lia.
Qed.

Lemma hex4_escape (c : code_unit) :
  c < 65536 ->
  hex4 (hex_digit (N.shiftr c 12 mod 16)) (hex_digit (N.shiftr c 8 mod 16))
       (hex_digit (N.shiftr c 4 mod 16)) (hex_digit (c mod 16)) = Some c.
Proof.
  intros Hc. unfold hex4.
  rewrite !hex_value_digit by (apply N.mod_lt; lia).
  f_equal. rewrite !N.shiftr_div_pow2.
  change (2 ^ 12) with 4096. change (2 ^ 8) with 256. change (2 ^ 4) with 16.
  assert (H1 : c / 256 / 16 = c / 4096) by (rewrite N.Div0.div_div; reflexivity).
  assert (H2 : c / 16 / 16 = c / 256) by (rewrite N.Div0.div_div; reflexivity).
  pose proof (N.Div0.div_mod c 16) as D0.
  pose proof (N.Div0.div_mod (c / 16) 16) as D1. rewrite H2 in D1.
  pose proof (N.Div0.div_mod (c / 256) 16) as D2. rewrite H1 in D2.
  assert (H3 : c / 4096 < 16) by (apply N.Div0.div_lt_upper_bound; lia).
  rewrite (N.mod_small (c / 4096) 16 H3).
  dlia.
Qed.

Lemma string_body_escape (c : code_unit) (tail : jsstring) :
  c < 65536 ->
  string_body (unicode_escape c ++ tail) =
  match string_body tail with
  | Some (body, after) => Some (c :: body, after)
  | None => None
  end.
Proof.
  intros Hc. unfold unicode_escape. change ($"\u") with [92; 117].
  cbn [app string_body N.eqb Pos.eqb]. rewrite (hex4_escape c Hc). reflexivity.
Qed.

Lemma string_body_plain (c : code_unit) (tail : jsstring) :
  c <> 34 -> c <> 92 -> 32 <= c ->
  string_body (c :: tail) =
  match string_body tail with
  | Some (body, after) => Some (c :: body, after)
  | None => None
  end.
Proof.
  intros H1 H2 H3. cbn [string_body].
  apply N.eqb_neq in H1, H2. rewrite H1, H2.
  assert (E : (c <? 32) = false) by (apply N.ltb_ge; exact H3). rewrite E.
  reflexivity.
Qed.

Lemma string_body_unit (c : code_unit) (tail : jsstring) :
  is_high_surrogate c = false -> is_low_surrogate c = false ->
  string_body (quote_unit c ++ tail) =
  match string_body tail with
  | Some (body, after) => Some (c :: body, after)
  | None => None
  end.
Proof.
  intros _ _. unfold quote_unit.
  destruct (c =? 8) eqn:E8; [apply N.eqb_eq in E8; subst c; reflexivity|].
  destruct (c =? 9) eqn:E9; [apply N.eqb_eq in E9; subst c; reflexivity|].
  destruct (c =? 10) eqn:E10; [apply N.eqb_eq in E10; subst c; reflexivity|].
  destruct (c =? 12) eqn:E12; [apply N.eqb_eq in E12; subst c; reflexivity|].
  destruct (c =? 13) eqn:E13; [apply N.eqb_eq in E13; subst c; reflexivity|].
  destruct (c =? 34) eqn:E34; [apply N.eqb_eq in E34; subst c; reflexivity|].
  destruct (c =? 92) eqn:E92; [apply N.eqb_eq in E92; subst c; reflexivity|].
  destruct (c <? 32) eqn:E32.
  - apply N.ltb_lt in E32. apply string_body_escape. lia.
  - apply N.ltb_ge in E32. apply N.eqb_neq in E34, E92.
    apply string_body_plain; assumption.
Qed.

Lemma surrogate_plain (c : code_unit) :
  is_high_surrogate c = true \/ is_low_surrogate c = true ->
  c <> 34 /\ c <> 92 /\ 32 <= c /\ c < 65536.
Proof.
  unfold is_high_surrogate, is_low_surrogate.
  intros [H|H]; apply andb_prop in H; destruct H as [H1 H2];
    apply N.leb_le in H1, H2; lia.
Qed.

(** A quoted string reads as the string. *)
Lemma string_body_quote (s : jsstring) : forall rest : jsstring,
  string_body (quote_body s ++ 34 :: rest) = Some (s, rest).
Proof.
  remember (length s) as n eqn:Hn. revert s Hn.
  induction n as [n IH] using lt_wf_ind. intros s Hn rest.
  destruct s as [|c s]; [reflexivity|]. cbn [quote_body].
  destruct (is_high_surrogate c) eqn:Eh.
  - destruct (surrogate_plain c (or_introl Eh)) as (H1 & H2 & H3 & H4).
    destruct s as [|d s].
    + rewrite string_body_escape by exact H4. reflexivity.
    + destruct (is_low_surrogate d) eqn:El.
      * destruct (surrogate_plain d (or_intror El)) as (G1 & G2 & G3 & G4).
        cbn [app]. rewrite (string_body_plain c _ H1 H2 H3).
        rewrite (string_body_plain d _ G1 G2 G3).
        rewrite (IH (length s)); [reflexivity | subst n; cbn [length]; lia | reflexivity].
      * rewrite <- app_assoc, string_body_escape by exact H4.
        rewrite (IH (length (d :: s)));
          [reflexivity | subst n; cbn [length]; lia | reflexivity].
  - destruct (is_low_surrogate c) eqn:El.
    + destruct (surrogate_plain c (or_intror El)) as (H1 & H2 & H3 & H4).
      rewrite <- app_assoc, string_body_escape by exact H4.
      rewrite (IH (length s)); [reflexivity | subst n; cbn [length]; lia | reflexivity].
    + rewrite <- app_assoc, (string_body_unit c _ Eh El).
      rewrite (IH (length s)); [reflexivity | subst n; cbn [length]; lia | reflexivity].
Qed.

(** ** The order of the properties *)

Lemma array_index_canonical (k : jsstring) (i : N) :
  array_index k = Some i -> canonical k /\ digits_value k = i.
Proof.
  unfold array_index. destruct k as [|c r]; [discriminate|].
  destruct (forallb is_digit (c :: r)) eqn:Ed; [|discriminate].
  cbn [andb].
  destruct (negb (c =? 48) || match r with [] => true | _ => false end) eqn:Ec;
    [|discriminate].
  cbn [andb]. destruct (_ && _); [|discriminate].
  intros H. injection H as <-. split; [|reflexivity]. split; [exact Ed|].
  apply orb_prop in Ec. destruct Ec as [Ec|Ec].
  - right. exists c, r. split; [reflexivity|].
    apply negb_true_iff, N.eqb_neq in Ec. exact Ec.
  - destruct r; [|discriminate].
    destruct (N.eq_dec c 48) as [->|Hc]; [left; reflexivity|].
    right. exists c, []. split; [reflexivity | exact Hc].
Qed.

Lemma array_index_inj (k k' : jsstring) (i : N) :
  array_index k = Some i -> array_index k' = Some i -> k = k'.
Proof.
  intros H H'. apply array_index_canonical in H, H'.
  destruct H as [C E], H' as [C' E'].
  rewrite <- (canonical_N_digits k C), <- (canonical_N_digits k' C'). congruence.
Qed.

Lemma obj_lookup_none (props : list (jsstring * value)) (k : jsstring) :
  obj_lookup props k = None <-> ~ In k (map fst props).
Proof.
  induction props as [|[k' v'] rest IH]; cbn [obj_lookup map fst In].
  - tauto.
  - destruct (str_eqb k' k) eqn:E.
    + apply str_eqb_spec in E. split; [discriminate|]. intros H. exfalso. apply H.
      left. exact E.
    + assert (k' <> k) by (intros H; apply str_eqb_spec in H; congruence).
      rewrite IH. tauto.
Qed.

Lemma keys_replace (props : list (jsstring * value)) (k : jsstring) (v : value) :
  map fst (obj_replace props k v) = map fst props.
Proof.
  induction props as [|[k' v'] rest IH]; [reflexivity|]. cbn [obj_replace].
  destruct (str_eqb k' k); cbn [map fst]; [reflexivity|]. f_equal. exact IH.
Qed.

Lemma keys_ordered_tail (k : jsstring) (ks : list jsstring) :
  keys_ordered (k :: ks) -> keys_ordered ks.
Proof. intros H. apply H. Qed.

(** A new key at the end of ordered keys. *)
Lemma keys_ordered_last (ks : list jsstring) (k : jsstring) :
  keys_ordered (ks ++ [k]) ->
  ~ In k ks /\ Forall (fun k' => may_follow k' k) ks /\ keys_ordered ks.
Proof.
  induction ks as [|k' ks IH]; cbn [app keys_ordered].
  - intros _. split; [tauto|]. split; [constructor | exact I].
  - intros (Hn & Hf & Ho). destruct (IH Ho) as (H1 & H2 & H3).
    split.
    { intros [E|E]; [|contradiction]. apply Hn. apply in_or_app. right. left.
      symmetry. exact E. }
    split.
    { constructor; [|exact H2]. apply Forall_app in Hf. destruct Hf as [_ Hf].
      inversion Hf; assumption. }
    split; [|split; [|exact H3]].
    + intros E. apply Hn. apply in_or_app. left. exact E.
    + apply Forall_app in Hf. apply Hf.
Qed.

Lemma insert_index_last (props : list (jsstring * value)) (i : N) (k : jsstring)
  (v : value) :
  array_index k = Some i ->
  Forall (fun k' => may_follow k' k) (map fst props) ->
  obj_insert_index props i k v = props ++ [(k, v)].
Proof.
  intros Hk. induction props as [|[k' v'] rest IH]; intros Hf; [reflexivity|].
  cbn [map fst] in Hf. inversion Hf as [|? ? H1 H2]; subst.
  cbn [obj_insert_index app]. unfold may_follow in H1. rewrite Hk in H1.
  destruct (array_index k') as [j|]; [|contradiction].
  apply N.ltb_lt in H1. rewrite H1. f_equal. apply IH, H2.
Qed.

(** Creating the properties in their order builds the list as it is. *)
Lemma obj_set_last (props : list (jsstring * value)) (k : jsstring) (v : value) :
  keys_ordered (map fst props ++ [k]) ->
  obj_set props k v = props ++ [(k, v)].
Proof.
  intros H. apply keys_ordered_last in H. destruct H as (Hn & Hf & _).
  unfold obj_set. apply obj_lookup_none in Hn. rewrite Hn.
  destruct (array_index k) as [i|] eqn:Ek; [|reflexivity].
  apply insert_index_last; assumption.
Qed.

Lemma may_follow_trans_index (k k' k'' : jsstring) :
  may_follow k k' -> may_follow k' k'' -> may_follow k k''.
Proof.
  unfold may_follow.
  destruct (array_index k), (array_index k'), (array_index k''); try tauto; lia.
Qed.

Lemma keys_insert_index (props : list (jsstring * value)) (i : N) (k : jsstring)
  (v : value) :
  array_index k = Some i -> ~ In k (map fst props) -> ordered props ->
  ordered (obj_insert_index props i k v)
  /\ (forall k0, ~ In k0 (map fst props) -> k0 <> k ->
        ~ In k0 (map fst (obj_insert_index props i k v)))
  /\ (forall k0, Forall (may_follow k0) (map fst props) -> may_follow k0 k ->
        Forall (may_follow k0) (map fst (obj_insert_index props i k v))).
Proof.
  intros Hk. unfold ordered.
  induction props as [|[k' v'] rest IH]; intros Hn Ho.
  - cbn. split; [|split].
    + split; [tauto|]. split; [constructor | exact I].
    + intros k0 _ H0 [E|[]]. congruence.
    + intros k0 _ H0. constructor; [exact H0 | constructor].
  - cbn [map fst In keys_ordered] in Hn, Ho. destruct Ho as (Hn' & Hf & Ho).
    assert (Hkk : k' <> k) by tauto.
    assert (Hnr : ~ In k (map fst rest)) by tauto.
    cbn [obj_insert_index].
    assert (Hput : may_follow k k' ->
              keys_ordered (map fst ((k, v) :: (k', v') :: rest))
              /\ (forall k0, ~ In k0 (map fst ((k', v') :: rest)) -> k0 <> k ->
                    ~ In k0 (map fst ((k, v) :: (k', v') :: rest)))
              /\ (forall k0, Forall (may_follow k0) (map fst ((k', v') :: rest)) ->
                    may_follow k0 k ->
                    Forall (may_follow k0) (map fst ((k, v) :: (k', v') :: rest)))).
    { intros Hm. cbn [map fst keys_ordered In]. split; [|split].
      - split; [tauto|]. split.
        + constructor; [exact Hm|].
          eapply Forall_impl; [|exact Hf]. intros k2 H2.
          eapply may_follow_trans_index; eassumption.
        + tauto.
      - intros k0 H0 H1 [E|E]; [congruence | tauto].
      - intros k0 H0 H1. constructor; assumption. }
    destruct (array_index k') as [j|] eqn:Ek'.
    + destruct (j <? i) eqn:Eji.
      * apply N.ltb_lt in Eji.
        destruct (IH Hnr Ho) as (I1 & I2 & I3).
        cbn [map fst keys_ordered In]. split; [|split].
        -- split; [apply I2; [exact Hn' | exact Hkk]|].
           split; [|exact I1].
           apply I3; [exact Hf|]. unfold may_follow. rewrite Ek', Hk. exact Eji.
        -- intros k0 H0 H1 [E|E]; [tauto|]. revert E. apply I2; tauto.
        -- intros k0 H0 H1. inversion H0; subst. constructor; [assumption|].
           apply I3; assumption.
      * apply N.ltb_ge in Eji. apply Hput. unfold may_follow. rewrite Hk, Ek'.
        destruct (N.eq_dec i j) as [->|Hij]; [|lia].
        exfalso. apply Hkk. eapply array_index_inj; eassumption.
    + apply Hput. unfold may_follow. rewrite Hk, Ek'. exact I.
Qed.

Lemma keys_append (ks : list jsstring) (k : jsstring) :
  array_index k = None -> ~ In k ks -> keys_ordered ks -> keys_ordered (ks ++ [k]).
Proof.
  intros Hk. induction ks as [|k' ks IH]; intros Hn Ho; cbn [app keys_ordered].
  - split; [tauto|]. split; [constructor | exact I].
  - cbn [In keys_ordered] in Hn, Ho. destruct Ho as (Hn' & Hf & Ho).
    split; [|split].
    + intros E. apply in_app_or in E. destruct E as [E|[E|[]]]; [tauto|].
      apply Hn. left. symmetry. exact E.
    + apply Forall_app. split; [exact Hf|]. constructor; [|constructor].
      unfold may_follow. rewrite Hk. destruct (array_index k'); exact I.
    + apply IH; tauto.
Qed.

(** [obj_set] keeps the order. *)
Lemma obj_set_ordered (props : list (jsstring * value)) (k : jsstring) (v : value) :
  ordered props -> ordered (obj_set props k v).
Proof.
  intros Ho. unfold obj_set.
  destruct (obj_lookup props k) eqn:El.
  - unfold ordered. rewrite keys_replace. exact Ho.
  - apply obj_lookup_none in El.
    destruct (array_index k) as [i|] eqn:Ek.
    + apply keys_insert_index; assumption.
    + unfold ordered. rewrite map_app. apply keys_append; assumption.
Qed.

(** ** The values [JSON.parse] returns *)

Lemma value_ind' (P : value -> Prop) :
  P VUndefined -> P VNull -> (forall b, P (VBool b)) -> (forall n, P (VNum n)) ->
  (forall s, P (VStr s)) ->
  (forall elems, Forall P elems -> P (VArr elems)) ->
  (forall props, Forall (fun kv => P (snd kv)) props -> P (VObj props)) ->
  forall v, P v.
Proof.
  intros Hu Hn Hb Hnum Hs Ha Ho.
  refine (fix IH (v : value) : P v :=
            match v with
            | VUndefined => Hu
            | VNull => Hn
            | VBool b => Hb b
            | VNum n => Hnum n
            | VStr s => Hs s
            | VArr elems =>
                Ha elems
                   ((fix go (l : list value) : Forall P l :=
                       match l with
                       | [] => Forall_nil P
                       | e :: r => Forall_cons e (IH e) (go r)
                       end) elems)
            | VObj props =>
                Ho props
                   ((fix go (l : list (jsstring * value))
                       : Forall (fun kv => P (snd kv)) l :=
                       match l with
                       | [] => Forall_nil _
                       | kv :: r =>
                           Forall_cons kv
                             (match kv return P (snd kv) with
                              | (k, x) => IH x
                              end) (go r)
                       end) props)
            end).
Qed.

Lemma mk_number_binary64 (neg : bool) (ds : jsstring) (x : Z) :
  binary64 (mk_number neg ds x).
Proof. unfold mk_number. destruct (_ =? 0); apply Dec_binary64. Qed.

Lemma parse_number_binary64 (s after : jsstring) (n : number) :
  parse_number s = Some (n, after) -> binary64 n.
Proof.
  unfold parse_number. destruct (eat_sign false s) as [neg s1].
  destruct s1 as [|c r]; [discriminate|].
  destruct (is_digit c); [|discriminate].
  destruct (if c =? 48 then ([48], r) else span_digits (c :: r)) as [int s2].
  destruct (parse_fraction s2) as [[f s3]|]; [|discriminate].
  destruct (parse_exponent s3) as [[x s4]|]; [|discriminate].
  intros H. injection H as <- _. apply mk_number_binary64.
Qed.

Lemma replace_values (P : value -> Prop) (props : list (jsstring * value))
  (k : jsstring) (v : value) :
  Forall (fun kv => P (snd kv)) props -> P v ->
  Forall (fun kv => P (snd kv)) (obj_replace props k v).
Proof.
  intros H Hv. induction H as [|[k' v'] rest H1 H2 IH]; cbn [obj_replace];
    [constructor|].
  destruct (str_eqb k' k); constructor; assumption.
Qed.

Lemma insert_index_values (P : value -> Prop) (props : list (jsstring * value))
  (i : N) (k : jsstring) (v : value) :
  Forall (fun kv => P (snd kv)) props -> P v ->
  Forall (fun kv => P (snd kv)) (obj_insert_index props i k v).
Proof.
  intros H Hv. induction H as [|[k' v'] rest H1 H2 IH]; cbn [obj_insert_index].
  - constructor; [exact Hv | constructor].
  - destruct (array_index k') as [j|].
    + destruct (j <? i); constructor; try assumption. constructor; assumption.
    + constructor; [exact Hv|]. constructor; assumption.
Qed.

Lemma obj_set_values (P : value -> Prop) (props : list (jsstring * value))
  (k : jsstring) (v : value) :
  Forall (fun kv => P (snd kv)) props -> P v ->
  Forall (fun kv => P (snd kv)) (obj_set props k v).
Proof.
  intros H Hv. unfold obj_set. destruct (obj_lookup props k).
  - apply replace_values; assumption.
  - destruct (array_index k).
    + apply insert_index_values; assumption.
    + apply Forall_app. split; [exact H|]. constructor; [exact Hv | constructor].
Qed.

Lemma parse_json (fuel : nat) :
  (forall s v rest, parse_value fuel s = POk v rest -> json v)
  /\ (forall acc s v rest, Forall json acc ->
        parse_elements fuel acc s = POk v rest -> json v)
  /\ (forall acc s v rest, ordered acc -> Forall (fun kv => json (snd kv)) acc ->
        parse_members fuel acc s = POk v rest -> json v).
Proof.
  induction fuel as [|f (IHv & IHe & IHm)].
  - repeat split; intros; discriminate.
  - split; [|split].
    + intros s v rest. cbn [parse_value].
      destruct (skip_ws s) as [|c r]; [discriminate|].
      destruct (c =? 123).
      { destruct (eat 125 (skip_ws r)).
        - intros H. injection H as <- _. constructor; [exact I | constructor].
        - apply IHm; [exact I | constructor]. }
      destruct (c =? 91).
      { destruct (eat 93 (skip_ws r)).
        - intros H. injection H as <- _. constructor. constructor.
        - apply IHe. constructor. }
      destruct (c =? 34).
      { destruct (string_body r) as [[str after]|]; [|discriminate].
        intros H. injection H as <- _. constructor. }
      destruct (startsWith (c :: r) $"true").
      { intros H. injection H as <- _. constructor. }
      destruct (startsWith (c :: r) $"false").
      { intros H. injection H as <- _. constructor. }
      destruct (startsWith (c :: r) $"null").
      { intros H. injection H as <- _. constructor. }
      destruct (parse_number (c :: r)) as [[n after]|] eqn:E; [|discriminate].
      intros H. injection H as <- _. constructor.
      eapply parse_number_binary64, E.
    + intros acc s v rest Hacc. cbn [parse_elements].
      destruct (parse_value f s) as [v1 r1| |] eqn:E; try discriminate.
      assert (Hacc' : Forall json (acc ++ [v1])).
      { apply Forall_app. split; [exact Hacc|]. constructor; [|constructor].
        eapply IHv, E. }
      destruct (eat 44 (skip_ws r1)); [apply IHe, Hacc'|].
      destruct (eat 93 (skip_ws r1)); [|discriminate].
      intros H. injection H as <- _. constructor. exact Hacc'.
    + intros acc s v rest Ho Hacc. cbn [parse_members].
      destruct (eat 34 (skip_ws s)) as [r|]; [|discriminate].
      destruct (string_body r) as [[key after]|]; [|discriminate].
      destruct (eat 58 (skip_ws after)) as [r1|]; [|discriminate].
      destruct (parse_value f r1) as [v1 r2| |] eqn:E; try discriminate.
      assert (Ho' : ordered (obj_set acc key v1)) by (apply obj_set_ordered, Ho).
      assert (Hacc' : Forall (fun kv => json (snd kv)) (obj_set acc key v1)).
      { apply obj_set_values; [exact Hacc|]. eapply IHv, E. }
      destruct (eat 44 (skip_ws r2)); [apply IHm; assumption|].
      destruct (eat 125 (skip_ws r2)); [|discriminate].
      intros H. injection H as <- _. constructor; assumption.
Qed.

Lemma JSON_parse_json (text : jsstring) (v : value) :
  JSON_parse text = Some v -> json v.
Proof.
  unfold JSON_parse.
  destruct (parse_value (parse_bound text) text) as [v1 rest| |] eqn:E;
    try discriminate.
  destruct (skip_ws rest); [|discriminate]. intros H. injection H as <-.
  exact (proj1 (parse_json _) _ _ _ E).
Qed.

(** ** More fuel changes no result *)

Lemma parse_more_fuel (f : nat) :
  (forall g s, (f <= g)%nat -> parse_value f s <> PFuel ->
               parse_value g s = parse_value f s)
  /\ (forall g acc s, (f <= g)%nat -> parse_elements f acc s <> PFuel ->
               parse_elements g acc s = parse_elements f acc s)
  /\ (forall g acc s, (f <= g)%nat -> parse_members f acc s <> PFuel ->
               parse_members g acc s = parse_members f acc s).
Proof.
  induction f as [|f (IHv & IHe & IHm)].
  - repeat split; intros; exfalso; auto.
  - split; [|split].
    + intros [|g] s Hg; [lia|]. cbn [parse_value].
      destruct (skip_ws s) as [|c r]; [reflexivity|].
      destruct (c =? 123).
      { destruct (eat 125 (skip_ws r)); [reflexivity|]. apply IHm. lia. }
      destruct (c =? 91).
      { destruct (eat 93 (skip_ws r)); [reflexivity|]. apply IHe. lia. }
      reflexivity.
    + intros [|g] acc s Hg; [lia|]. cbn [parse_elements]. intros H.
      destruct (parse_value f s) as [v1 r1| |] eqn:E; [| |congruence].
      * rewrite (IHv g s ltac:(lia)), E by (rewrite E; discriminate).
        destruct (eat 44 (skip_ws r1)); [|reflexivity].
        apply IHe; [lia | exact H].
      * rewrite (IHv g s ltac:(lia)), E by (rewrite E; discriminate). reflexivity.
    + intros [|g] acc s Hg; [lia|]. cbn [parse_members]. intros H.
      destruct (eat 34 (skip_ws s)) as [r|]; [|reflexivity].
      destruct (string_body r) as [[key after]|]; [|reflexivity].
      destruct (eat 58 (skip_ws after)) as [r1|]; [|reflexivity].
      destruct (parse_value f r1) as [v1 r2| |] eqn:E; [| |congruence].
      * rewrite (IHv g r1 ltac:(lia)), E by (rewrite E; discriminate).
        destruct (eat 44 (skip_ws r2)); [|reflexivity].
        apply IHm; [lia | exact H].
      * rewrite (IHv g r1 ltac:(lia)), E by (rewrite E; discriminate). reflexivity.
Qed.

(** A result with any fuel is the result of [JSON.parse]. *)
Lemma JSON_parse_with_fuel (fuel : nat) (text : jsstring) (v : value) :
  parse_value fuel text = POk v [] -> JSON_parse text = Some v.
Proof.
  intros H. unfold JSON_parse.
  pose proof (JSON_parse_bound_suffices text) as Hb.
  destruct (Nat.le_ge_cases fuel (parse_bound text)) as [Hle|Hge].
  - rewrite (proj1 (parse_more_fuel fuel) _ text Hle), H by (rewrite H; discriminate).
    reflexivity.
  - rewrite <- (proj1 (parse_more_fuel (parse_bound text)) _ text Hge Hb), H.
    reflexivity.
Qed.

(** ** Reading what [JSON.stringify] wrote *)

Lemma skip_ws_blank (w : jsstring) (c : code_unit) (t : jsstring) :
  blank w -> is_json_ws c = false -> skip_ws (w ++ c :: t) = c :: t.
Proof.
  unfold blank. intros Hw Hc. induction w as [|x w IH]; cbn [app skip_ws].
  - rewrite Hc. reflexivity.
  - cbn [forallb] in Hw. apply andb_prop in Hw. destruct Hw as [H1 H2].
    rewrite H1. apply IH, H2.
Qed.

Lemma blank_app (a b : jsstring) : blank a -> blank b -> blank (a ++ b).
Proof. unfold blank. intros Ha Hb. rewrite forallb_app, Ha, Hb. reflexivity. Qed.

Lemma blank_gap : blank gap.
Proof. reflexivity. Qed.

Lemma json_defined (v : value) : json v -> v <> VUndefined.
Proof. intros H E. subst v. inversion H. Qed.

Lemma serialize_text (indent : jsstring) (v : value) :
  json v -> serialize indent v = Some (text_of indent v).
Proof.
  intros H. unfold text_of.
  destruct (serialize_defined indent v (json_defined v H)) as [s ->]. reflexivity.
Qed.

Lemma members_text (inner : jsstring) (props : list (jsstring * value)) :
  Forall (fun kv => json (snd kv)) props ->
  flat_map (fun kv => match serialize inner (snd kv) with
                      | Some str => [quote (fst kv) ++ $": " ++ str]
                      | None => []
                      end) props
  = map (fun kv => quote (fst kv) ++ $": " ++ text_of inner (snd kv)) props.
Proof.
  intros H. induction H as [|kv rest H1 H2 IH]; [reflexivity|].
  cbn [flat_map map]. rewrite (serialize_text inner _ H1), IH. reflexivity.
Qed.

Lemma text_of_array (indent : jsstring) (elems : list value) :
  text_of indent (VArr elems) =
  match elems with
  | [] => $"[]"
  | _ => $"[" ++ [10] ++ (indent ++ gap)
         ++ join ($"," ++ [10] ++ (indent ++ gap))
                 (map (text_of (indent ++ gap)) elems)
         ++ [10] ++ indent ++ $"]"
  end.
Proof.
  unfold text_of at 1. cbn [serialize].
  destruct elems as [|e r]; reflexivity.
Qed.

Lemma text_of_object (indent : jsstring) (props : list (jsstring * value)) :
  Forall (fun kv => json (snd kv)) props ->
  text_of indent (VObj props) =
  match props with
  | [] => $"{}"
  | _ => $"{" ++ [10] ++ (indent ++ gap)
         ++ join ($"," ++ [10] ++ (indent ++ gap))
                 (map (fun kv => quote (fst kv) ++ $": "
                                 ++ text_of (indent ++ gap) (snd kv)) props)
         ++ [10] ++ indent ++ $"}"
  end.
Proof.
  intros H. unfold text_of at 1. cbn [serialize].
  rewrite (members_text _ _ H). destruct props as [|kv r]; reflexivity.
Qed.

Lemma decimal_text_head (s : N) (n : Z) :
  exists c t, decimal_text (N_digits s) n = c :: t /\ is_digit c = true.
Proof.
  pose proof (N_digits_are_digits s) as Hd.
  destruct (N_digits_head s) as (d0 & ds' & Hds & _).
  rewrite Hds in *. cbn [forallb] in Hd. apply andb_prop in Hd. destruct Hd as [Hd _].
  unfold decimal_text. set (k := Z.of_nat (length (d0 :: ds'))).
  destruct ((k <=? n) && (n <=? 21))%Z;
    [eexists; eexists; split; [reflexivity | exact Hd]|].
  destruct ((0 <? n) && (n <=? 21))%Z eqn:B2.
  { apply andb_prop in B2. destruct B2 as [B2 _]. apply Z.ltb_lt in B2.
    destruct (Z.to_nat n) eqn:E; [lia|].
    eexists; eexists; split; [reflexivity | exact Hd]. }
  destruct ((-6 <? n) && (n <=? 0))%Z;
    [eexists; eexists; split; reflexivity|].
  destruct ds'; eexists; eexists; split; try reflexivity; exact Hd.
Qed.

Lemma number_text_head (neg : bool) (m : N) (e : Z) :
  exists c t, number_to_string (Finite neg m e) = c :: t
              /\ (c = 45 \/ is_digit c = true).
Proof.
  cbn [number_to_string]. destruct (m =? 0).
  - exists 48, []. split; [reflexivity | right; reflexivity].
  - destruct (shortest m e) as [s x].
    destruct (decimal_text_head s (Z.of_nat (length (N_digits s)) + x))
      as (c & t & Ht & Hc).
    rewrite Ht. destruct neg.
    + exists 45, (c :: t). split; [reflexivity | left; reflexivity].
    + exists c, t. split; [reflexivity | right; exact Hc].
Qed.

Lemma digit_or_minus (c : code_unit) :
  c = 45 \/ is_digit c = true ->
  is_json_ws c = false /\ (c =? 123) = false /\ (c =? 91) = false
  /\ (c =? 34) = false /\ (116 =? c) = false /\ (102 =? c) = false
  /\ (110 =? c) = false /\ c <> 93 /\ c <> 125 /\ c <> 44.
Proof.
  intros [->|H]; [repeat split; try reflexivity; discriminate|].
  unfold is_digit in H. apply andb_prop in H. destruct H as [H1 H2].
  apply N.leb_le in H1, H2. unfold is_json_ws.
  repeat split; try (apply N.eqb_neq; lia); try lia.
  assert (E1 : (c =? 9) = false) by (apply N.eqb_neq; lia).
  assert (E2 : (c =? 10) = false) by (apply N.eqb_neq; lia).
  assert (E3 : (c =? 13) = false) by (apply N.eqb_neq; lia).
  assert (E4 : (c =? 32) = false) by (apply N.eqb_neq; lia).
  rewrite E1, E2, E3, E4. reflexivity.
Qed.

Lemma text_head (indent : jsstring) (v : value) :
  json v -> exists c t, text_of indent v = c :: t /\ opens c.
Proof.
  intros H. unfold opens. destruct H as [|b|n Hn|s|elems He|props Ho Hp].
  - exists 110, $"ull". repeat split; try reflexivity; discriminate.
  - destruct b; [exists 116, $"rue" | exists 102, $"alse"];
      repeat split; try reflexivity; discriminate.
  - destruct n as [|neg|neg m e]; [contradiction| |].
    + exists 110, $"ull". repeat split; try reflexivity; discriminate.
    + destruct (number_text_head neg m e) as (c & t & Ht & Hc).
      exists c, t. split.
      * unfold text_of. cbn [serialize]. exact Ht.
      * apply digit_or_minus in Hc. tauto.
  - exists 34, (quote_body s ++ [34]). repeat split; try reflexivity; discriminate.
  - rewrite text_of_array. destruct elems.
    + exists 91, [93]. repeat split; try reflexivity; discriminate.
    + eexists 91, _. split; [reflexivity|].
      repeat split; try reflexivity; discriminate.
  - rewrite (text_of_object _ _ Hp). destruct props.
    + exists 123, [125]. repeat split; try reflexivity; discriminate.
    + eexists 123, _. split; [reflexivity|].
      repeat split; try reflexivity; discriminate.
Qed.

Lemma closes_number_end (rest : jsstring) : closes rest -> number_end rest.
Proof.
  destruct rest as [|c r]; [trivial|]. intros [->| ->]; repeat split; discriminate.
Qed.

Lemma atom_reads (v : value) (c : code_unit) (t : jsstring) (result : presult value)
  (w rest : jsstring) (fuel : nat) :
  blank w -> is_json_ws c = false -> (1 <= fuel)%nat ->
  (forall f, parse_value (S f) (c :: t ++ rest) = result) ->
  parse_value fuel (w ++ (c :: t) ++ rest) = result.
Proof.
  intros Hw Hc Hf H. destruct fuel as [|f]; [lia|].
  rewrite <- (H f). cbn [parse_value app].
  rewrite (skip_ws_blank w c (t ++ rest) Hw Hc).
  assert (E : skip_ws (c :: t ++ rest) = c :: t ++ rest).
  { cbn [skip_ws]. rewrite Hc. reflexivity. }
  rewrite E. reflexivity.
Qed.

Lemma elements_read (inner indent rest : jsstring) (l : list value) :
  blank inner -> blank indent ->
  Forall (fun e => json e -> reads_again e) l -> Forall json l -> l <> [] ->
  forall (acc : list value) (fuel : nat) (w : jsstring),
    blank w -> (list_sum (map (fun e => S (weight e)) l) <= fuel)%nat ->
    parse_elements fuel acc
      (w ++ join ($"," ++ [10] ++ inner) (map (text_of inner) l)
         ++ [10] ++ indent ++ $"]" ++ rest)
    = POk (VArr (acc ++ map written l)) rest.
Proof.
  intros Hin Hind HP Hj. induction l as [|e l IH]; intros Hne acc fuel w Hw Hf;
    [congruence|].
  inversion HP as [|? ? HPe HPl]; subst. inversion Hj as [|? ? Hje Hjl]; subst.
  cbn [map list_sum fold_right] in Hf. destruct fuel as [|f]; [lia|].
  cbn [parse_elements].
  assert (Hclose : skip_ws ([10] ++ indent ++ $"]" ++ rest) = 93 :: rest).
  { change ([10] ++ indent ++ $"]" ++ rest) with (([10] ++ indent) ++ 93 :: rest).
    apply skip_ws_blank; [|reflexivity].
    apply blank_app; [reflexivity | exact Hind]. }
  destruct l as [|e2 l].
  - change (join ($"," ++ [10] ++ inner) (map (text_of inner) [e]))
      with (text_of inner e).
    rewrite (HPe Hje inner w ([10] ++ indent ++ $"]" ++ rest) f Hin Hw);
      [|right; reflexivity | lia].
    rewrite Hclose. cbn [eat N.eqb Pos.eqb]. reflexivity.
  - change (join ($"," ++ [10] ++ inner) (map (text_of inner) (e :: e2 :: l)))
      with (text_of inner e ++ ($"," ++ [10] ++ inner)
            ++ join ($"," ++ [10] ++ inner) (map (text_of inner) (e2 :: l))).
    reshape (parse_value f)
      (w ++ text_of inner e
         ++ (44 :: ([10] ++ inner)
               ++ join ($"," ++ [10] ++ inner) (map (text_of inner) (e2 :: l))
               ++ [10] ++ indent ++ $"]" ++ rest)).
    rewrite (HPe Hje inner w _ f Hin Hw); [|left; reflexivity | lia].
    cbn [skip_ws is_json_ws N.eqb Pos.eqb orb eat].
    rewrite (IH HPl Hjl ltac:(discriminate) (acc ++ [written e]) f ([10] ++ inner)).
    + cbn [map]. rewrite <- app_assoc. reflexivity.
    + apply blank_app; [reflexivity | exact Hin].
    + cbn [map list_sum fold_right] in *. lia.
Qed.

Lemma keys_ordered_prefix (a b : list jsstring) :
  keys_ordered (a ++ b) -> keys_ordered a.
Proof.
  induction a as [|k a IH]; cbn [app keys_ordered]; [trivial|].
  intros (Hn & Hf & Ho). split; [|split].
  - intros E. apply Hn, in_or_app. left. exact E.
  - apply Forall_app in Hf. apply Hf.
  - apply IH, Ho.
Qed.

Lemma members_read (inner indent rest : jsstring) (l : list (jsstring * value)) :
  blank inner -> blank indent ->
  Forall (fun kv => json (snd kv) -> reads_again (snd kv)) l ->
  Forall (fun kv => json (snd kv)) l -> l <> [] ->
  forall (acc : list (jsstring * value)) (fuel : nat) (w : jsstring),
    blank w -> keys_ordered (map fst acc ++ map fst l) ->
    (list_sum (map (fun kv => S (weight (snd kv))) l) <= fuel)%nat ->
    parse_members fuel acc
      (w ++ join ($"," ++ [10] ++ inner)
              (map (fun kv => quote (fst kv) ++ $": " ++ text_of inner (snd kv)) l)
         ++ [10] ++ indent ++ $"}" ++ rest)
    = POk (VObj (acc ++ map (fun kv => (fst kv, written (snd kv))) l)) rest.
Proof.
  intros Hin Hind HP Hj.
  induction l as [|[k v] l IH]; intros Hne acc fuel w Hw Hk Hf; [congruence|].
  inversion HP as [|? ? HPe HPl]; subst. inversion Hj as [|? ? Hje Hjl]; subst.
  cbn [snd fst] in *.
  cbn [map list_sum fold_right snd] in Hf. destruct fuel as [|f]; [lia|].
  assert (Hclose : skip_ws ([10] ++ indent ++ $"}" ++ rest) = 125 :: rest).
  { change ([10] ++ indent ++ $"}" ++ rest) with (([10] ++ indent) ++ 125 :: rest).
    apply skip_ws_blank; [|reflexivity].
    apply blank_app; [reflexivity | exact Hind]. }
  assert (Hset : obj_set acc k (written v) = acc ++ [(k, written v)]).
  { apply obj_set_last. cbn [map fst] in Hk.
    apply (keys_ordered_prefix _ (map fst l)). rewrite <- app_assoc. exact Hk. }
  (* one member, whatever follows it *)
  assert (Hmember : forall tail : jsstring,
             closes tail ->
             parse_members (S f) acc
               (w ++ (quote k ++ $": " ++ text_of inner v) ++ tail)
             = match eat 44 (skip_ws tail) with
               | Some rest3 => parse_members f (acc ++ [(k, written v)]) rest3
               | None =>
                   match eat 125 (skip_ws tail) with
                   | Some rest3 => POk (VObj (acc ++ [(k, written v)])) rest3
                   | None => PErr
                   end
               end).
  { intros tail Htail. cbn [parse_members].
    replace (w ++ (quote k ++ $": " ++ text_of inner v) ++ tail)
      with (w ++ 34 :: quote_body k ++ 34 :: ([58; 32] ++ text_of inner v ++ tail))
      by (unfold quote; change ($": ") with [58; 32]; same_list).
    rewrite (skip_ws_blank w 34 _ Hw eq_refl). cbn [eat N.eqb Pos.eqb].
    rewrite string_body_quote.
    cbn [app skip_ws is_json_ws N.eqb Pos.eqb orb eat].
    change (32 :: text_of inner v ++ tail) with ([32] ++ text_of inner v ++ tail).
    rewrite (HPe Hje inner [32] tail f Hin eq_refl Htail ltac:(lia)).
    rewrite Hset. reflexivity. }
  destruct l as [|[k2 v2] l].
  - change (join ($"," ++ [10] ++ inner)
              (map (fun kv => quote (fst kv) ++ $": " ++ text_of inner (snd kv))
                   [(k, v)]))
      with (quote k ++ $": " ++ text_of inner v).
    reshape (parse_members (S f) acc)
      (w ++ (quote k ++ $": " ++ text_of inner v)
         ++ ([10] ++ indent ++ $"}" ++ rest)).
    rewrite Hmember by (right; reflexivity).
    rewrite Hclose. cbn [eat N.eqb Pos.eqb]. reflexivity.
  - change (join ($"," ++ [10] ++ inner)
              (map (fun kv => quote (fst kv) ++ $": " ++ text_of inner (snd kv))
                   ((k, v) :: (k2, v2) :: l)))
      with ((quote k ++ $": " ++ text_of inner v) ++ ($"," ++ [10] ++ inner)
            ++ join ($"," ++ [10] ++ inner)
                 (map (fun kv => quote (fst kv) ++ $": " ++ text_of inner (snd kv))
                      ((k2, v2) :: l))).
    reshape (parse_members (S f) acc)
      (w ++ (quote k ++ $": " ++ text_of inner v)
         ++ (44 :: ([10] ++ inner)
               ++ join ($"," ++ [10] ++ inner)
                    (map (fun kv => quote (fst kv) ++ $": " ++ text_of inner (snd kv))
                         ((k2, v2) :: l))
               ++ [10] ++ indent ++ $"}" ++ rest)).
    rewrite Hmember by (left; reflexivity).
    cbn [skip_ws is_json_ws N.eqb Pos.eqb orb eat].
    rewrite (IH HPl Hjl ltac:(discriminate) (acc ++ [(k, written v)]) f ([10] ++ inner)).
    + cbn [map fst snd]. rewrite <- app_assoc. reflexivity.
    + apply blank_app; [reflexivity | exact Hin].
    + rewrite map_app. cbn [map fst] in *. rewrite <- app_assoc. exact Hk.
    + cbn [map list_sum fold_right snd] in *. lia.
Qed.

Lemma parse_null (f : nat) (rest : jsstring) :
  parse_value (S f) (110 :: $"ull" ++ rest) = POk VNull rest.
Proof.
  pose proof (startsWith_app $"null" rest) as H.
  change ($"null" ++ rest) with (110 :: 117 :: 108 :: 108 :: rest) in H.
  change (110 :: $"ull" ++ rest) with (110 :: 117 :: 108 :: 108 :: rest).
  cbn [parse_value skip_ws is_json_ws N.eqb Pos.eqb orb].
  assert (E1 : startsWith (110 :: 117 :: 108 :: 108 :: rest) $"true" = false)
    by reflexivity.
  assert (E2 : startsWith (110 :: 117 :: 108 :: 108 :: rest) $"false" = false)
    by reflexivity.
  rewrite E1, E2, H. reflexivity.
Qed.

Lemma parse_true (f : nat) (rest : jsstring) :
  parse_value (S f) (116 :: $"rue" ++ rest) = POk (VBool true) rest.
Proof.
  pose proof (startsWith_app $"true" rest) as H.
  change ($"true" ++ rest) with (116 :: 114 :: 117 :: 101 :: rest) in H.
  change (116 :: $"rue" ++ rest) with (116 :: 114 :: 117 :: 101 :: rest).
  cbn [parse_value skip_ws is_json_ws N.eqb Pos.eqb orb].
  rewrite H. reflexivity.
Qed.

Lemma parse_false (f : nat) (rest : jsstring) :
  parse_value (S f) (102 :: $"alse" ++ rest) = POk (VBool false) rest.
Proof.
  pose proof (startsWith_app $"false" rest) as H.
  change ($"false" ++ rest) with (102 :: 97 :: 108 :: 115 :: 101 :: rest) in H.
  change (102 :: $"alse" ++ rest) with (102 :: 97 :: 108 :: 115 :: 101 :: rest).
  cbn [parse_value skip_ws is_json_ws N.eqb Pos.eqb orb].
  assert (E1 : startsWith (102 :: 97 :: 108 :: 115 :: 101 :: rest) $"true" = false)
    by reflexivity.
  rewrite E1, H. reflexivity.
Qed.

(** Every value [JSON.parse] returns, once written, reads as what was
    written of it. *)
Lemma json_reads_again (v : value) : json v -> reads_again v.
Proof.
  induction v as [| |b|n|s|elems IH|props IH] using value_ind'; intros Hj;
    unfold reads_again; intros indent w rest fuel Hind Hw Hrest Hf.
  - inversion Hj.
  - apply (atom_reads VNull 110 $"ull"); [exact Hw | reflexivity | exact Hf|].
    intros f. apply parse_null.
  - destruct b.
    + apply (atom_reads (VBool true) 116 $"rue"); [exact Hw | reflexivity | exact Hf|].
      intros f. apply parse_true.
    + apply (atom_reads (VBool false) 102 $"alse");
        [exact Hw | reflexivity | exact Hf|].
      intros f. apply parse_false.
  - inversion Hj as [| |n' Hn| | |]; subst.
    destruct n as [|neg|neg m e]; [contradiction| |].
    + apply (atom_reads VNull 110 $"ull"); [exact Hw | reflexivity | exact Hf|].
      intros f. apply parse_null.
    + destruct (number_text_head neg m e) as (c & t & Ht & Hc).
      pose proof (number_text_parses neg m e rest Hn (closes_number_end _ Hrest)) as Hp.
      apply digit_or_minus in Hc.
      destruct Hc as (C1 & C2 & C3 & C4 & C5 & C6 & C7 & _).
      assert (Etext : text_of indent (VNum (Finite neg m e)) = c :: t)
        by (unfold text_of; cbn [serialize]; exact Ht).
      rewrite Etext. rewrite Ht in Hp.
      apply (atom_reads (VNum (Finite neg m e)) c t); [exact Hw | exact C1 | exact Hf|].
      intros f. cbn [parse_value skip_ws]. rewrite C1, C2, C3, C4.
      change ($"true") with [116; 114; 117; 101].
      change ($"false") with [102; 97; 108; 115; 101].
      change ($"null") with [110; 117; 108; 108].
      cbn [startsWith]. rewrite C5, C6, C7. cbn [andb].
      change (c :: t ++ rest) with ((c :: t) ++ rest). rewrite Hp.
      cbn [written]. destruct m; reflexivity.
  - apply (atom_reads (VStr s) 34 (quote_body s ++ [34]));
      [exact Hw | reflexivity | exact Hf|].
    intros f. cbn [parse_value skip_ws is_json_ws N.eqb Pos.eqb orb].
    rewrite <- app_assoc. cbn [app]. rewrite string_body_quote. reflexivity.
  - inversion Hj as [| | | |elems' He|]; subst.
    rewrite text_of_array. destruct elems as [|e r].
    + apply (atom_reads (VArr []) 91 [93]); [exact Hw | reflexivity | exact Hf|].
      intros f. reflexivity.
    + cbn [weight] in Hf. destruct fuel as [|f]; [lia|].
      destruct (text_head (indent ++ gap) e) as (c & t & Ht & Hc).
      { inversion He; assumption. }
      destruct Hc as (Hc1 & Hc2 & _).
      cbn [parse_value].
      replace (w ++ ($"[" ++ [10] ++ (indent ++ gap)
                     ++ join ($"," ++ [10] ++ (indent ++ gap))
                          (map (text_of (indent ++ gap)) (e :: r))
                     ++ [10] ++ indent ++ $"]") ++ rest)
        with (w ++ 91 :: (([10] ++ (indent ++ gap))
                          ++ join ($"," ++ [10] ++ (indent ++ gap))
                               (map (text_of (indent ++ gap)) (e :: r))
                          ++ [10] ++ indent ++ $"]" ++ rest))
        by (change ($"[") with [91]; same_list).
      rewrite (skip_ws_blank w 91 _ Hw eq_refl).
      cbn [N.eqb Pos.eqb].
      assert (Hinner : blank (indent ++ gap)) by (apply blank_app; [exact Hind | reflexivity]).
      assert (Hw' : blank ([10] ++ (indent ++ gap)))
        by (apply blank_app; [reflexivity | exact Hinner]).
      assert (Hfirst : exists t', 
                 ([10] ++ (indent ++ gap))
                 ++ join ($"," ++ [10] ++ (indent ++ gap))
                      (map (text_of (indent ++ gap)) (e :: r))
                 ++ [10] ++ indent ++ $"]" ++ rest
                 = ([10] ++ (indent ++ gap)) ++ c :: t').
      { destruct r as [|e2 r].
        - exists (t ++ [10] ++ indent ++ $"]" ++ rest). cbn [map join].
          rewrite Ht. reflexivity.
        - eexists. 
          change (join ($"," ++ [10] ++ (indent ++ gap))
                    (map (text_of (indent ++ gap)) (e :: e2 :: r)))
            with (text_of (indent ++ gap) e ++ ($"," ++ [10] ++ (indent ++ gap))
                  ++ join ($"," ++ [10] ++ (indent ++ gap))
                       (map (text_of (indent ++ gap)) (e2 :: r))).
          rewrite Ht. cbn [app]. rewrite <- !app_assoc. reflexivity. }
      destruct Hfirst as [t' Et'].
      assert (Eeat : eat 93 (skip_ws
                 (([10] ++ (indent ++ gap))
                  ++ join ($"," ++ [10] ++ (indent ++ gap))
                       (map (text_of (indent ++ gap)) (e :: r))
                  ++ [10] ++ indent ++ $"]" ++ rest)) = None).
      { rewrite Et', (skip_ws_blank _ c t' Hw' Hc1). cbn [eat].
        apply N.eqb_neq in Hc2. rewrite Hc2. reflexivity. }
      rewrite Eeat.
      rewrite (elements_read (indent ++ gap) indent rest (e :: r) Hinner Hind);
        [reflexivity | | exact He | discriminate | exact Hw' |].
      * eapply Forall_impl; [|exact IH]. intros a Ha. exact Ha.
      * cbn [map list_sum fold_right] in *. lia.
  - inversion Hj as [| | | | |props' Ho Hp]; subst.
    rewrite (text_of_object _ _ Hp). destruct props as [|[k v] r].
    + apply (atom_reads (VObj []) 123 [125]); [exact Hw | reflexivity | exact Hf|].
      intros f. reflexivity.
    + cbn [weight] in Hf. destruct fuel as [|f]; [lia|].
      cbn [parse_value].
      replace (w ++ ($"{" ++ [10] ++ (indent ++ gap)
                     ++ join ($"," ++ [10] ++ (indent ++ gap))
                          (map (fun kv => quote (fst kv) ++ $": "
                                          ++ text_of (indent ++ gap) (snd kv))
                               ((k, v) :: r))
                     ++ [10] ++ indent ++ $"}") ++ rest)
        with (w ++ 123 :: (([10] ++ (indent ++ gap))
                          ++ join ($"," ++ [10] ++ (indent ++ gap))
                               (map (fun kv => quote (fst kv) ++ $": "
                                               ++ text_of (indent ++ gap) (snd kv))
                                    ((k, v) :: r))
                          ++ [10] ++ indent ++ $"}" ++ rest))
        by (change ($"{") with [123]; same_list).
      rewrite (skip_ws_blank w 123 _ Hw eq_refl).
      cbn [N.eqb Pos.eqb].
      assert (Hinner : blank (indent ++ gap)) by (apply blank_app; [exact Hind | reflexivity]).
      assert (Hw' : blank ([10] ++ (indent ++ gap)))
        by (apply blank_app; [reflexivity | exact Hinner]).
      assert (Hfirst : exists t',
                 ([10] ++ (indent ++ gap))
                 ++ join ($"," ++ [10] ++ (indent ++ gap))
                      (map (fun kv => quote (fst kv) ++ $": "
                                      ++ text_of (indent ++ gap) (snd kv))
                           ((k, v) :: r))
                 ++ [10] ++ indent ++ $"}" ++ rest
                 = ([10] ++ (indent ++ gap)) ++ 34 :: t').
      { destruct r as [|[k2 v2] r].
        - eexists. cbn [map join fst snd]. unfold quote. cbn [app].
          rewrite <- !app_assoc. reflexivity.
        - eexists.
          change (join ($"," ++ [10] ++ (indent ++ gap))
                    (map (fun kv => quote (fst kv) ++ $": "
                                    ++ text_of (indent ++ gap) (snd kv))
                         ((k, v) :: (k2, v2) :: r)))
            with ((quote k ++ $": " ++ text_of (indent ++ gap) v)
                  ++ ($"," ++ [10] ++ (indent ++ gap))
                  ++ join ($"," ++ [10] ++ (indent ++ gap))
                       (map (fun kv => quote (fst kv) ++ $": "
                                       ++ text_of (indent ++ gap) (snd kv))
                            ((k2, v2) :: r))).
          unfold quote. cbn [app]. rewrite <- !app_assoc. reflexivity. }
      destruct Hfirst as [t' Et'].
      assert (Eeat : eat 125 (skip_ws
                 (([10] ++ (indent ++ gap))
                  ++ join ($"," ++ [10] ++ (indent ++ gap))
                       (map (fun kv => quote (fst kv) ++ $": "
                                       ++ text_of (indent ++ gap) (snd kv))
                            ((k, v) :: r))
                  ++ [10] ++ indent ++ $"}" ++ rest)) = None).
      { rewrite Et', (skip_ws_blank _ 34 t' Hw' eq_refl). reflexivity. }
      rewrite Eeat.
      rewrite (members_read (indent ++ gap) indent rest ((k, v) :: r) Hinner Hind);
        [reflexivity | | exact Hp | discriminate | exact Hw' | exact Ho |].
      * eapply Forall_impl; [|exact IH]. intros a Ha. exact Ha.
      * cbn [map list_sum fold_right snd] in *. lia.
Qed.

(** The text of [JSON.stringify(v, null, 2)] is JSON for what was written
    of [v]. *)
Lemma stringify_parses (v : value) :
  json v ->
  exists text, JSON_stringify2 v = VStr text /\ JSON_parse text = Some (written v).
Proof.
  intros Hj. exists (text_of [] v). split.
  - unfold JSON_stringify2. rewrite (serialize_text [] v Hj). reflexivity.
  - apply (JSON_parse_with_fuel (weight v)).
    pose proof (json_reads_again v Hj [] [] [] (weight v) eq_refl eq_refl I (le_n _)) as H.
    cbn [app] in H. rewrite app_nil_r in H. exact H.
Qed.

Lemma written_json (v : value) : json v -> json (written v).
Proof.
  induction v as [| |b|n|s|elems IH|props IH] using value_ind'; intros Hj;
    cbn [written]; try exact Hj.
  - inversion Hj; subst.
    destruct n as [|neg|neg m e]; [contradiction | constructor|].
    constructor. destruct m; [left; split; reflexivity | assumption].
  - inversion Hj as [| | | |elems' He|]; subst. constructor.
    rewrite Forall_forall in *. intros y Hy. apply in_map_iff in Hy.
    destruct Hy as (z & <- & Hz). apply IH; [exact Hz | apply He, Hz].
  - inversion Hj as [| | | | |props' Ho Hp]; subst. constructor.
    + unfold ordered in *. rewrite map_map. cbn [fst]. exact Ho.
    + rewrite Forall_forall in *. intros y Hy. apply in_map_iff in Hy.
      destruct Hy as (z & <- & Hz). cbn [snd]. apply IH; [exact Hz | apply Hp, Hz].
Qed.

(** Writing what was written gives the same text. *)
Lemma written_text (v : value) : forall indent : jsstring,
  json v -> text_of indent (written v) = text_of indent v.
Proof.
  induction v as [| |b|n|s|elems IH|props IH] using value_ind'; intros indent Hj;
    try reflexivity.
  - destruct n as [|neg|neg m e]; try reflexivity.
    destruct m; reflexivity.
  - inversion Hj as [| | | |elems' He|]; subst. cbn [written].
    rewrite !text_of_array.
    assert (E : map (text_of (indent ++ gap)) (map written elems)
                = map (text_of (indent ++ gap)) elems).
    { rewrite map_map. apply map_ext_Forall.
      rewrite Forall_forall in *. intros e Hin. apply IH; [exact Hin|].
      apply He, Hin. }
    rewrite E. destruct elems; reflexivity.
  - pose proof (written_json _ Hj) as Hw.
    inversion Hj as [| | | | |props' Ho Hp]; subst. cbn [written] in *.
    inversion Hw as [| | | | |props' Ho' Hp']; subst.
    rewrite (text_of_object _ _ Hp), (text_of_object _ _ Hp').
    assert (E : map (fun kv => quote (fst kv) ++ $": "
                               ++ text_of (indent ++ gap) (snd kv))
                    (map (fun kv => (fst kv, written (snd kv))) props)
                = map (fun kv => quote (fst kv) ++ $": "
                                 ++ text_of (indent ++ gap) (snd kv)) props).
    { rewrite map_map. apply map_ext_Forall.
      rewrite Forall_forall in *. intros kv Hin. cbn [fst snd].
      rewrite (IH kv Hin (indent ++ gap) (Hp kv Hin)). reflexivity. }
    rewrite E. destruct props; reflexivity.
Qed.

(** ** The message branch *)

Lemma dispatch_message (data : jsstring) (parsed : value) :
  get parsed $"type" = Some (VStr $"message") ->
  Api.dispatch data parsed =
  [Api.Message (Api.message_content (prop parsed $"content"))].
Proof. intros H. unfold Api.dispatch. rewrite H. reflexivity. Qed.

(** C10. A line that carries a message whose content is a string delivers
    the parsed content printed again with an indentation of two spaces when
    the content is JSON, and the content itself when it is not.  What is
    delivered for JSON is the text of [JSON.stringify(contentObj, null, 2)]:
    it is JSON again, it reads as the parsed content (but for what JSON
    cannot write: an infinity reads as [null], a negative zero as zero),
    and printing what it reads as gives the same text. *)
Theorem message_content_is_pretty_printed (line content : jsstring) (parsed : value) :
  startsWith line $"data: " = true ->
  JSON_parse (trim (slice 6 line)) = Some parsed ->
  get parsed $"type" = Some (VStr $"message") ->
  prop parsed $"content" = VStr content ->
  Api.process_line line =
  [Api.Message match JSON_parse content with
               | Some contentObj => JSON_stringify2 contentObj
               | None => VStr content
               end]
  /\ forall contentObj, JSON_parse content = Some contentObj ->
       exists text,
         JSON_stringify2 contentObj = VStr text
         /\ JSON_parse text = Some (written contentObj)
         /\ JSON_stringify2 (written contentObj) = VStr text.
Proof.
  intros Hdata Hparse Htype Hcontent. split.
  - unfold Api.process_line. rewrite Hdata.
    destruct (trim (slice 6 line)) as [|c data] eqn:E.
    + rewrite JSON_parse_empty in Hparse. discriminate Hparse.
    + rewrite Hparse, (dispatch_message _ _ Htype), Hcontent. reflexivity.
  - intros contentObj Hobj. apply JSON_parse_json in Hobj.
    destruct (stringify_parses contentObj Hobj) as (text & H1 & H2).
    exists text. split; [exact H1|]. split; [exact H2|].
    unfold JSON_stringify2 in *.
    rewrite (serialize_text [] _ (written_json _ Hobj)), (written_text _ [] Hobj).
    rewrite (serialize_text [] _ Hobj) in H1. exact H1.
Qed.

Lemma message_content_is_pretty_printed_witness :
  Api.process_line report_line =
  [Api.Message (VStr printed_report)]
  /\ JSON_parse printed_report =
     Some (VObj [($"1", VNull); ($"2", VBool true);
                 ($"s", VStr [97; 34; 98; 92; 99; 10]);
                 ($"n", VArr [VNum (Dec false 12345678901234567 3);
                              VNum (Dec false 0 0); VNull;
                              VNum (Dec false 1 (-1))])]).
Proof.
  destruct (message_content_is_pretty_printed report_line report_content
              (VObj [($"type", VStr $"message"); ($"content", VStr report_content)]))
    as [H1 H2].
  - vm_compute. reflexivity.
  - vm_compute. reflexivity.
  - vm_compute. reflexivity.
  - vm_compute. reflexivity.
  - split; [rewrite H1; vm_compute; reflexivity|].
    destruct (H2 (VObj [($"1", VNull); ($"2", VBool true);
                        ($"s", VStr [97; 34; 98; 92; 99; 10]);
                        ($"n", VArr [VNum (Dec false 12345678901234567890 0);
                                     VNum (Finite true 0 0);
                                     VNum (Infinity false);
                                     VNum (Dec false 1 (-1))])]))
      as (text & E1 & E2 & _).
    + vm_compute. reflexivity.
    + assert (Et : VStr text = VStr printed_report)
        by (rewrite <- E1; vm_compute; reflexivity).
      injection Et as Et. rewrite <- Et, E2. vm_compute. reflexivity.
Defined.

(** ** The accumulator *)

Lemma appendIncremental_spec (P M : jsstring) :
  (substring M P -> PropertyDetail.appendIncremental P M = P)
  /\ (~ substring M P -> PropertyDetail.appendIncremental P M = P ++ M).
Proof.
  unfold PropertyDetail.appendIncremental, substring.
  destruct (includes P M) eqn:E; split; intros H; try reflexivity.
  - exfalso. apply H. apply includes_spec. exact E.
  - apply includes_spec in H. congruence.
Qed.

Lemma appendIncremental_idempotent (P M : jsstring) :
  PropertyDetail.appendIncremental (PropertyDetail.appendIncremental P M) M =
  PropertyDetail.appendIncremental P M.
Proof.
  unfold PropertyDetail.appendIncremental at 2 3.
  destruct (includes P M) eqn:E.
  - unfold PropertyDetail.appendIncremental. rewrite E. reflexivity.
  - apply appendIncremental_spec. exists P, []. rewrite app_nil_r. reflexivity.
Qed.

Lemma onMessage_incremental (P M : jsstring) :
  PropertyDetail.classify M = PropertyDetail.Incremental ->
  PropertyDetail.onMessage P M = PropertyDetail.appendIncremental P M.
Proof.
  unfold PropertyDetail.classify, PropertyDetail.onMessage.
  unfold PropertyDetail.onMessage_action.
  destruct (JSON_parse M) as [parsed|]; [|reflexivity].
  destruct (get parsed $"scores") as [scores|]; [|reflexivity].
  destruct (truthy scores && _); [discriminate|].
  destruct (truthy (prop parsed $"property") || truthy scores); [discriminate|].
  reflexivity.
Qed.

(** C6. For an incremental message [M] and a draft [P]: when [M] occurs in
    [P] the draft stays [P], otherwise it becomes [P] followed by [M]. *)
Theorem incremental_append_suppresses_duplicates (P M : jsstring) :
  PropertyDetail.classify M = PropertyDetail.Incremental ->
  (substring M P -> PropertyDetail.onMessage P M = P)
  /\ (~ substring M P -> PropertyDetail.onMessage P M = P ++ M).
Proof.
  intros H. rewrite (onMessage_incremental P M H). apply appendIncremental_spec.
Qed.

Lemma not_substring (M P : jsstring) : includes P M = false -> ~ substring M P.
Proof. intros E H. apply includes_spec in H. congruence. Qed.

Lemma incremental_append_suppresses_duplicates_witness :
  PropertyDetail.onMessage $"The building has heat complaints." $"heat" =
    $"The building has heat complaints."
  /\ PropertyDetail.onMessage $"The building " $"has heat complaints." =
    $"The building has heat complaints.".
Proof.
  split.
  - apply (proj1 (incremental_append_suppresses_duplicates
                    $"The building has heat complaints." $"heat" eq_refl)).
    exists $"The building has ", $" complaints.". reflexivity.
  - apply (proj2 (incremental_append_suppresses_duplicates
                    $"The building " $"has heat complaints." eq_refl)).
    apply not_substring. reflexivity.
Defined.

(** ** The classifier *)

(** What the code classifies as final: the message is JSON, its [scores] is
    truthy, and one of the two keys [overall_transparency_grade] and
    [overall_grade] is present in it (with any value). *)
Lemma classify_final_iff (message : jsstring) :
  PropertyDetail.classify message = PropertyDetail.Final <->
  exists parsed scores,
    JSON_parse message = Some parsed /\
    get parsed $"scores" = Some scores /\
    truthy scores = true /\
    (prop scores $"overall_transparency_grade" <> VUndefined
     \/ prop scores $"overall_grade" <> VUndefined).
Proof.
  unfold PropertyDetail.classify, PropertyDetail.onMessage_action.
  destruct (JSON_parse message) as [parsed|] eqn:Hp.
  2:{ split; [discriminate | intros (? & ? & H & _); discriminate H]. }
  destruct (get parsed $"scores") as [scores|] eqn:Hs.
  2:{ split; [discriminate | intros (p & sc & H1 & H2 & _)].
      injection H1 as <-. congruence. }
  split.
  - intros H. exists parsed, scores.
    destruct (truthy scores) eqn:Ht; cbn [andb] in H.
    + split; [reflexivity|]. split; [exact Hs|]. split; [reflexivity|].
      revert H.
      destruct (prop scores $"overall_transparency_grade");
        try (intros _; left; discriminate).
      destruct (prop scores $"overall_grade"); try (intros _; right; discriminate).
      cbn [is_undefined negb orb].
      destruct (truthy (prop parsed $"property") || true); discriminate.
    + exfalso. revert H.
      destruct (truthy (prop parsed $"property") || false); discriminate.
  - intros (p & sc & H1 & H2 & Ht & Hk).
    injection H1 as <-. rewrite Hs in H2. injection H2 as <-.
    rewrite Ht. cbn [andb].
    assert (E : negb (is_undefined (prop scores $"overall_transparency_grade"))
                || negb (is_undefined (prop scores $"overall_grade")) = true).
    { destruct Hk as [Hk | Hk].
      - destruct (prop scores $"overall_transparency_grade");
          try reflexivity. congruence.
      - destruct (prop scores $"overall_grade");
          try (apply orb_true_r). congruence. }
    rewrite E. reflexivity.
Qed.

Lemma onMessage_final (prev message : jsstring) :
  PropertyDetail.classify message = PropertyDetail.Final ->
  PropertyDetail.onMessage prev message = message.
Proof.
  unfold PropertyDetail.classify, PropertyDetail.onMessage.
  unfold PropertyDetail.onMessage_action.
  destruct (JSON_parse message) as [parsed|]; [|discriminate].
  destruct (get parsed $"scores") as [scores|]; [|discriminate].
  destruct (truthy scores && _); [reflexivity|].
  destruct (truthy (prop parsed $"property") || truthy scores); discriminate.
Qed.

Lemma onMessage_partial (prev message : jsstring) :
  PropertyDetail.classify message = PropertyDetail.Partial ->
  PropertyDetail.onMessage prev message = prev.
Proof.
  unfold PropertyDetail.classify, PropertyDetail.onMessage.
  unfold PropertyDetail.onMessage_action.
  destruct (JSON_parse message) as [parsed|]; [|discriminate].
  destruct (get parsed $"scores") as [scores|]; [|discriminate].
  destruct (truthy scores && _); [discriminate|].
  destruct (truthy (prop parsed $"property") || truthy scores); [reflexivity|discriminate].
Qed.

(** The draft after one message, by the class of the message. *)
Lemma onMessage_by_class (prev message : jsstring) :
  PropertyDetail.onMessage prev message =
  match PropertyDetail.classify message with
  | PropertyDetail.Final => message
  | PropertyDetail.Partial => prev
  | PropertyDetail.Incremental => if includes prev message then prev else prev ++ message
  end.
Proof.
  destruct (PropertyDetail.classify message) eqn:E.
  - apply onMessage_final, E.
  - apply onMessage_partial, E.
  - apply onMessage_incremental, E.
Qed.

(** ** Finalization *)

(** C2, as stated, fails: narration that arrives after the final report is
    appended to it. *)
Lemma text_after_final_report_is_appended :
  PropertyDetail.classify #"{'scores':{'overall_grade':80}}" = PropertyDetail.Final
  /\ PropertyDetail.draft_after [#"{'scores':{'overall_grade':80}}"; $"Done."] =
     #"{'scores':{'overall_grade':80}}Done."
  /\ ~ finalization_latch.
Proof.
  split; [vm_compute; reflexivity|]. split; [vm_compute; reflexivity|].
  intros H.
  specialize (H [] #"{'scores':{'overall_grade':80}}" $"Done." eq_refl).
  vm_compute in H. discriminate H.
Qed.

(** C2, amended. After a final chunk has replaced the draft, a partial chunk
    leaves the draft unchanged and so does text that already occurs in it;
    a further final chunk replaces it again and new text is appended. *)
Theorem draft_after_final_chunk (prev final later : jsstring) :
  PropertyDetail.classify final = PropertyDetail.Final ->
  PropertyDetail.onMessage prev final = final
  /\ PropertyDetail.onMessage (PropertyDetail.onMessage prev final) later =
     match PropertyDetail.classify later with
     | PropertyDetail.Final => later
     | PropertyDetail.Partial => final
     | PropertyDetail.Incremental =>
         if includes final later then final else final ++ later
     end.
Proof.
  intros H. rewrite (onMessage_final prev final H). split; [reflexivity|].
  apply onMessage_by_class.
Qed.

Lemma draft_after_final_chunk_witness :
  PropertyDetail.onMessage $"Analyzing..." #"{'scores':{'overall_grade':80}}" =
    #"{'scores':{'overall_grade':80}}"
  /\ PropertyDetail.onMessage
       (PropertyDetail.onMessage $"Analyzing..." #"{'scores':{'overall_grade':80}}")
       #"{'property':{'address':'1 Main St'}}" =
     #"{'scores':{'overall_grade':80}}".
Proof.
  apply (draft_after_final_chunk $"Analyzing..." #"{'scores':{'overall_grade':80}}"
           #"{'property':{'address':'1 Main St'}}").
  vm_compute. reflexivity.
Defined.

(** ** Own properties *)

Lemma obj_lookup_replace (props : list (jsstring * value)) (k : jsstring) (v : value) :
  obj_lookup props k <> None -> obj_lookup (obj_replace props k v) k = Some v.
Proof.
  induction props as [|[k' v'] rest IH]; cbn [obj_lookup obj_replace].
  - congruence.
  - destruct (str_eqb k' k) eqn:E; intros H; cbn [obj_lookup]; rewrite E.
    + reflexivity.
    + apply IH, H.
Qed.

Lemma obj_lookup_insert_index (props : list (jsstring * value)) (i : N)
  (k : jsstring) (v : value) :
  obj_lookup props k = None -> obj_lookup (obj_insert_index props i k v) k = Some v.
Proof.
  induction props as [|[k' v'] rest IH]; cbn [obj_lookup obj_insert_index].
  - rewrite str_eqb_refl. reflexivity.
  - destruct (str_eqb k' k) eqn:E; [discriminate|]. intros H.
    destruct (array_index k') as [j|].
    + destruct (j <? i); cbn [obj_lookup].
      * rewrite E. apply IH, H.
      * rewrite str_eqb_refl. reflexivity.
    + cbn [obj_lookup]. rewrite str_eqb_refl. reflexivity.
Qed.

Lemma obj_lookup_app_new (props : list (jsstring * value)) (k : jsstring) (v : value) :
  obj_lookup props k = None -> obj_lookup (props ++ [(k, v)]) k = Some v.
Proof.
  induction props as [|[k' v'] rest IH]; cbn [obj_lookup app].
  - rewrite str_eqb_refl. reflexivity.
  - destruct (str_eqb k' k); [discriminate | exact IH].
Qed.

(** Reading back an assigned property. *)
Lemma obj_lookup_set (props : list (jsstring * value)) (k : jsstring) (v : value) :
  obj_lookup (obj_set props k v) k = Some v.
Proof.
  unfold obj_set. destruct (obj_lookup props k) eqn:E.
  - apply obj_lookup_replace. congruence.
  - destruct (array_index k).
    + apply obj_lookup_insert_index, E.
    + apply obj_lookup_app_new, E.
Qed.

Lemma prop_obj_set (props : list (jsstring * value)) (k : jsstring) (v : value) :
  prop (VObj (obj_set props k v)) k = v.
Proof. cbn [prop]. rewrite obj_lookup_set. reflexivity. Qed.

(** ** The classifier against the normalizer *)

(** C3. The classifier looks for two of the three aliases and for presence
    rather than a value: a report whose grade is under [overall] is delivered
    by the decoder, classified partial and never reaches the draft, although
    the normalizer resolves its grade; and a grade of [null] under
    [overall_grade] is classified final. *)
Theorem classifier_misses_overall_alias :
  (exists content,
     Api.decode_stream overall_only_stream = [Api.Message (VStr content)]
     /\ JSON_parse content = JSON_parse overall_only_report
     /\ PropertyDetail.classify content = PropertyDetail.Partial
     /\ PropertyDetail.draft_after [content] = []
     /\ prop (prop (ScoreCard.parseReport content) $"scores") $"overall"
        = VNum (Dec false 8 1))
  /\ PropertyDetail.classify overall_only_report = PropertyDetail.Partial
  /\ PropertyDetail.classify #"{'scores':{'overall_grade':null}}" = PropertyDetail.Final.
Proof.
  split; [|split; vm_compute; reflexivity].
  eexists. split; [vm_compute; reflexivity|].
  repeat split; vm_compute; reflexivity.
Qed.

(** ** Fenced and bare reports *)

(** The fenced branch: whatever the block parses to is the result. *)
Lemma parseReport_fenced (response : jsstring) (m : RegExp.match_result)
  (report : value) :
  response <> [] ->
  RegExp.exec ScoreCard.re_fence response = Some m ->
  JSON_parse (ScoreCard.group_text m 1) = Some report ->
  ScoreCard.parseReport response = report.
Proof.
  intros Hne Hm Hp. unfold ScoreCard.parseReport.
  destruct response; [congruence|]. rewrite Hm, Hp. reflexivity.
Qed.

(** C4. The fenced branch returns the parsed JSON as it is, without the
    normalization of the bare branch: from the same document the fenced
    report has no [scores.overall], the bare report has it. *)
Theorem fenced_report_is_not_normalized :
  ScoreCard.parseReport (fenced watson_report) =
    VObj [($"scores", VObj [($"overall_grade", VNum (Dec false 72 0))])]
  /\ ScoreCard.parseReport watson_report =
    VObj [($"scores", VObj [($"overall", VNum (Dec false 72 0));
                            ($"quality", VUndefined);
                            ($"financial", VUndefined)])]
  /\ prop (prop (ScoreCard.parseReport (fenced watson_report)) $"scores") $"overall"
     = VUndefined
  /\ prop (prop (ScoreCard.parseReport watson_report) $"scores") $"overall"
     = VNum (Dec false 72 0)
  /\ ScoreCard.parseReport (fenced watson_report) <> ScoreCard.parseReport watson_report.
Proof.
  repeat split; try (vm_compute; reflexivity).
  vm_compute. discriminate.
Qed.

(** ** The raw-text fallback *)

Lemma markdown_full_text (response : jsstring) :
  prop (ScoreCard.markdown response) $"full_text" = VStr response.
Proof. unfold ScoreCard.markdown, ScoreCard.assign. apply prop_obj_set. Qed.

(** C8. The fallback is not reached for JSON that only holds the property.
    The response is not empty and no stage resolves a score from it, yet
    [parseReport] returns [null], not an object carrying the response as
    [full_text].  The branch that returns [null] stands under the comment
    "ignore and try markdown parsing": the markdown stage, on the same
    response, gives the object with [full_text].  So the property, that
    every such response falls back to its text, does not hold of the code. *)
Theorem property_only_json_yields_null :
  property_only_response <> []
  /\ no_score_resolved property_only_response
  /\ ScoreCard.parseReport property_only_response = VNull
  /\ prop (ScoreCard.markdown property_only_response) $"full_text"
     = VStr property_only_response
  /\ ~ falls_back_to_full_text.
Proof.
  assert (Hn : no_score_resolved property_only_response).
  { split; [vm_compute; reflexivity|]. split.
    - intros parsed scores H1 H2. vm_compute in H1. injection H1 as <-.
      vm_compute in H2. injection H2 as <-. reflexivity.
    - repeat split; vm_compute; reflexivity. }
  split; [discriminate|]. split; [exact Hn|]. split; [vm_compute; reflexivity|].
  split; [apply markdown_full_text|].
  intros H. destruct (H property_only_response) as (props & E & _).
  - discriminate.
  - exact Hn.
  - vm_compute in E. discriminate E.
Qed.

(** X20. What [parseReport] returns when no score is resolved from JSON: for
    a response that is not empty, has no fenced block, and resolves no score
    as JSON, the result is [null] exactly when the response is JSON with a
    truthy [property] and no truthy [scores], and otherwise an object whose
    [full_text] is the response.  No exception leaves the function. *)
Theorem parseReport_falls_back_to_full_text (response : jsstring) :
  response <> [] ->
  RegExp.exec ScoreCard.re_fence response = None ->
  bare_json_without_scores response ->
  (property_only response = true /\ ScoreCard.parseReport response = VNull)
  \/ (property_only response = false
      /\ exists props,
           ScoreCard.parseReport response = VObj props
           /\ obj_lookup props $"full_text" = Some (VStr response)).
Proof.
  intros Hne Hfence Hbare.
  unfold ScoreCard.parseReport, property_only.
  destruct response as [|c response']; [congruence|].
  remember (c :: response') as response eqn:Er.
  rewrite Hfence. unfold ScoreCard.bare_json.
  destruct (JSON_parse response) as [parsed|] eqn:Hp.
  2:{ right. split; [reflexivity|]. eexists. split; [reflexivity|].
      apply obj_lookup_set. }
  destruct (get parsed $"scores") as [scores|] eqn:Hs.
  2:{ right. split; [reflexivity|]. eexists. split; [reflexivity|].
      apply obj_lookup_set. }
  rewrite (Hbare parsed scores Hp Hs).
  destruct (truthy (prop parsed $"property") && negb (truthy scores)).
  - left. split; reflexivity.
  - right. split; [reflexivity|]. eexists. split; [reflexivity|].
    apply obj_lookup_set.
Qed.

Lemma parseReport_falls_back_to_full_text_witness :
  (property_only #"{'note':'pending'}" = true
   /\ ScoreCard.parseReport #"{'note':'pending'}" = VNull)
  \/ (property_only #"{'note':'pending'}" = false
      /\ exists props,
           ScoreCard.parseReport #"{'note':'pending'}" = VObj props
           /\ obj_lookup props $"full_text" = Some (VStr #"{'note':'pending'}")).
Proof.
  apply (parseReport_falls_back_to_full_text #"{'note':'pending'}").
  - discriminate.
  - vm_compute. reflexivity.
  - intros parsed scores H1 H2. vm_compute in H1. injection H1 as <-.
    vm_compute in H2. injection H2 as <-. reflexivity.
Defined.

(** The fenced branch with a block that is not JSON: the outer [catch]. *)
Lemma parseReport_fenced_garbage :
  ScoreCard.parseReport (fenced $"{not json") =
  VObj [($"full_text", VStr (fenced $"{not json"))].
Proof. vm_compute. reflexivity. Qed.

(** ** The streams of a property view *)

Lemma map_indexed_Forall (P : Api.stream -> Prop)
  (f : nat * Api.stream -> Api.stream)
  (ns : list nat) (l : list Api.stream) :
  (forall p, P (snd p) -> P (f p)) ->
  Forall P l -> Forall P (map f (combine ns l)).
Proof.
  intros Hf Hl. apply Forall_forall. intros s Hin.
  apply in_map_iff in Hin. destruct Hin as ([n s0] & <- & Hin).
  apply Hf. cbn [snd]. apply in_combine_r in Hin.
  rewrite Forall_forall in Hl. apply Hl, Hin.
Qed.

Lemma view_step_never_aborts (v : PropertyDetail.view) (e : PropertyDetail.view_event) :
  Forall (fun s => Api.aborted s = false) (PropertyDetail.streams v) ->
  Forall (fun s => Api.aborted s = false)
         (PropertyDetail.streams (PropertyDetail.view_step v e)).
Proof.
  intros H. destruct e as [data| | |k]; cbn [PropertyDetail.view_step].
  - unfold PropertyDetail.fetchProperty_loaded.
    destruct (truthy data && truthy (opt_get data $"address")); [|exact H].
    unfold PropertyDetail.triggerWatsonAnalysis.
    destruct (ToString (prop data $"address")); [|exact H].
    cbn [Api.streamWatsonAnalysis PropertyDetail.streams].
    apply Forall_app. split; [exact H|]. repeat constructor.
  - exact H.
  - exact H.
  - cbn [PropertyDetail.streams]. unfold Api.close, Api.update_stream.
    apply map_indexed_Forall; [|exact H].
    intros [n s] Hs. cbn [fst snd] in *. destruct (Nat.eqb n k); exact Hs.
Qed.

(** No sequence of view events aborts a stream: the cleanup function that
    [triggerWatsonAnalysis] returns has no caller. *)
Lemma cleanup_is_never_invoked (events : list PropertyDetail.view_event) :
  Forall (fun s => Api.aborted s = false)
         (PropertyDetail.streams (PropertyDetail.run_view events)).
Proof.
  unfold PropertyDetail.run_view.
  assert (G : forall v,
             Forall (fun s => Api.aborted s = false) (PropertyDetail.streams v) ->
             Forall (fun s => Api.aborted s = false)
                    (PropertyDetail.streams (fold_left PropertyDetail.view_step events v))).
  { induction events as [|e events IH]; intros v Hv; cbn [fold_left].
    - exact Hv.
    - apply IH, view_step_never_aborts, Hv. }
  apply G. constructor.
Qed.

(** C9. A second analysis request, and leaving the view, abort nothing: after
    the view has loaded two properties in turn and has been left, the read
    loops of both requests are still running. *)
Theorem second_request_leaves_first_stream_running :
  PropertyDetail.running
    (PropertyDetail.run_view
       [PropertyDetail.PropertyLoaded (property_at "1 Main St");
        PropertyDetail.RouteChanged;
        PropertyDetail.PropertyLoaded (property_at "2 Elm St");
        PropertyDetail.Unmounted]) =
  [Api.mkStream $"Analyze property at 1 Main St" false false;
   Api.mkStream $"Analyze property at 2 Elm St" false false].
Proof. vm_compute. reflexivity. Qed.

(** ** The scenario of the specification, end to end *)

(** The property message is ignored, the scored report replaces the draft,
    the thread identifier arrives with the end, and the normalizer resolves
    the three scores of the draft. *)
Example scenario :
  exists report,
    Api.decode_stream [scenario_stream] =
      [Api.Message (VStr (hd [] (string_messages (Api.decode_stream [scenario_stream]))));
       Api.Message (VStr report);
       Api.Done (VStr $"abc123")]
    /\ PropertyDetail.draft_after (string_messages (Api.decode_stream [scenario_stream]))
       = report
    /\ prop (ScoreCard.parseReport report) $"scores" =
       VObj [($"overall", VNum (Dec false 8 1));
             ($"quality", VNum (Dec false 9 1));
             ($"financial", VNum (Dec false 7 1))].
Proof.
  eexists. split; [vm_compute; reflexivity|].
  split; vm_compute; reflexivity.
Qed.

(* ================================================================== *)
(** * Further properties of the pipeline *)
(* ================================================================== *)

(** ** The decoder makes no line feed of its own *)

Lemma utf16_no_lf (cp : N) : cp <> 10 -> ~ In 10 (Utf8.utf16 cp).
Proof.
  intros H. unfold Utf8.utf16. destruct (cp <? 65536).
  - intros [E | []]. congruence.
  - intros [E | [E | []]]; lia.
Qed.

Lemma emit_no_lf (st : Utf8.state) (cp : N) :
  cp <> 10 -> ~ In 10 (snd (Utf8.emit st cp)).
Proof.
  intros H. unfold Utf8.emit. destruct (Utf8.bom_seen st); cbn [snd].
  - apply utf16_no_lf, H.
  - destruct (cp =? 65279); [intros [] | apply utf16_no_lf, H].
Qed.

Lemma emit_state (st : Utf8.state) (cp : N) :
  pending_above_ascii st -> pending_above_ascii (fst (Utf8.emit st cp)).
Proof.
  unfold Utf8.emit. destruct (Utf8.bom_seen st); cbn [fst]; [auto|].
  unfold pending_above_ascii. cbn. auto.
Qed.

Lemma reset_state (st : Utf8.state) : pending_above_ascii (Utf8.reset st).
Proof. unfold pending_above_ascii, Utf8.reset. cbn. repeat split; try lia. Qed.

Lemma land_low_nonzero (b : N) : 144 <= b -> b <= 191 -> N.land b 63 <> 0.
Proof.
  intros H1 H2. change 63 with (N.ones 6). rewrite N.land_ones.
  change (2 ^ 6) with 64.
  assert (E : b mod 64 = b - 128) by (symmetry; apply N.mod_unique with (q := 2); lia).
  lia.
Qed.

Lemma continuation_nonzero (cp b : N) :
  cp <> 0 -> N.lor (N.shiftl cp 6) (N.land b 63) <> 10.
Proof.
  intros H E. apply (f_equal (fun x => N.shiftr x 6)) in E.
  rewrite N.shiftr_lor, N.shiftr_shiftl_l, N.sub_diag, N.shiftl_0_r in E by lia.
  change (N.shiftr 10 6) with 0 in E. apply N.lor_eq_0_l in E. contradiction.
Qed.

Lemma lead_spec (st : Utf8.state) (b : N) :
  pending_above_ascii st -> Utf8.bytes_needed st = 0 ->
  pending_above_ascii (fst (Utf8.lead st b))
  /\ (b <> 10 -> ~ In 10 (snd (Utf8.lead st b))).
Proof.
  intros Hst H0. pose proof Hst as (Hl & Hu & Hz & Hn). specialize (Hz H0).
  unfold Utf8.lead.
  destruct (b <=? 127) eqn:E1.
  { split; [apply emit_state, Hst | apply emit_no_lf]. }
  apply N.leb_gt in E1.
  destruct ((194 <=? b) && (b <=? 223)) eqn:E2.
  { apply andb_true_iff in E2. destruct E2 as [L R].
    apply N.leb_le in L, R. split; [|intros _ []].
    unfold pending_above_ascii; cbn. repeat split; try lia.
    left. change 31 with (N.ones 5). rewrite N.land_ones. change (2^5) with 32.
    intros E. pose proof (N.div_mod b 32 ltac:(lia)) as D. rewrite E in D.
    remember (b / 32) as q. lia. }
  destruct ((224 <=? b) && (b <=? 239)) eqn:E3.
  { apply andb_true_iff in E3. destruct E3 as [L R].
    apply N.leb_le in L, R. split; [|intros _ []].
    unfold pending_above_ascii; cbn.
    destruct (N.eqb_spec b 224) as [->|Hb].
    - cbn. repeat split; lia.
    - repeat split; try lia.
      + destruct (b =? 237); lia.
      + left. change 15 with (N.ones 4). rewrite N.land_ones. change (2^4) with 16.
        intros E. pose proof (N.div_mod b 16 ltac:(lia)) as D. rewrite E in D.
        remember (b / 16) as q. lia. }
  destruct ((240 <=? b) && (b <=? 244)) eqn:E4.
  { apply andb_true_iff in E4. destruct E4 as [L R].
    apply N.leb_le in L, R. split; [|intros _ []].
    unfold pending_above_ascii; cbn.
    destruct (N.eqb_spec b 240) as [->|Hb].
    - cbn. repeat split; lia.
    - repeat split; try lia.
      + destruct (b =? 244); lia.
      + left. change 7 with (N.ones 3). rewrite N.land_ones. change (2^3) with 8.
        intros E. pose proof (N.div_mod b 8 ltac:(lia)) as D. rewrite E in D.
        remember (b / 8) as q. lia. }
  split; [apply emit_state, Hst | intros _; apply emit_no_lf; lia].
Qed.

Lemma step_spec (st : Utf8.state) (byte : byte) :
  pending_above_ascii st ->
  pending_above_ascii (fst (Utf8.step st byte))
  /\ (byte <> x0a -> ~ In 10 (snd (Utf8.step st byte))).
Proof.
  intros Hst.
  assert (Hb : byte <> x0a -> Byte.to_N byte <> 10).
  { intros H E. apply H. apply (f_equal Byte.of_N) in E.
    rewrite Byte.of_to_N in E. cbn in E. congruence. }
  unfold Utf8.step.
  destruct (N.eqb_spec (Utf8.bytes_needed st) 0) as [H0|H0].
  { destruct (lead_spec st (Byte.to_N byte) Hst H0) as [A B]. split; auto. }
  destruct Hst as (Hl & Hu & Hz & Hn). destruct (Hn H0) as [Hs Hc].
  destruct ((Byte.to_N byte <? Utf8.lower st) || (Utf8.upper st <? Byte.to_N byte)) eqn:E.
  - pose proof (emit_state (Utf8.reset st) 65533 (reset_state st)) as A.
    pose proof (emit_no_lf (Utf8.reset st) 65533 ltac:(lia)) as B.
    assert (Z0 : Utf8.bytes_needed (fst (Utf8.emit (Utf8.reset st) 65533)) = 0).
    { unfold Utf8.emit, Utf8.reset. destruct (Utf8.bom_seen st); reflexivity. }
    destruct (Utf8.emit (Utf8.reset st) 65533) as [st1 o1]. cbn [fst snd] in *.
    destruct (lead_spec st1 (Byte.to_N byte) A Z0) as [C D].
    destruct (Utf8.lead st1 (Byte.to_N byte)) as [st2 o2]. cbn [fst snd] in *.
    split; [exact C|]. intros Hne Hin. apply in_app_or in Hin.
    destruct Hin as [Hin | Hin]; [exact (B Hin) | exact (D (Hb Hne) Hin)].
  - apply orb_false_iff in E. destruct E as [E1 E2].
    apply N.ltb_ge in E1, E2.
    assert (Hnew : N.lor (N.shiftl (Utf8.code_point st) 6) (N.land (Byte.to_N byte) 63) <> 0).
    { intros E. apply N.lor_eq_0_iff in E. destruct E as [Ea Eb].
      destruct Hc as [Hc | [Hc _]].
      - apply N.shiftl_eq_0_iff in Ea. contradiction.
      - revert Eb. apply land_low_nonzero; lia. }
    destruct (N.eqb_spec (Utf8.bytes_seen st + 1) (Utf8.bytes_needed st)) as [Ef|Ef].
    + split; [apply emit_state, reset_state|]. intros _.
      apply emit_no_lf. apply continuation_nonzero.
      destruct Hc as [Hc | [_ Hc]]; [exact Hc | lia].
    + split; [|intros _ []].
      unfold pending_above_ascii; cbn. repeat split; lia.
Qed.

Lemma decode_spec (st : Utf8.state) (bytes : list byte) :
  pending_above_ascii st ->
  pending_above_ascii (fst (Utf8.decode st bytes))
  /\ (Forall (fun b => b <> x0a) bytes -> ~ In 10 (snd (Utf8.decode st bytes))).
Proof.
  revert st. induction bytes as [|b rest IH]; intros st Hst; cbn [Utf8.decode].
  - split; [exact Hst | intros _ []].
  - destruct (step_spec st b Hst) as [A B].
    destruct (Utf8.step st b) as [st1 o1]. cbn [fst snd] in *.
    destruct (IH st1 A) as [C D].
    destruct (Utf8.decode st1 rest) as [st2 o2]. cbn [fst snd] in *.
    split; [exact C|]. intros HF Hin. inversion HF; subst.
    apply in_app_or in Hin. destruct Hin as [Hin | Hin]; [exact (B H1 Hin) | exact (D H2 Hin)].
Qed.

Lemma init_state : pending_above_ascii Utf8.init.
Proof. unfold pending_above_ascii, Utf8.init. cbn. repeat split; try lia. Qed.
(** ** Bytes after the last line feed *)

Lemma nl_free_app (a b : jsstring) : nl_free a -> nl_free b -> nl_free (a ++ b).
Proof. intros Ha Hb Hin. apply in_app_or in Hin. destruct Hin; auto. Qed.

(** X1. Bytes after the last line feed of the body never produce an event:
    an event whose line is not terminated when the body closes is dropped. *)
Theorem unterminated_tail_is_dropped (reads : list (list byte)) (pre tail : list byte) :
  concat reads = pre ++ tail ->
  Forall (fun b => b <> x0a) tail ->
  Api.decode_stream reads = Api.decode_stream [pre].
Proof.
  intros Hcat Htail.
  rewrite !decode_stream_events, Hcat. cbn [concat]. rewrite app_nil_r.
  unfold Api.decoded_text. rewrite decode_app_text, events_of_text_app.
  destruct (decode_spec Utf8.init pre init_state) as [Hst _].
  destruct (decode_spec (fst (Utf8.decode Utf8.init pre)) tail Hst) as [_ Hout].
  assert (Hfree : nl_free (Api.pending (snd (Utf8.decode Utf8.init pre)) ++
                           snd (Utf8.decode (fst (Utf8.decode Utf8.init pre)) tail))).
  { apply nl_free_app; [apply pending_is_nl_free | exact (Hout Htail)]. }
  unfold Api.events_of_text at 2. rewrite (complete_lines_nl_free _ Hfree).
  cbn [flat_map]. apply app_nil_r.
Qed.

Lemma unterminated_tail_is_dropped_witness :
  Api.decode_stream
    [line_bytes "data: {'type':'status','status':'thinking'}";
     quoted_bytes "data: {'type':'done','thread_id':'abc123'}"] =
  Api.decode_stream [line_bytes "data: {'type':'status','status':'thinking'}"].
Proof.
  apply (unterminated_tail_is_dropped _ _
           (quoted_bytes "data: {'type':'done','thread_id':'abc123'}")).
  - cbn [concat]. rewrite app_nil_r. reflexivity.
  - repeat constructor; discriminate.
Defined.

(** ** Carriage returns *)

Lemma trim_space_end (s : jsstring) (c : N) :
  is_space c = true -> trim (s ++ [c]) = trim s.
Proof.
  intros Hc. unfold trim. induction s as [|x s IH]; cbn [app trimStart].
  - rewrite Hc. reflexivity.
  - destruct (is_space x); [exact IH|].
    unfold trimEnd. change (x :: s ++ [c]) with ((x :: s) ++ [c]).
    rewrite rev_app_distr. cbn [rev app trimStart]. rewrite Hc. reflexivity.
Qed.

Lemma startsWith_snoc (s p : jsstring) (c : N) :
  ~ In c p -> startsWith (s ++ [c]) p = startsWith s p.
Proof.
  revert s. induction p as [|x p IH]; intros s Hc.
  - destruct s; reflexivity.
  - destruct s as [|y s]; cbn [app startsWith].
    + destruct (N.eqb_spec x c) as [->|Hx]; [exfalso; apply Hc; left; reflexivity|].
      reflexivity.
    + rewrite IH; [reflexivity|]. intros H. apply Hc. right. exact H.
Qed.

Lemma skipn_snoc (n : nat) (s : jsstring) (c : N) :
  (n <= length s)%nat -> skipn n (s ++ [c]) = skipn n s ++ [c].
Proof. intros H. rewrite skipn_app. replace (n - length s)%nat with O by lia. reflexivity. Qed.

Lemma startsWith_length (s p : jsstring) :
  startsWith s p = true -> (length p <= length s)%nat.
Proof.
  intros H. apply startsWith_spec in H. destruct H as [r ->].
  rewrite length_app. lia.
Qed.

(** X2. A carriage return at the end of a line changes nothing: a stream
    with CRLF line ends is handled like one with LF line ends. *)
Theorem carriage_return_is_ignored (line : jsstring) :
  Api.process_line (line ++ [13]) = Api.process_line line.
Proof.
  unfold Api.process_line.
  rewrite startsWith_snoc by (cbn; intuition discriminate).
  destruct (startsWith line $"data: ") eqn:E; [|reflexivity].
  apply startsWith_length in E. unfold slice.
  rewrite skipn_snoc by exact E.
  rewrite trim_space_end by reflexivity. reflexivity.
Qed.

(** ** Lines that are not events *)

(** X3. A line that does not start with [data: ] (a comment, a keep-alive,
    an [event:] field) produces nothing and does not disturb its neighbours. *)
Theorem other_lines_are_ignored
  (reads : list (list byte)) (pre line post : jsstring) :
  Api.decoded_text (concat reads) = pre ++ line ++ 10 :: post ->
  Api.at_line_boundary pre ->
  nl_free line ->
  startsWith line $"data: " = false ->
  Api.decode_stream reads = Api.events_of_text (pre ++ post).
Proof.
  intros Htext Hpre Hline Hdata.
  rewrite decode_stream_events, Htext.
  rewrite !(events_after_boundary _ _ Hpre), (events_of_line _ _ Hline).
  unfold Api.process_line. rewrite Hdata. reflexivity.
Qed.

Lemma other_lines_are_ignored_witness :
  Api.decode_stream
    [line_bytes "data: {'type':'status','status':'thinking'}" ++
     line_bytes ": keep-alive" ++
     line_bytes "data: {'type':'done','thread_id':'abc123'}"] =
  Api.events_of_text
    ((#"data: {'type':'status','status':'thinking'}" ++ [10]) ++
     (#"data: {'type':'done','thread_id':'abc123'}" ++ [10])).
Proof.
  apply (other_lines_are_ignored _ _ $": keep-alive").
  - vm_compute. reflexivity.
  - right. eexists. reflexivity.
  - nl_free_tac.
  - reflexivity.
Defined.

(** ** The draft over a sequence of messages *)

(** X4. Delivering a message twice in a row leaves the draft as after the
    first delivery, whatever the class of the message. *)
Theorem repeated_message_changes_nothing (prev message : jsstring) :
  PropertyDetail.onMessage (PropertyDetail.onMessage prev message) message =
  PropertyDetail.onMessage prev message.
Proof.
  rewrite (onMessage_by_class (PropertyDetail.onMessage prev message)).
  rewrite (onMessage_by_class prev).
  destruct (PropertyDetail.classify message); try reflexivity.
  apply appendIncremental_idempotent.
Qed.

Lemma fold_onMessage_app (a b : list jsstring) (start : jsstring) :
  fold_left PropertyDetail.onMessage (a ++ b) start =
  fold_left PropertyDetail.onMessage b (fold_left PropertyDetail.onMessage a start).
Proof. apply fold_left_app. Qed.

(** X5. A final chunk discards the history: the draft after it depends on
    the final chunk and the later messages only. *)
Theorem final_chunk_discards_history (before after : list jsstring) (final : jsstring) :
  PropertyDetail.classify final = PropertyDetail.Final ->
  PropertyDetail.draft_after (before ++ final :: after) =
  fold_left PropertyDetail.onMessage after final.
Proof.
  intros H. unfold PropertyDetail.draft_after.
  rewrite fold_onMessage_app. cbn [fold_left].
  rewrite (onMessage_final _ _ H). reflexivity.
Qed.

(** X6. Partial chunks are invisible: removing them from the messages of a
    request leaves the draft unchanged. *)
Theorem partial_chunks_are_invisible (messages : list jsstring) :
  PropertyDetail.draft_after (filter (fun m => negb (is_partial m)) messages) =
  PropertyDetail.draft_after messages.
Proof.
  unfold PropertyDetail.draft_after. generalize (@nil N) as start.
  induction messages as [|m rest IH]; intros start; cbn [filter fold_left].
  - reflexivity.
  - unfold is_partial at 1.
    destruct (PropertyDetail.classify m) eqn:E; cbn [negb fold_left];
      rewrite ?IH; try reflexivity.
    rewrite (onMessage_partial start m E). reflexivity.
Qed.

Lemma final_chunk_discards_history_witness :
  PropertyDetail.draft_after
    [$"Analyzing..."; #"{'scores':{'overall_grade':80}}"; $"Done."] =
  fold_left PropertyDetail.onMessage [$"Done."] #"{'scores':{'overall_grade':80}}".
Proof.
  apply (final_chunk_discards_history [$"Analyzing..."] [$"Done."]
           #"{'scores':{'overall_grade':80}}").
  vm_compute. reflexivity.
Defined.

Lemma substring_app_r (M P t : jsstring) : substring M P -> substring M (P ++ t).
Proof.
  intros (l & r & ->). exists l, (r ++ t). rewrite <- !app_assoc. reflexivity.
Qed.

Lemma onMessage_grows (prev message : jsstring) :
  is_final message = false ->
  exists t, PropertyDetail.onMessage prev message = prev ++ t.
Proof.
  unfold is_final. rewrite onMessage_by_class.
  destruct (PropertyDetail.classify message); [discriminate| |]; intros _.
  - exists []. rewrite app_nil_r. reflexivity.
  - destruct (includes prev message).
    + exists []. rewrite app_nil_r. reflexivity.
    + exists message. reflexivity.
Qed.

Lemma substring_kept (M start : jsstring) (messages : list jsstring) :
  forallb (fun m => negb (is_final m)) messages = true ->
  substring M start ->
  substring M (fold_left PropertyDetail.onMessage messages start).
Proof.
  revert start. induction messages as [|m rest IH]; intros start Hall Hs;
    cbn [fold_left forallb] in *; [exact Hs|].
  apply andb_true_iff in Hall. destruct Hall as [Hm Hrest].
  apply IH; [exact Hrest|].
  destruct (onMessage_grows start m) as [t ->]; [|apply substring_app_r, Hs].
  destruct (is_final m); [discriminate | reflexivity].
Qed.

(** X7. Without a final chunk no narration is lost: every incremental
    message of the request occurs in the draft. *)
Theorem narration_is_kept (messages : list jsstring) (M : jsstring) :
  forallb (fun m => negb (is_final m)) messages = true ->
  In M messages ->
  PropertyDetail.classify M = PropertyDetail.Incremental ->
  substring M (PropertyDetail.draft_after messages).
Proof.
  unfold PropertyDetail.draft_after. generalize (@nil N) as start.
  induction messages as [|m rest IH]; intros start Hall Hin Hc; [destruct Hin|].
  cbn [fold_left forallb] in *.
  apply andb_true_iff in Hall. destruct Hall as [Hm Hrest].
  destruct Hin as [-> | Hin].
  - apply substring_kept; [exact Hrest|].
    rewrite (onMessage_incremental start M Hc).
    unfold PropertyDetail.appendIncremental.
    destruct (includes start M) eqn:E.
    + apply includes_spec, E.
    + exists start, []. rewrite app_nil_r. reflexivity.
  - apply IH; assumption.
Qed.

Lemma narration_is_kept_witness :
  substring $"The building "
    (PropertyDetail.draft_after
       [$"The building "; #"{'property':{'address':'1 Main St'}}"; $"has heat complaints."]).
Proof.
  apply (narration_is_kept
           [$"The building "; #"{'property':{'address':'1 Main St'}}"; $"has heat complaints."]).
  - vm_compute. reflexivity.
  - left. reflexivity.
  - vm_compute. reflexivity.
Defined.
(** ** Reading after writing another key *)

Lemma str_eqb_neq (a b : jsstring) : a <> b -> str_eqb a b = false.
Proof.
  intros H. destruct (str_eqb a b) eqn:E; [|reflexivity].
  apply str_eqb_spec in E. contradiction.
Qed.

Lemma str_eqb_trans_false (a b c : jsstring) :
  str_eqb a b = true -> str_eqb b c = false -> str_eqb a c = false.
Proof. intros H1 H2. apply str_eqb_spec in H1. subst. exact H2. Qed.

Lemma obj_lookup_replace_other (props : list (jsstring * value)) (k k' : jsstring) (v : value) :
  str_eqb k k' = false ->
  obj_lookup (obj_replace props k v) k' = obj_lookup props k'.
Proof.
  intros Hk. induction props as [|[k0 v0] rest IH]; cbn [obj_lookup obj_replace].
  - reflexivity.
  - destruct (str_eqb k0 k) eqn:E; cbn [obj_lookup].
    + rewrite (str_eqb_trans_false _ _ _ E Hk). reflexivity.
    + rewrite IH. reflexivity.
Qed.

Lemma obj_lookup_insert_index_other (props : list (jsstring * value)) (i : N)
  (k k' : jsstring) (v : value) :
  str_eqb k k' = false ->
  obj_lookup (obj_insert_index props i k v) k' = obj_lookup props k'.
Proof.
  intros Hk. induction props as [|[k0 v0] rest IH]; cbn [obj_lookup obj_insert_index].
  - rewrite Hk. reflexivity.
  - destruct (array_index k0) as [j|].
    + destruct (j <? i); cbn [obj_lookup].
      * rewrite IH. reflexivity.
      * rewrite Hk. reflexivity.
    + cbn [obj_lookup]. rewrite Hk. reflexivity.
Qed.

Lemma obj_lookup_app_other (props : list (jsstring * value)) (k k' : jsstring) (v : value) :
  str_eqb k k' = false ->
  obj_lookup (props ++ [(k, v)]) k' = obj_lookup props k'.
Proof.
  intros Hk. induction props as [|[k0 v0] rest IH]; cbn [obj_lookup app].
  - rewrite Hk. reflexivity.
  - rewrite IH. reflexivity.
Qed.

Lemma obj_lookup_set_other (props : list (jsstring * value)) (k k' : jsstring) (v : value) :
  str_eqb k k' = false ->
  obj_lookup (obj_set props k v) k' = obj_lookup props k'.
Proof.
  intros Hk. unfold obj_set. destruct (obj_lookup props k).
  - apply obj_lookup_replace_other, Hk.
  - destruct (array_index k).
    + apply obj_lookup_insert_index_other, Hk.
    + apply obj_lookup_app_other, Hk.
Qed.

Lemma prop_props_of (o : value) (k : jsstring) :
  prop (VObj (ScoreCard.props_of o)) k = prop o k.
Proof. destruct o; reflexivity. Qed.

Lemma prop_assign (o : value) (k k' : jsstring) (v : value) :
  prop (ScoreCard.assign o k v) k' = if str_eqb k k' then v else prop o k'.
Proof.
  unfold ScoreCard.assign. destruct (str_eqb k k') eqn:E.
  - apply str_eqb_spec in E. subst. apply prop_obj_set.
  - cbn [prop]. rewrite (obj_lookup_set_other _ _ _ _ E).
    rewrite <- (prop_props_of o k'). reflexivity.
Qed.

Lemma prop_assign_in (o : value) (k1 k2 a b : jsstring) (v : value) :
  prop (prop (ScoreCard.assign_in o k1 k2 v) a) b =
  if str_eqb k1 a && str_eqb k2 b then v else prop (prop o a) b.
Proof.
  unfold ScoreCard.assign_in. rewrite prop_assign.
  destruct (str_eqb k1 a) eqn:E1; cbn [andb]; [|reflexivity].
  apply str_eqb_spec in E1. subst. rewrite prop_assign. reflexivity.
Qed.

(** ** Score aliases *)

Lemma nullish_present (a b : value) : present a -> nullish a b = a.
Proof. intros [H1 H2]. destruct a; try reflexivity; congruence. Qed.

Lemma truthy_scores_object (parsed : value) :
  truthy (prop parsed $"scores") = true -> get parsed $"scores" = Some (prop parsed $"scores").
Proof. destruct parsed; try discriminate; reflexivity. Qed.

Lemma bare_json_normalized (response : jsstring) (parsed : value) :
  RegExp.exec ScoreCard.re_fence response = None ->
  JSON_parse response = Some parsed ->
  truthy (prop parsed $"scores") = true ->
  ScoreCard.has_score_value
    (ScoreCard.normalize_scores parsed (prop parsed $"scores")) = true ->
  ScoreCard.parseReport response =
  VObj (obj_set (spread parsed) $"scores"
          (ScoreCard.normalize_scores parsed (prop parsed $"scores"))).
Proof.
  intros Hf Hp Ht Hs. unfold ScoreCard.parseReport.
  destruct response as [|c r]; [rewrite JSON_parse_empty in Hp; discriminate|].
  rewrite Hf. unfold ScoreCard.bare_json.
  rewrite Hp, (truthy_scores_object _ Ht), Ht, Hs. reflexivity.
Qed.

Lemma normalize_scores_overall (parsed scores : value) :
  prop (ScoreCard.normalize_scores parsed scores) $"overall" =
  nullish (prop scores $"overall_transparency_grade")
    (nullish (prop scores $"overall_grade") (prop scores $"overall")).
Proof. reflexivity. Qed.

Lemma normalize_scores_quality (parsed scores : value) :
  prop (ScoreCard.normalize_scores parsed scores) $"quality" =
  nullish (prop scores $"quality_score") (prop scores $"quality").
Proof. reflexivity. Qed.

Lemma normalize_scores_financial (parsed scores : value) :
  prop (ScoreCard.normalize_scores parsed scores) $"financial" =
  nullish (prop scores $"financial_score")
    (nullish (prop scores $"financial")
       (nullish (opt_get (prop parsed $"financial_audit") $"score")
          (opt_get (prop parsed $"financial_audit") $"financial_score"))).
Proof. reflexivity. Qed.

Lemma nullish_absent (a b : value) : ~ present a -> nullish a b = b.
Proof.
  intros H. destruct a; try reflexivity; exfalso; apply H; split; discriminate.
Qed.

(** X8. For a response that is JSON with scores, the overall grade of the
    report is the first of [overall_transparency_grade], [overall_grade]
    and [overall] that is neither missing nor [null]. *)
Theorem overall_grade_alias_priority (response : jsstring) (parsed : value) :
  RegExp.exec ScoreCard.re_fence response = None ->
  JSON_parse response = Some parsed ->
  truthy (prop parsed $"scores") = true ->
  let scores := prop parsed $"scores" in
  let first := prop scores $"overall_transparency_grade" in
  let second := prop scores $"overall_grade" in
  let third := prop scores $"overall" in
  let overall := prop (prop (ScoreCard.parseReport response) $"scores") $"overall" in
  (present first -> overall = first)
  /\ (~ present first -> present second -> overall = second)
  /\ (~ present first -> ~ present second -> present third -> overall = third).
Proof.
  intros Hf Hp Ht scores first second third overall.
  assert (G : forall v, present v ->
                nullish first (nullish second third) = v -> overall = v).
  { intros v Hv E. subst overall.
    rewrite (bare_json_normalized response parsed Hf Hp Ht).
    - rewrite prop_obj_set, normalize_scores_overall. exact E.
    - unfold ScoreCard.has_score_value. rewrite normalize_scores_overall.
      fold scores first second third. rewrite E.
      destruct Hv as [Hv _]. destruct v; try reflexivity. congruence. }
  repeat split.
  - intros H1. apply G; [exact H1 | apply nullish_present, H1].
  - intros H1 H2. apply G; [exact H2|].
    rewrite (nullish_absent _ _ H1). apply nullish_present, H2.
  - intros H1 H2 H3. apply G; [exact H3|].
    rewrite (nullish_absent _ _ H1), (nullish_absent _ _ H2). reflexivity.
Qed.

Lemma overall_grade_alias_priority_witness :
  prop (prop (ScoreCard.parseReport
                #"{'scores':{'overall':50,'overall_grade':72,'overall_transparency_grade':null}}")
          $"scores") $"overall" = VNum (Dec false 72 0).
Proof.
  apply (proj1 (proj2 (overall_grade_alias_priority
    #"{'scores':{'overall':50,'overall_grade':72,'overall_transparency_grade':null}}"
    (VObj [($"scores", VObj [($"overall", VNum (Dec false 5 1));
                             ($"overall_grade", VNum (Dec false 72 0));
                             ($"overall_transparency_grade", VNull)])])
    ltac:(vm_compute; reflexivity) ltac:(vm_compute; reflexivity)
    ltac:(vm_compute; reflexivity)))).
  - intros [_ H]. apply H. reflexivity.
  - split; discriminate.
Defined.

(** X9. Normalization replaces [scores] only: every other field of the
    parsed response is in the report unchanged. *)
Theorem normalization_keeps_other_fields (response : jsstring) (props : list (jsstring * value)) :
  RegExp.exec ScoreCard.re_fence response = None ->
  JSON_parse response = Some (VObj props) ->
  truthy (prop (VObj props) $"scores") = true ->
  ScoreCard.has_score_value
    (ScoreCard.normalize_scores (VObj props) (prop (VObj props) $"scores")) = true ->
  forall k, k <> $"scores" ->
    prop (ScoreCard.parseReport response) k = prop (VObj props) k.
Proof.
  intros Hf Hp Ht Hs k Hk.
  rewrite (bare_json_normalized response (VObj props) Hf Hp Ht Hs).
  cbn [prop spread]. rewrite obj_lookup_set_other; [reflexivity|].
  apply str_eqb_neq. congruence.
Qed.

Lemma normalization_keeps_other_fields_witness :
  prop (ScoreCard.parseReport
          #"{'property':{'address':'1 Main St'},'scores':{'quality_score':90}}")
       $"property" = VObj [($"address", VStr $"1 Main St")].
Proof.
  apply (normalization_keeps_other_fields
           #"{'property':{'address':'1 Main St'},'scores':{'quality_score':90}}"
           [($"property", VObj [($"address", VStr $"1 Main St")]);
            ($"scores", VObj [($"quality_score", VNum (Dec false 9 1))])]).
  - vm_compute. reflexivity.
  - vm_compute. reflexivity.
  - vm_compute. reflexivity.
  - vm_compute. reflexivity.
  - discriminate.
Defined.
(** ** The lists of the markdown stage *)

Lemma with_match_keeps (P : value -> Prop) (r : RegExp.re) (s : jsstring)
  (f : RegExp.match_result -> value -> value) (report : value) :
  (forall m x, P x -> P (f m x)) -> P report -> P (ScoreCard.with_match r s f report).
Proof.
  intros Hf H. unfold ScoreCard.with_match. destruct (RegExp.exec r s); auto.
Qed.

Lemma fold_keeps (A : Type) (P : value -> Prop) (f : value -> A -> value) (l : list A)
  (report : value) :
  (forall x a, P x -> P (f x a)) -> P report -> P (fold_left f l report).
Proof.
  intros Hf. revert report. induction l as [|a l IH]; intros report H; cbn [fold_left].
  - exact H.
  - apply IH, Hf, H.
Qed.

Lemma assign_in_keeps (report : value) (k1 k2 : jsstring) (v : value) :
  str_eqb k1 $"quality_audit" && str_eqb k2 $"recent_issues" = false ->
  str_eqb k1 $"financial_audit" && str_eqb k2 $"risk_factors" = false ->
  carries_lists report -> carries_lists (ScoreCard.assign_in report k1 k2 v).
Proof.
  intros H1 H2 [A B]. unfold carries_lists.
  rewrite !prop_assign_in, H1, H2. split; assumption.
Qed.

Lemma push_issue_keeps (report v : value) :
  issue_shaped v -> carries_lists report ->
  carries_lists (ScoreCard.push_in report $"quality_audit" $"recent_issues" v).
Proof.
  intros Hv [A B]. unfold ScoreCard.push_in.
  destruct (prop (prop report $"quality_audit") $"recent_issues") as [| | | | |l|] eqn:E;
    try (split; [rewrite E; exact A | exact B]).
  unfold carries_lists. rewrite !prop_assign_in. cbn [andb str_eqb].
  change (str_eqb $"quality_audit" $"quality_audit" && str_eqb $"recent_issues" $"recent_issues")
    with true.
  change (str_eqb $"quality_audit" $"financial_audit" && str_eqb $"recent_issues" $"risk_factors")
    with false.
  split; [|exact B]. cbn [list_of] in *. apply Forall_app. split; [exact A|].
  constructor; [exact Hv | constructor].
Qed.

Lemma push_risk_keeps (report v : value) :
  risk_shaped v -> carries_lists report ->
  carries_lists (ScoreCard.push_in report $"financial_audit" $"risk_factors" v).
Proof.
  intros Hv [A B]. unfold ScoreCard.push_in.
  destruct (prop (prop report $"financial_audit") $"risk_factors") as [| | | | |l|] eqn:E;
    try (split; [exact A | rewrite E; exact B]).
  unfold carries_lists. rewrite !prop_assign_in.
  change (str_eqb $"financial_audit" $"quality_audit" && str_eqb $"risk_factors" $"recent_issues")
    with false.
  change (str_eqb $"financial_audit" $"financial_audit" && str_eqb $"risk_factors" $"risk_factors")
    with true.
  split; [exact A|]. cbn [list_of] in *. apply Forall_app. split; [exact B|].
  constructor; [exact Hv | constructor].
Qed.

Lemma or_else_text (t : option jsstring) :
  exists d, or_else (match t with Some x => VStr x | None => VUndefined end) (VStr []) = VStr d.
Proof.
  destruct t as [[|c x]|]; eexists; reflexivity.
Qed.

Lemma markdown_carries_lists (response : jsstring) :
  carries_lists (ScoreCard.markdown response).
Proof.
  unfold ScoreCard.markdown.
  assert (Hfull : forall r, carries_lists r ->
                    carries_lists (ScoreCard.assign r $"full_text" (VStr response))).
  { intros r [A B]. unfold carries_lists. rewrite !prop_assign.
    change (str_eqb $"full_text" $"quality_audit") with false.
    change (str_eqb $"full_text" $"financial_audit") with false.
    split; assumption. }
  apply Hfull.
  (* the recommendation *)
  apply with_match_keeps.
  { intros m x Hx. repeat apply assign_in_keeps; try reflexivity. exact Hx. }
  (* the risk factors *)
  apply with_match_keeps.
  { intros section x Hx. apply fold_keeps; [|exact Hx].
    intros y m Hy.
    destruct (trim (ScoreCard.group_text m 1)) as [|c risk] eqn:Er; [exact Hy|].
    destruct (RegExp.exec ScoreCard.re_leading_digits (c :: risk)) eqn:Ed; [exact Hy|].
    apply push_risk_keeps; [|exact Hy].
    exists (c :: risk). repeat split; [discriminate | exact Ed]. }
  (* the issues and the note *)
  apply with_match_keeps.
  { intros section x Hx. apply with_match_keeps.
    - intros m y Hy. apply assign_in_keeps; try reflexivity. exact Hy.
    - apply fold_keeps; [|exact Hx].
      intros y m Hy. apply push_issue_keeps; [|exact Hy].
      destruct (or_else_text (RegExp.group m 2)) as [d ->].
      eexists _, _. reflexivity. }
  (* the labels *)
  repeat (apply with_match_keeps;
          [intros m x Hx; repeat apply assign_in_keeps; try reflexivity; exact Hx|]).
  split; cbn; constructor.
Qed.

(** X10. For a response that is neither fenced nor JSON the report carries
    its two lists whatever the text: [recent_issues] holds objects with a
    [type] and a [details] string, [risk_factors] holds non-empty strings
    that do not start with a digit; and [full_text] is the response. *)
Theorem markdown_report_shape (response : jsstring) :
  response <> [] ->
  RegExp.exec ScoreCard.re_fence response = None ->
  JSON_parse response = None ->
  carries_lists (ScoreCard.parseReport response)
  /\ prop (ScoreCard.parseReport response) $"full_text" = VStr response.
Proof.
  intros Hne Hf Hp. unfold ScoreCard.parseReport.
  destruct response as [|c r]; [congruence|].
  rewrite Hf. unfold ScoreCard.bare_json. rewrite Hp.
  split; [apply markdown_carries_lists | apply markdown_full_text].
Qed.

Lemma markdown_report_shape_witness :
  carries_lists (ScoreCard.parseReport audit_text)
  /\ prop (ScoreCard.parseReport audit_text) $"full_text" = VStr audit_text.
Proof.
  apply (markdown_report_shape audit_text).
  - discriminate.
  - vm_compute. reflexivity.
  - vm_compute. reflexivity.
Defined.

Example markdown_report_lists :
  prop (prop (ScoreCard.parseReport audit_text) $"quality_audit") $"recent_issues" =
    VArr [VObj [($"type", VStr $"Heat complaints"); ($"details", VStr $"3 in 2023")]]
  /\ prop (prop (ScoreCard.parseReport audit_text) $"financial_audit") $"risk_factors" =
    VArr [VStr $"High tax burden"].
Proof. split; vm_compute; reflexivity. Qed.

(** ** The listing *)

Lemma settle_properties (q : PropertyContext.filters) (r : Api.settled)
  (st : PropertyContext.state) :
  PropertyContext.is_array (PropertyContext.properties (PropertyContext.settle q r st)) = true.
Proof.
  unfold PropertyContext.settle.
  destruct (Api.getProperties r) as [data|[m|]]; cbn [PropertyContext.properties];
    try reflexivity.
  destruct (PropertyContext.is_array data) eqn:E; [exact E | reflexivity].
Qed.

Lemma step_properties (st : PropertyContext.state) (e : PropertyContext.event) :
  PropertyContext.is_array (PropertyContext.properties st) = true ->
  PropertyContext.is_array (PropertyContext.properties (PropertyContext.step st e)) = true.
Proof.
  intros H. destruct e as [|p|p| | | |k r]; cbn [PropertyContext.step]; try exact H.
  - unfold PropertyContext.prevPage.
    destruct (0 <? PropertyContext.skip (PropertyContext.current st))%Z; exact H.
  - destruct (nth_error (PropertyContext.in_flight st) k); [|exact H].
    apply settle_properties.
Qed.

(** X11. The [properties] state is an array after any calls of the context
    functions and any responses, also a body without [properties], a body
    that is not an object, and a failed request. *)
Theorem properties_is_always_an_array (events : list PropertyContext.event) :
  exists l, PropertyContext.properties (PropertyContext.run events) = VArr l.
Proof.
  assert (G : PropertyContext.is_array
                (PropertyContext.properties (PropertyContext.run events)) = true).
  { unfold PropertyContext.run. generalize PropertyContext.initial, (eq_refl : PropertyContext.is_array (PropertyContext.properties PropertyContext.initial) = true).
    induction events as [|e events IH]; intros st Hst; cbn [fold_left].
    - exact Hst.
    - apply IH, step_properties, Hst. }
  destruct (PropertyContext.properties (PropertyContext.run events)); try discriminate G.
  eexists. reflexivity.
Qed.

Lemma fetch_paged (p : PropertyContext.patch) (st : PropertyContext.state) :
  paged st -> on_a_page (PropertyContext.merge (PropertyContext.current st) p) ->
  paged (PropertyContext.fetchProperties p st).
Proof.
  intros [A B] C. split; [exact A|]. cbn [PropertyContext.fetchProperties PropertyContext.in_flight].
  apply Forall_app. split; [exact B | constructor; [exact C | constructor]].
Qed.

Lemma settle_paged (q : PropertyContext.filters) (r : Api.settled)
  (st : PropertyContext.state) :
  on_a_page q -> paged st -> paged (PropertyContext.settle q r st).
Proof.
  intros Hq [A B]. unfold PropertyContext.settle.
  destruct (Api.getProperties r) as [data|[m|]]; split; assumption.
Qed.

Lemma Forall_remove_nth (A : Type) (P : A -> Prop) (k : nat) (l : list A) :
  Forall P l -> Forall P (PropertyContext.remove_nth k l).
Proof.
  intros H. unfold PropertyContext.remove_nth. rewrite Forall_forall in *.
  intros x Hx. apply H. apply in_app_or in Hx. destruct Hx as [Hx | Hx].
  - rewrite <- (firstn_skipn k l). apply in_or_app. left. exact Hx.
  - rewrite <- (firstn_skipn (S k) l). apply in_or_app. right. exact Hx.
Qed.

Lemma merge_no_change (f : PropertyContext.filters) :
  PropertyContext.merge f PropertyContext.no_change = f.
Proof. destruct f. reflexivity. Qed.

Lemma step_paged (st : PropertyContext.state) (e : PropertyContext.event) :
  page_event e -> paged st -> paged (PropertyContext.step st e).
Proof.
  intros He Hst. pose proof Hst as [[Hl (n & Hn & Hs)] Hf].
  destruct He as [-> | [[a ->] | (k & r & ->)]].
  - cbn [PropertyContext.step]. apply fetch_paged; [exact Hst|].
    rewrite merge_no_change. exact (proj1 Hst).
  - destruct a as [l| | |]; cbn [PropertyList.event_of PropertyContext.step].
    + unfold PropertyContext.updateFilters. apply fetch_paged; [exact Hst|].
      split; filters_cbn; [exact Hl|]. exists 0%Z. split; [lia | reflexivity].
    + unfold PropertyContext.nextPage. apply fetch_paged; [exact Hst|].
      split; filters_cbn; [exact Hl|]. exists (n + 1)%Z. split; lia.
    + unfold PropertyContext.prevPage.
      destruct (0 <? PropertyContext.skip (PropertyContext.current st))%Z eqn:E;
        [|exact Hst].
      apply fetch_paged; [exact Hst|].
      split; filters_cbn; [exact Hl|]. apply Z.ltb_lt in E.
      exists (n - 1)%Z. split; lia.
    + unfold PropertyContext.resetFilters. apply fetch_paged; [exact Hst|].
      split; filters_cbn; [reflexivity|]. exists 0%Z. split; [lia | reflexivity].
  - cbn [PropertyContext.step].
    destruct (nth_error (PropertyContext.in_flight st) k) as [q|] eqn:E; [|exact Hst].
    apply settle_paged.
    + rewrite Forall_forall in Hf. apply Hf. eapply nth_error_In, E.
    + split; [exact (proj1 Hst)|]. cbn [PropertyContext.in_flight].
      apply Forall_remove_nth, Hf.
Qed.

(** X12. Along the actions of the page the page size stays twenty and [skip]
    a whole number of pages: the page number is defined, at least one, and
    [hasPrevPage] holds exactly from the second page on. *)
Theorem page_number_is_well_defined (events : list PropertyContext.event) :
  Forall page_event events ->
  let st := PropertyContext.run events in
  PropertyContext.limit (PropertyContext.current st) = 20%Z
  /\ exists n, (0 <= n)%Z
       /\ PropertyContext.skip (PropertyContext.current st) = (20 * n)%Z
       /\ PropertyContext.currentPage st = Some (n + 1)%Z
       /\ PropertyContext.hasPrevPage st = (0 <? n)%Z.
Proof.
  intros Hev st.
  assert (G : paged st).
  { subst st. unfold PropertyContext.run.
    assert (H0 : paged PropertyContext.initial).
    { split; [|constructor]. split; [reflexivity|]. exists 0%Z. split; [lia|reflexivity]. }
    revert H0. generalize PropertyContext.initial.
    induction Hev as [|e events He Hev IH]; intros s Hs; cbn [fold_left].
    - exact Hs.
    - apply IH, step_paged; assumption. }
  destruct G as [[Hl (n & Hn & Hs)] _]. split; [exact Hl|].
  exists n. repeat split; try assumption.
  - unfold PropertyContext.currentPage. rewrite Hl, Hs. cbn [Z.eqb].
    rewrite Z.mul_comm, Z.div_mul by lia. reflexivity.
  - unfold PropertyContext.hasPrevPage. rewrite Hs.
    destruct (0 <? n)%Z eqn:E.
    + apply Z.ltb_lt in E. apply Z.ltb_lt. lia.
    + apply Z.ltb_ge in E. apply Z.ltb_ge. lia.
Qed.

Lemma page_number_is_well_defined_witness :
  let st := PropertyContext.run
              [PropertyContext.Mounted; PropertyContext.Settled 0 (listing_of 20);
               PropertyList.event_of PropertyList.Next;
               PropertyContext.Settled 0 (listing_of 3)] in
  PropertyContext.limit (PropertyContext.current st) = 20%Z
  /\ exists n, (0 <= n)%Z
       /\ PropertyContext.skip (PropertyContext.current st) = (20 * n)%Z
       /\ PropertyContext.currentPage st = Some (n + 1)%Z
       /\ PropertyContext.hasPrevPage st = (0 <? n)%Z.
Proof.
  apply (page_number_is_well_defined
           [PropertyContext.Mounted; PropertyContext.Settled 0 (listing_of 20);
            PropertyList.event_of PropertyList.Next;
            PropertyContext.Settled 0 (listing_of 3)]).
  apply Forall_cons; [left; reflexivity|].
  apply Forall_cons; [right; right; eexists _, _; reflexivity|].
  apply Forall_cons; [right; left; exists PropertyList.Next; reflexivity|].
  apply Forall_cons; [right; right; eexists _, _; reflexivity|].
  apply Forall_nil.
Defined.

Lemma settle_accepted (q : PropertyContext.filters) (r : Api.settled)
  (st : PropertyContext.state) :
  accepted r -> PropertyContext.current (PropertyContext.settle q r st) = q.
Proof. intros [data E]. unfold PropertyContext.settle. rewrite E. reflexivity. Qed.

Lemma settle_in_flight (q : PropertyContext.filters) (r : Api.settled)
  (st : PropertyContext.state) :
  PropertyContext.in_flight (PropertyContext.settle q r st) = PropertyContext.in_flight st.
Proof.
  unfold PropertyContext.settle. destruct (Api.getProperties r) as [|[|]]; reflexivity.
Qed.

Lemma request_round (st : PropertyContext.state) (p : PropertyContext.patch)
  (r : Api.settled) :
  PropertyContext.in_flight st = [] -> accepted r ->
  let st' := PropertyContext.step (PropertyContext.fetchProperties p st)
               (PropertyContext.Settled 0 r) in
  PropertyContext.current st' = PropertyContext.merge (PropertyContext.current st) p
  /\ PropertyContext.in_flight st' = [].
Proof.
  intros Hf Hr. cbn [PropertyContext.step PropertyContext.fetchProperties
                     PropertyContext.in_flight]. rewrite Hf. cbn [app nth_error].
  split; [apply settle_accepted, Hr | rewrite settle_in_flight; reflexivity].
Qed.

(** X13. From a settled listing, the next page followed by the previous page
    gives the filters back, when both requests succeed.  [skip] and [limit]
    are whole numbers, not negative, with a sum of at most [2^53]: there the
    sum and the difference the code takes in binary64 are exact. *)
Theorem next_then_previous_returns (st : PropertyContext.state) (r1 r2 : Api.settled) :
  PropertyContext.in_flight st = [] ->
  exact_range (PropertyContext.current st) ->
  accepted r1 -> accepted r2 ->
  PropertyContext.current
    (fold_left PropertyContext.step
       [PropertyContext.NextPage; PropertyContext.Settled 0 r1;
        PropertyContext.PrevPage; PropertyContext.Settled 0 r2] st)
  = PropertyContext.current st.
Proof.
  intros Hf (Hs & Hl & _) H1 H2. cbn [fold_left].
  change (PropertyContext.step st PropertyContext.NextPage)
    with (PropertyContext.fetchProperties
            (PropertyContext.only_skip
               (PropertyContext.skip (PropertyContext.current st)
                + PropertyContext.limit (PropertyContext.current st))) st).
  destruct (request_round st
              (PropertyContext.only_skip
                 (PropertyContext.skip (PropertyContext.current st)
                  + PropertyContext.limit (PropertyContext.current st)))
              r1 Hf H1) as [C1 F1].
  set (s1 := PropertyContext.step _ (PropertyContext.Settled 0 r1)) in *.
  change (PropertyContext.step s1 PropertyContext.PrevPage)
    with (PropertyContext.prevPage s1).
  unfold PropertyContext.prevPage.
  destruct (0 <? PropertyContext.skip (PropertyContext.current s1))%Z eqn:E.
  - destruct (request_round s1
                (PropertyContext.only_skip
                   (Z.max 0 (PropertyContext.skip (PropertyContext.current s1)
                             - PropertyContext.limit (PropertyContext.current s1))))
                r2 F1 H2) as [C2 _].
    rewrite C2, C1. destruct (PropertyContext.current st) as [sk li a b c d].
    filters_cbn. f_equal. lia.
  - cbn [PropertyContext.step]. rewrite F1. cbn [nth_error].
    rewrite C1 in E |- *. destruct (PropertyContext.current st) as [sk li a b c d].
    filters_cbn. apply Z.ltb_ge in E. f_equal. lia.
Qed.

Lemma next_then_previous_returns_witness :
  PropertyContext.current
    (fold_left PropertyContext.step
       [PropertyContext.NextPage; PropertyContext.Settled 0 (listing_of 20);
        PropertyContext.PrevPage; PropertyContext.Settled 0 (listing_of 20)]
       PropertyContext.initial)
  = PropertyContext.current PropertyContext.initial.
Proof.
  apply (next_then_previous_returns PropertyContext.initial (listing_of 20) (listing_of 20)).
  - reflexivity.
  - unfold exact_range. cbn. lia.
  - eexists. reflexivity.
  - eexists. reflexivity.
Defined.

(** X14. Two calls of [nextPage] before the first request settles ask for the
    same page: once both requests have succeeded, in either order, the
    listing has advanced by one page. *)
Theorem double_next_advances_one_page (st : PropertyContext.state)
  (r1 r2 : Api.settled) (k : nat) :
  PropertyContext.in_flight st = [] ->
  accepted r1 -> accepted r2 ->
  (k <= 1)%nat ->
  PropertyContext.current
    (fold_left PropertyContext.step
       [PropertyContext.NextPage; PropertyContext.NextPage;
        PropertyContext.Settled k r1; PropertyContext.Settled 0 r2] st)
  = PropertyContext.merge (PropertyContext.current st)
      (PropertyContext.only_skip
         (PropertyContext.skip (PropertyContext.current st)
          + PropertyContext.limit (PropertyContext.current st))).
Proof.
  intros Hf H1 H2 Hk. cbn [fold_left PropertyContext.step].
  unfold PropertyContext.nextPage.
  cbn [PropertyContext.fetchProperties PropertyContext.in_flight
       PropertyContext.current PropertyContext.properties PropertyContext.loading
       PropertyContext.error]. rewrite Hf. cbn [app].
  destruct k as [|[|k]]; [| |lia];
    cbn [nth_error PropertyContext.remove_nth firstn skipn app];
    rewrite settle_in_flight; cbn [PropertyContext.in_flight nth_error];
    apply settle_accepted, H2.
Qed.

Lemma double_next_advances_one_page_witness :
  PropertyContext.skip
    (PropertyContext.current
       (fold_left PropertyContext.step
          [PropertyContext.NextPage; PropertyContext.NextPage;
           PropertyContext.Settled 1 (listing_of 20);
           PropertyContext.Settled 0 (listing_of 20)]
          PropertyContext.initial)) = 20%Z.
Proof.
  rewrite (double_next_advances_one_page PropertyContext.initial
             (listing_of 20) (listing_of 20) 1).
  - reflexivity.
  - reflexivity.
  - eexists. reflexivity.
  - eexists. reflexivity.
  - lia.
Defined.

(** X15. A request that fails (also on a body that is [null]) leaves the
    filters, and so the page, as they were, empties the list, sets the error
    and ends the loading state. *)
Theorem failed_request_keeps_the_page (st : PropertyContext.state) (k : nat)
  (q : PropertyContext.filters) (r : Api.settled) :
  nth_error (PropertyContext.in_flight st) k = Some q ->
  ~ accepted r ->
  let st' := PropertyContext.step st (PropertyContext.Settled k r) in
  PropertyContext.current st' = PropertyContext.current st
  /\ PropertyContext.properties st' = VArr []
  /\ PropertyContext.error st' <> None
  /\ PropertyContext.loading st' = false.
Proof.
  intros Hq Hr. cbn [PropertyContext.step]. rewrite Hq.
  unfold PropertyContext.settle.
  destruct (Api.getProperties r) as [data|[m|]] eqn:E.
  - exfalso. apply Hr. exists data. exact E.
  - cbn. repeat split. discriminate.
  - cbn. repeat split. discriminate.
Qed.

Lemma failed_request_keeps_the_page_witness :
  let st := PropertyContext.nextPage PropertyContext.initial in
  let st' := PropertyContext.step st
               (PropertyContext.Settled 0 (Api.Failed_with (VStr $"Network Error"))) in
  PropertyContext.current st' = PropertyContext.current st
  /\ PropertyContext.properties st' = VArr []
  /\ PropertyContext.error st' <> None
  /\ PropertyContext.loading st' = false.
Proof.
  apply (failed_request_keeps_the_page (PropertyContext.nextPage PropertyContext.initial) 0
           (PropertyContext.mkFilters 20 20 VNull VNull VNull VNull)).
  - reflexivity.
  - intros [data E]. discriminate E.
Defined.

(** ** The chat loop *)

Lemma step_line_feed (st : Utf8.state) :
  pending_above_ascii st -> exists o, snd (Utf8.step st x0a) = o ++ [10].
Proof.
  intros (Hl & Hu & Hz & Hn). unfold Utf8.step.
  change (Byte.to_N x0a) with 10.
  assert (Hemit : forall s, snd (Utf8.emit s 10) = [10]).
  { intros s. unfold Utf8.emit. destruct (Utf8.bom_seen s); reflexivity. }
  destruct (Utf8.bytes_needed st =? 0).
  - exists []. unfold Utf8.lead. cbn [N.leb N.compare Pos.compare Pos.compare_cont].
    apply Hemit.
  - assert (E : (10 <? Utf8.lower st) = true) by (apply N.ltb_lt; lia).
    rewrite E. cbn [orb].
    destruct (Utf8.emit (Utf8.reset st) 65533) as [st1 o1].
    unfold Utf8.lead. cbn [N.leb N.compare Pos.compare Pos.compare_cont].
    pose proof (Hemit st1) as H. destruct (Utf8.emit st1 10) as [st2 o2].
    cbn [snd] in *. subst o2. exists o1. reflexivity.
Qed.

Lemma decode_line_feed_end (st : Utf8.state) (bytes : list byte) :
  pending_above_ascii st ->
  exists t, snd (Utf8.decode st (bytes ++ [x0a])) = t ++ [10].
Proof.
  intros Hst. rewrite decode_app_text.
  destruct (decode_spec st bytes Hst) as [Hst' _].
  destruct (step_line_feed _ Hst') as [o Ho].
  exists (snd (Utf8.decode st bytes) ++ o). rewrite <- app_assoc. f_equal.
  cbn [Utf8.decode]. destruct (Utf8.step _ x0a) as [s1 o1]. cbn [snd] in *.
  rewrite app_nil_r. exact Ho.
Qed.

Lemma split_nl_pieces (s : jsstring) :
  split_nl s = Api.complete_lines s ++ [Api.pending s].
Proof.
  unfold Api.complete_lines, Api.pending.
  apply app_removelast_last, split_nl_nonempty.
Qed.

Lemma on_line_empty (st : WatsonChat.chat) : WatsonChat.on_line st [] = st.
Proof. reflexivity. Qed.

Lemma fold_lines_at_boundary (text : jsstring) (st : WatsonChat.chat) :
  Api.at_line_boundary text ->
  fold_left WatsonChat.on_line (split_nl text) st =
  fold_left WatsonChat.on_line (Api.complete_lines text) st.
Proof.
  intros H. rewrite split_nl_pieces, fold_left_app.
  rewrite (pending_at_line_boundary _ H). reflexivity.
Qed.

Lemma complete_lines_after_boundary (a b : jsstring) :
  Api.at_line_boundary a ->
  Api.complete_lines (a ++ b) = Api.complete_lines a ++ Api.complete_lines b.
Proof.
  intros H. rewrite (proj1 (lines_app a b)), (pending_at_line_boundary _ H).
  reflexivity.
Qed.

Lemma boundary_app (a b : jsstring) :
  Api.at_line_boundary a -> Api.at_line_boundary b -> Api.at_line_boundary (a ++ b).
Proof.
  intros Ha [-> | [t ->]].
  - rewrite app_nil_r. exact Ha.
  - right. exists (a ++ t). rewrite app_assoc. reflexivity.
Qed.

Lemma aligned_reads (reads : list (list byte)) (d : Utf8.state) (st : WatsonChat.chat) :
  pending_above_ascii d ->
  Forall ends_line reads ->
  WatsonChat.read_loop (d, st) reads =
    (fst (Utf8.decode d (concat reads)),
     fold_left WatsonChat.on_line
       (Api.complete_lines (snd (Utf8.decode d (concat reads)))) st)
  /\ Api.at_line_boundary (snd (Utf8.decode d (concat reads))).
Proof.
  intros Hd Hall. revert d st Hd.
  induction Hall as [|value rest [bytes ->] Hall IH]; intros d st Hd.
  - split; [reflexivity | left; reflexivity].
  - cbn [concat]. unfold WatsonChat.read_loop in *. cbn [fold_left].
    destruct (decode_line_feed_end d bytes Hd) as [t Ht].
    destruct (decode_spec d (bytes ++ [x0a]) Hd) as [Hd1 _].
    rewrite decode_app. unfold WatsonChat.on_read at 2. cbn [fst snd].
    destruct (Utf8.decode d (bytes ++ [x0a])) as [d1 t1]. cbn [fst snd] in *. subst t1.
    destruct (IH d1 (fold_left WatsonChat.on_line (split_nl (t ++ [10])) st) Hd1) as [E B].
    rewrite E. destruct (Utf8.decode d1 (concat rest)) as [d2 t2]. cbn [fst snd] in *.
    assert (Bt : Api.at_line_boundary (t ++ [10])) by (right; eexists; reflexivity).
    split; [|apply boundary_app; assumption].
    f_equal. rewrite (fold_lines_at_boundary _ _ Bt).
    rewrite (complete_lines_after_boundary _ _ Bt), fold_left_app. reflexivity.
Qed.

(** X16. The chat keeps no buffer between reads, but when every read ends
    with a line feed the reply does not depend on how the body is cut into
    reads: it is the reply to the body delivered in one read. *)
Theorem chat_reads_at_line_ends (messages : list WatsonChat.message)
  (reads : list (list byte)) :
  Forall ends_line reads ->
  WatsonChat.reply_to messages reads = WatsonChat.reply_to messages [concat reads].
Proof.
  intros Hall. unfold WatsonChat.reply_to.
  destruct (aligned_reads reads Utf8.init (WatsonChat.mkChat [] messages []) init_state Hall)
    as [E B].
  rewrite E. unfold WatsonChat.read_loop. cbn [fold_left concat snd].
  rewrite ?app_nil_r. unfold WatsonChat.on_read. cbn [fst snd].
  destruct (Utf8.decode Utf8.init (concat reads)) as [d t]. cbn [fst snd] in *.
  rewrite (fold_lines_at_boundary _ _ B). reflexivity.
Qed.

Lemma chat_reads_at_line_ends_witness :
  WatsonChat.reply_to [WatsonChat.mkMessage WatsonChat.User $"Is the rent fair?"]
    [line_bytes "data: {'type':'message','content':'The rent'}";
     line_bytes "data: {'type':'message','content':' is fair.'}"] =
  WatsonChat.reply_to [WatsonChat.mkMessage WatsonChat.User $"Is the rent fair?"]
    [line_bytes "data: {'type':'message','content':'The rent'}" ++
     (line_bytes "data: {'type':'message','content':' is fair.'}" ++ [])].
Proof.
  apply (chat_reads_at_line_ends [WatsonChat.mkMessage WatsonChat.User $"Is the rent fair?"]
           [line_bytes "data: {'type':'message','content':'The rent'}";
            line_bytes "data: {'type':'message','content':' is fair.'}"]).
  repeat constructor; eexists; reflexivity.
Defined.

(** The loop keeps no buffer: a line cut by the network is lost. *)
Example chat_line_cut_in_two :
  WatsonChat.messages
    (WatsonChat.reply_to []
       [quoted_bytes "data: {'type':'message',"; line_bytes "'content':'The rent is fair.'}"])
  = []
  /\ WatsonChat.messages
       (WatsonChat.reply_to []
          [quoted_bytes "data: {'type':'message'," ++ line_bytes "'content':'The rent is fair.'}"])
     = [WatsonChat.mkMessage WatsonChat.Assistant $"The rent is fair."].
Proof. split; vm_compute; reflexivity. Qed.

(** ** One reply *)

Lemma cleaned_nonempty (content : value) (text : jsstring) :
  WatsonChat.cleaned content = WatsonChat.Add text -> text <> [].
Proof.
  destruct content; try discriminate. cbn [WatsonChat.cleaned].
  destruct (WatsonChat.clean s); [discriminate|].
  intros H. injection H as <-. discriminate.
Qed.

Lemma summary_nonempty (scores : value) (text : jsstring) :
  WatsonChat.summary scores = Some text -> text <> [].
Proof.
  unfold WatsonChat.summary.
  destruct (ToString _); [|discriminate].
  destruct (ToString _); [|discriminate].
  destruct (ToString _); [|discriminate].
  intros H. injection H as <-. discriminate.
Qed.

Lemma message_outcome_nonempty (content : value) (text : jsstring) :
  WatsonChat.message_outcome content = WatsonChat.Add text -> text <> [].
Proof.
  unfold WatsonChat.message_outcome.
  destruct (ToString content) as [t|]; [|apply cleaned_nonempty].
  destruct (JSON_parse t) as [json|] eqn:E; [|apply cleaned_nonempty].
  destruct (get json $"scores") as [scores|]; [|apply cleaned_nonempty].
  destruct (truthy scores).
  - destruct (WatsonChat.summary scores) eqn:Es; [|apply cleaned_nonempty].
    intros H. injection H as <-. eapply summary_nonempty, Es.
  - destruct (truthy (prop json $"property")); [discriminate|].
    intros H. injection H as <-. intros ->. rewrite JSON_parse_empty in E. discriminate.
Qed.

Lemma set_reply_first (before : list WatsonChat.message) (u : jsstring) (reply : jsstring) :
  WatsonChat.set_reply reply (before ++ [WatsonChat.mkMessage WatsonChat.User u]) =
  (before ++ [WatsonChat.mkMessage WatsonChat.User u])
  ++ [WatsonChat.mkMessage WatsonChat.Assistant reply].
Proof. unfold WatsonChat.set_reply. rewrite rev_unit. reflexivity. Qed.

Lemma set_reply_again (before : list WatsonChat.message) (old reply : jsstring) :
  WatsonChat.set_reply reply (before ++ [WatsonChat.mkMessage WatsonChat.Assistant old]) =
  before ++ [WatsonChat.mkMessage WatsonChat.Assistant reply].
Proof.
  unfold WatsonChat.set_reply. rewrite rev_unit. cbn [WatsonChat.sender].
  rewrite rev_involutive. reflexivity.
Qed.

Lemma on_line_one_reply (before : list WatsonChat.message) (u : jsstring)
  (st : WatsonChat.chat) (line : jsstring) :
  one_reply (before ++ [WatsonChat.mkMessage WatsonChat.User u]) st ->
  one_reply (before ++ [WatsonChat.mkMessage WatsonChat.User u]) (WatsonChat.on_line st line).
Proof.
  intros H. unfold WatsonChat.on_line.
  destruct (startsWith line $"data: "); [|exact H].
  destruct (str_eqb (slice 6 line) $"[DONE]"); [exact H|].
  destruct (JSON_parse (slice 6 line)) as [parsed|]; [|exact H].
  destruct (get parsed $"type") as [type|]; [|exact H].
  destruct (Api.is_string type $"thread_id"); [exact H|].
  destruct (Api.is_string type $"message"); [|exact H].
  destruct (WatsonChat.message_outcome (prop parsed $"content")) as [|text] eqn:E;
    [exact H|].
  apply message_outcome_nonempty in E.
  unfold one_reply in *. cbn [WatsonChat.messages WatsonChat.assistantMessage].
  rewrite H.
  assert (Hne : WatsonChat.assistantMessage st ++ text <> []).
  { intros E0. apply app_eq_nil in E0. destruct E0 as [_ E0]. contradiction. }
  destruct (WatsonChat.assistantMessage st) as [|c old] eqn:Ea.
  - cbn [reply_of app]. rewrite app_nil_r, set_reply_first.
    destruct text; [congruence | reflexivity].
  - cbn [reply_of]. rewrite set_reply_again. reflexivity.
Qed.

Lemma on_read_one_reply (before : list WatsonChat.message) (u : jsstring)
  (st : Utf8.state * WatsonChat.chat) (value : list byte) :
  one_reply (before ++ [WatsonChat.mkMessage WatsonChat.User u]) (snd st) ->
  one_reply (before ++ [WatsonChat.mkMessage WatsonChat.User u])
            (snd (WatsonChat.on_read st value)).
Proof.
  intros H. unfold WatsonChat.on_read.
  destruct (Utf8.decode (fst st) value) as [d chunk]. cbn [snd].
  generalize (split_nl chunk) as lines. revert H. generalize (snd st) as c.
  intros c H lines. revert c H.
  induction lines as [|l lines IH]; intros c H; cbn [fold_left]; [exact H|].
  apply IH, on_line_one_reply, H.
Qed.

Lemma loop_gives_one_reply (before : list WatsonChat.message) (u : jsstring)
  (reads : list (list byte)) :
  one_reply (before ++ [WatsonChat.mkMessage WatsonChat.User u])
            (WatsonChat.reply_to (before ++ [WatsonChat.mkMessage WatsonChat.User u]) reads).
Proof.
  unfold WatsonChat.reply_to, WatsonChat.read_loop.
  assert (G : forall s,
             one_reply (before ++ [WatsonChat.mkMessage WatsonChat.User u]) (snd s) ->
             one_reply (before ++ [WatsonChat.mkMessage WatsonChat.User u])
                       (snd (fold_left WatsonChat.on_read reads s))).
  { induction reads as [|v reads IH]; intros s Hs; cbn [fold_left]; [exact Hs|].
    apply IH, on_read_one_reply, Hs. }
  apply G. unfold one_reply. cbn. rewrite app_nil_r. reflexivity.
Qed.

(** X17. One question gets one answer.  For an input that is not blank, sent
    while no reply is loading, whatever the body holds the message list
    after [sendMessage] is the list before it, the trimmed question, at most
    one assistant message, which holds the whole reply accumulated by the
    loop (none while the reply is empty), and the apology when the request
    or a read threw. *)
Theorem chat_gives_one_reply (input : jsstring) (messages : list WatsonChat.message)
  (reads : list (list byte)) (threw : bool) :
  trim input <> [] ->
  let asked := messages ++ [WatsonChat.mkMessage WatsonChat.User (trim input)] in
  WatsonChat.sendMessage input false messages reads threw =
  asked
  ++ reply_of (WatsonChat.assistantMessage (WatsonChat.reply_to asked reads))
  ++ (if threw
      then [WatsonChat.mkMessage WatsonChat.Assistant
              $"Sorry, I encountered an error. Please try again."]
      else []).
Proof.
  intros Hinput asked. subst asked. unfold WatsonChat.sendMessage, WatsonChat.ask.
  destruct (trim input) as [|c t]; [contradiction|].
  pose proof (loop_gives_one_reply messages (c :: t) reads) as H.
  unfold one_reply in H. unfold WatsonChat.finish. rewrite H.
  destruct threw; [rewrite <- app_assoc | rewrite app_nil_r]; reflexivity.
Qed.

Lemma chat_gives_one_reply_witness :
  WatsonChat.sendMessage $" Is the rent fair? " false [] 
    [line_bytes "data: {'type':'thread_id','thread_id':'t1'}";
     line_bytes "data: {'type':'message','content':'The rent'}";
     line_bytes "data: {'type':'message','content':' is fair.'}";
     line_bytes "data: [DONE]"] true
  = [WatsonChat.mkMessage WatsonChat.User $"Is the rent fair?";
     WatsonChat.mkMessage WatsonChat.Assistant $"The rentis fair.";
     WatsonChat.mkMessage WatsonChat.Assistant
       $"Sorry, I encountered an error. Please try again."].
Proof.
  apply (chat_gives_one_reply $" Is the rent fair? " []
           [line_bytes "data: {'type':'thread_id','thread_id':'t1'}";
            line_bytes "data: {'type':'message','content':'The rent'}";
            line_bytes "data: {'type':'message','content':' is fair.'}";
            line_bytes "data: [DONE]"] true).
  vm_compute. discriminate.
Defined.

(** Nothing is sent for a blank input or while a reply is loading. *)
Example blank_input_sends_nothing :
  WatsonChat.sendMessage $"   " false [] [line_bytes "data: {'type':'message','content':'x'}"] false = []
  /\ WatsonChat.sendMessage $"Hello" true [] [line_bytes "data: {'type':'message','content':'x'}"] false = [].
Proof. split; vm_compute; reflexivity. Qed.

(** ** Text without braces *)

Lemma greedy_star_cons (p : code_unit -> bool) (pos : nat) (c : code_unit)
  (s : jsstring) (caps : RegExp.captures) (k : RegExp.cont) :
  RegExp.matcher (RegExp.Star true (RegExp.Class p)) pos (c :: s) caps k =
  if p c
  then match RegExp.matcher (RegExp.Star true (RegExp.Class p)) (S pos) s caps k with
       | Some x => Some x
       | None => k pos (c :: s) caps
       end
  else k pos (c :: s) caps.
Proof.
  cbn [RegExp.matcher length].
  destruct (p c); [|reflexivity].
  assert (E : Nat.ltb pos (S pos) = true) by (apply Nat.ltb_lt; lia).
  rewrite E. reflexivity.
Qed.

Lemma greedy_star_nil (p : code_unit -> bool) (pos : nat)
  (caps : RegExp.captures) (k : RegExp.cont) :
  RegExp.matcher (RegExp.Star true (RegExp.Class p)) pos [] caps k = k pos [] caps.
Proof. reflexivity. Qed.

Lemma greedy_star_fails (p : code_unit -> bool) (k : RegExp.cont) (Q : jsstring -> Prop) :
  (forall c s, Q (c :: s) -> Q s) ->
  (forall pos s caps, Q s -> k pos s caps = None) ->
  forall s pos caps, Q s ->
  RegExp.matcher (RegExp.Star true (RegExp.Class p)) pos s caps k = None.
Proof.
  intros Htl Hk s. induction s as [|c s IH]; intros pos caps HQ.
  - rewrite greedy_star_nil. apply Hk, HQ.
  - rewrite greedy_star_cons. destruct (p c); [|apply Hk, HQ].
    rewrite IH by (eapply Htl, HQ). apply Hk, HQ.
Qed.

Lemma no_stray_brace (s : jsstring) (pos : nat) (caps : RegExp.captures) (k : RegExp.cont) :
  brace_free s -> RegExp.matcher WatsonChat.re_stray_brace pos s caps k = None.
Proof.
  intros H. unfold WatsonChat.re_stray_brace, RegExp.seq_of, RegExp.star, RegExp.space.
  cbn [RegExp.matcher].
  apply greedy_star_fails with (Q := brace_free); [| |exact H].
  - intros c t Ht. inversion Ht; assumption.
  - intros pos' t caps' Ht. destruct t as [|c t]; [reflexivity|].
    inversion Ht as [|? ? [H1 H2] _]; subst.
    unfold RegExp.one_of. cbn [RegExp.matcher existsb].
    apply N.eqb_neq in H1, H2. rewrite H1, H2. reflexivity.
Qed.

Lemma remove_nothing (fuel : nat) (b : bool) (s : jsstring) :
  brace_free s -> (length s <= fuel)%nat -> WatsonChat.remove_stray_braces fuel b s = s.
Proof.
  revert b s. induction fuel as [|f IH]; intros b s H Hlen.
  - reflexivity.
  - cbn [WatsonChat.remove_stray_braces].
    rewrite (no_stray_brace s 0 [] _ H).
    assert (E : (if b then @None (nat * RegExp.captures) else None) = None)
      by (destruct b; reflexivity).
    rewrite E. destruct s as [|c s]; [reflexivity|].
    f_equal. apply IH; [inversion H; assumption | cbn [length] in Hlen; lia].
Qed.

Lemma clean_brace_free (text : jsstring) : brace_free text -> WatsonChat.clean text = trim text.
Proof.
  intros H. unfold WatsonChat.clean. rewrite remove_nothing; [reflexivity | exact H | lia].
Qed.

(** X18. Narration that is not JSON and holds no brace is appended with the
    white space at its two ends removed, and skipped when nothing is left:
    the clean-up of stray braces changes nothing else. *)
Theorem plain_text_is_trimmed (text : jsstring) :
  JSON_parse text = None ->
  brace_free text ->
  WatsonChat.message_outcome (VStr text) =
  match trim text with
  | [] => WatsonChat.Skip
  | t => WatsonChat.Add t
  end.
Proof.
  intros Hjson Hfree. unfold WatsonChat.message_outcome. cbn [ToString].
  rewrite Hjson. cbn [WatsonChat.cleaned]. rewrite (clean_brace_free _ Hfree).
  reflexivity.
Qed.

Lemma plain_text_is_trimmed_witness :
  WatsonChat.message_outcome (VStr $" is fair. ") = WatsonChat.Add $"is fair.".
Proof.
  apply (plain_text_is_trimmed $" is fair. ").
  - vm_compute. reflexivity.
  - unfold brace_free. repeat constructor; discriminate.
Defined.

(** Chunks of narration lose the white space at their borders. *)
Example narration_chunks_are_joined_without_spaces :
  WatsonChat.messages
    (WatsonChat.reply_to [WatsonChat.mkMessage WatsonChat.User $"Is the rent fair?"]
       [line_bytes "data: {'type':'message','content':'The rent '}";
        line_bytes "data: {'type':'message','content':'is fair.'}"])
  = [WatsonChat.mkMessage WatsonChat.User $"Is the rent fair?";
     WatsonChat.mkMessage WatsonChat.Assistant $"The rentis fair."].
Proof. vm_compute. reflexivity. Qed.

(** ** Bold text *)

Lemma lazy_star_nil (p : code_unit -> bool) (pos : nat)
  (caps : RegExp.captures) (k : RegExp.cont) :
  RegExp.matcher (RegExp.Star false (RegExp.Class p)) pos [] caps k =
  match k pos [] caps with Some x => Some x | None => None end.
Proof. reflexivity. Qed.

Lemma lazy_star_cons (p : code_unit -> bool) (pos : nat) (c : code_unit)
  (s : jsstring) (caps : RegExp.captures) (k : RegExp.cont) :
  RegExp.matcher (RegExp.Star false (RegExp.Class p)) pos (c :: s) caps k =
  match k pos (c :: s) caps with
  | Some x => Some x
  | None =>
      if p c then RegExp.matcher (RegExp.Star false (RegExp.Class p)) (S pos) s caps k
      else None
  end.
Proof.
  cbn [RegExp.matcher length].
  destruct (k pos (c :: s) caps); [reflexivity|].
  destruct (p c); [|reflexivity].
  assert (E : Nat.ltb pos (S pos) = true) by (apply Nat.ltb_lt; lia).
  rewrite E. reflexivity.
Qed.

(** A lazy star of a class ends where its continuation accepts, after code
    units of the class. *)
Lemma lazy_star_ends (p : code_unit -> bool) (k : RegExp.cont) (caps : RegExp.captures)
  (s : jsstring) : forall (pos : nat) (r : nat * RegExp.captures),
  RegExp.matcher (RegExp.Star false (RegExp.Class p)) pos s caps k = Some r ->
  exists n, (n <= length s)%nat /\ forallb p (firstn n s) = true
            /\ k (pos + n)%nat (skipn n s) caps = Some r.
Proof.
  induction s as [|c s IH]; intros pos r H.
  - rewrite lazy_star_nil in H. exists 0%nat. rewrite Nat.add_0_r.
    destruct (k pos [] caps) eqn:E; [|discriminate].
    split; [cbn; lia|]. split; [reflexivity|]. cbn [skipn]. congruence.
  - rewrite lazy_star_cons in H.
    destruct (k pos (c :: s) caps) eqn:E.
    + exists 0%nat. rewrite Nat.add_0_r. cbn [skipn firstn forallb length].
      split; [lia|]. split; [reflexivity | congruence].
    + destruct (p c) eqn:Ep; [|discriminate].
      destruct (IH _ _ H) as (n & Hn & Hp & Hk).
      exists (S n). cbn [skipn firstn forallb length]. rewrite Ep, Hp.
      replace (pos + S n)%nat with (S pos + n)%nat by lia.
      split; [lia|]. split; [reflexivity | exact Hk].
Qed.

Lemma bold_at (pos : nat) (s : jsstring) (e : nat) (caps : RegExp.captures) :
  RegExp.matcher WatsonChat.re_bold pos s [] (fun e _ caps => Some (e, caps)) = Some (e, caps) ->
  exists g rest,
    s = [42; 42] ++ g ++ [42; 42] ++ rest /\ bold_text g
    /\ e = (pos + (4 + length g))%nat /\ RegExp.capture caps 1 = Some g.
Proof.
  unfold WatsonChat.re_bold, RegExp.seq_of, RegExp.chr, WatsonChat.dot, RegExp.lazy_star.
  cbn [RegExp.matcher].
  destruct s as [|c1 s]; [discriminate|].
  destruct (42 =? c1) eqn:E1; [|discriminate]. apply N.eqb_eq in E1. subst c1.
  destruct s as [|c2 s]; [discriminate|].
  destruct (42 =? c2) eqn:E2; [|discriminate]. apply N.eqb_eq in E2. subst c2.
  destruct s as [|c3 s]; [discriminate|].
  destruct (negb (WatsonChat.is_line_terminator c3)) eqn:E3; [|discriminate].
  intros H.
  change ((fix loop (fuel pos0 : nat) (s0 : jsstring) (caps0 : RegExp.captures) {struct fuel} :
             option (nat * RegExp.captures) := _) (length s) (S (S (S pos))) s [])
    with (RegExp.matcher
            (RegExp.Star false (RegExp.Class (fun c => negb (WatsonChat.is_line_terminator c))))
            (S (S (S pos))) s []
            (fun pos' s' caps' =>
               match s' with
               | [] => None
               | c :: s'0 =>
                   if 42 =? c
                   then match s'0 with
                        | [] => None
                        | c0 :: _ =>
                            if 42 =? c0
                            then Some (S (S pos'),
                                       RegExp.set_capture 1
                                         (firstn (pos' - S (S pos)) (c3 :: s)) caps')
                            else None
                        end
                   else None
               end)) in H.
  apply lazy_star_ends in H. destruct H as (n & Hn & Hp & Hk).
  destruct (skipn n s) as [|c4 t] eqn:Es; [discriminate|].
  destruct (42 =? c4) eqn:E4; [|discriminate]. apply N.eqb_eq in E4. subst c4.
  destruct t as [|c5 t]; [discriminate|].
  destruct (42 =? c5) eqn:E5; [|discriminate]. apply N.eqb_eq in E5. subst c5.
  injection Hk as <- <-.
  replace (S (S (S pos)) + n - S (S pos))%nat with (S n) by lia.
  cbn [firstn].
  exists (c3 :: firstn n s), t.
  assert (Hlen : length (firstn n s) = n) by (apply firstn_length_le; exact Hn).
  repeat split.
  - cbn [app]. do 3 f_equal. rewrite <- (firstn_skipn n s) at 1. rewrite Es. reflexivity.
  - discriminate.
  - cbn [forallb]. rewrite E3, Hp. reflexivity.
  - cbn [length]. rewrite Hlen. lia.
  - cbn [RegExp.capture RegExp.set_capture filter Nat.eqb]. f_equal.
    match goal with
    | |- firstn ?x _ = _ => replace x with (S n) by (destruct pos; lia)
    end.
    reflexivity.
Qed.

Lemma firstn_length_app (A : Type) (a b : list A) : firstn (length a) (a ++ b) = a.
Proof. rewrite firstn_app, Nat.sub_diag, firstn_all. cbn [firstn]. apply app_nil_r. Qed.

Lemma skipn_length_app (A : Type) (a b : list A) : skipn (length a) (a ++ b) = b.
Proof. rewrite skipn_app, Nat.sub_diag, skipn_all. reflexivity. Qed.

Lemma bold_search (s : jsstring) : forall (pos : nat) (m : RegExp.match_result),
  RegExp.search_from WatsonChat.re_bold pos s = Some m ->
  exists before g rest,
    s = before ++ [42; 42] ++ g ++ [42; 42] ++ rest /\ bold_text g
    /\ RegExp.index m = (pos + length before)%nat
    /\ RegExp.whole m = [42; 42] ++ g ++ [42; 42]
    /\ RegExp.group m 1 = Some g.
Proof.
  induction s as [|c s IH]; intros pos m H.
  - cbn [RegExp.search_from] in H.
    destruct (RegExp.matcher WatsonChat.re_bold pos [] [] _) as [[e caps]|] eqn:E;
      [|discriminate].
    apply bold_at in E. destruct E as (g & rest & E & _). discriminate.
  - cbn [RegExp.search_from] in H.
    destruct (RegExp.matcher WatsonChat.re_bold pos (c :: s) [] _) as [[e caps]|] eqn:E.
    + apply bold_at in E. destruct E as (g & rest & Es & Hg & He & Hc).
      injection H as <-. exists [], g, rest. cbn [RegExp.index RegExp.whole length].
      split; [exact Es|]. split; [exact Hg|]. split; [lia|]. split; [|exact Hc].
      rewrite Es, He.
      replace (pos + (4 + length g) - pos)%nat with (length ([42; 42] ++ g ++ [42; 42]))
        by (rewrite !length_app; cbn [length]; lia).
      assert (Ea : [42; 42] ++ g ++ [42; 42] ++ rest = ([42; 42] ++ g ++ [42; 42]) ++ rest)
        by (cbn [app]; rewrite <- !app_assoc; reflexivity).
      rewrite Ea. apply firstn_length_app.
    + apply IH in H. destruct H as (before & g & rest & Es & Hg & Hi & Hw & Hc).
      exists (c :: before), g, rest. cbn [length app]. rewrite Es, Hi.
      split; [reflexivity|]. split; [exact Hg|]. split; [lia|]. split; assumption.
Qed.

Lemma inline_keeps_text (fuel : nat) : forall remaining : jsstring,
  (length remaining <= fuel)%nat ->
  concat (map markup (WatsonChat.inline fuel remaining)) = remaining
  /\ Forall shown (WatsonChat.inline fuel remaining).
Proof.
  induction fuel as [|f IH]; intros remaining Hlen.
  - destruct remaining; [split; [reflexivity | constructor] | cbn [length] in Hlen; lia].
  - cbn [WatsonChat.inline]. destruct remaining as [|c s]; [split; [reflexivity | constructor]|].
    unfold RegExp.exec.
    destruct (RegExp.search_from WatsonChat.re_bold 0 (c :: s)) as [m|] eqn:E.
    + apply bold_search in E.
      destruct E as (before & g & rest & Es & Hg & Hi & Hw & Hc).
      rewrite Es, Hi, Hw, Hc. cbn [Nat.add].
      rewrite firstn_length_app. unfold slice.
      assert (El : Nat.add (length before) (length ([42; 42] ++ g ++ [42; 42]))
                   = length (before ++ [42; 42] ++ g ++ [42; 42]))
        by (rewrite !length_app; reflexivity).
      assert (Ea : before ++ [42; 42] ++ g ++ [42; 42] ++ rest
                   = (before ++ [42; 42] ++ g ++ [42; 42]) ++ rest)
        by (rewrite <- !app_assoc; reflexivity).
      rewrite El, Ea, skipn_length_app.
      assert (Hrest : (length rest <= f)%nat).
      { apply (f_equal (@length _)) in Es. rewrite !length_app in Es.
        cbn [length] in *. lia. }
      destruct (IH rest Hrest) as [Hr Hs].
      rewrite map_app, concat_app. cbn [map concat markup]. rewrite Hr.
      split.
      * assert (Hb : concat (map markup
                               match before with
                               | [] => []
                               | _ :: _ => [WatsonChat.Span before]
                               end) = before)
          by (destruct before; cbn [map concat markup]; rewrite ?app_nil_r; reflexivity).
        rewrite Hb. change ($"**") with [42; 42].
        cbn [app]. rewrite <- !app_assoc. cbn [app]. rewrite <- ?app_assoc. reflexivity.
      * apply Forall_app. split.
        -- destruct before; constructor; [discriminate | constructor].
        -- constructor; [exact Hg | exact Hs].
    + cbn [map concat markup]. rewrite app_nil_r.
      split; [reflexivity | constructor; [discriminate | constructor]].
Qed.

(** X19. Rendering a line loses no text: putting the two pairs of asterisks
    back around every [strong] element and joining the parts gives the
    content of the line again (for a bullet, the line without the white
    space around it and without its marker), and no element is empty: a
    [span] holds text and a [strong] holds a text on one line.  So the loop
    ends on every line with the fuel of the line's length. *)
Theorem rendering_keeps_the_text (line : jsstring) :
  concat (map markup (parts_of (WatsonChat.render_line line))) = WatsonChat.line_content line
  /\ Forall shown (parts_of (WatsonChat.render_line line)).
Proof.
  unfold WatsonChat.render_line.
  destruct (inline_keeps_text (length (WatsonChat.line_content line))
              (WatsonChat.line_content line) (le_n _)) as [H1 H2].
  destruct (WatsonChat.isBullet line); cbn [parts_of]; [split; assumption|].
  destruct (WatsonChat.inline _ _) eqn:E; cbn [parts_of]; split; assumption.
Qed.
